(** * A shallow embedding of [crawler.py]

    The crawler is a coordinator thread ([main]) that owns the dictionary
    [processed_urls], a pool of worker threads ([ThreadUrl.run]) that call
    [process_page], and two queues between them.  The development below
    embeds the pure URL helpers, the page fetcher, the worker step, the
    coordinator loop and the reporter, and then states the properties of
    the specification against them.

    Python strings are modelled by [string] (characters with code points
    below 256), Python [int] by [Z], [None]-able values by [option], and
    raised exceptions by the [Raise] constructor of [comp]. *)

From Stdlib Require Import String Ascii List ZArith Bool Arith Lia.
From Stdlib Require Import DecimalString.
Import ListNotations.
Local Open Scope string_scope.
Local Open Scope list_scope.
Local Open Scope nat_scope.

(** ** Python exceptions and fallible computations *)

Inductive exn : Type :=
| ValueError (msg : string)
| TypeError (msg : string)
| UnicodeDecodeError
| OtherError (msg : string).

Inductive comp (A : Type) : Type :=
| Return (a : A)
| Raise (e : exn).
Arguments Return {A} a.
Arguments Raise {A} e.

Definition rbind {A B : Type} (m : comp A) (k : A -> comp B) : comp B :=
  match m with
  | Return a => k a
  | Raise e => Raise e
  end.

Notation "x <- m ;; k" := (rbind m (fun x => k))
  (at level 61, m at next level, right associativity).

(** ** String helpers (the [str] methods the program and [urllib.parse] use) *)

Module Str.

(** [bool(s)] for a [str]: true iff non-empty. *)
Definition truthy (s : string) : bool :=
  match s with
  | EmptyString => false
  | String _ _ => true
  end.

(** [c in s] for a one-character [c]. *)
Fixpoint contains (c : ascii) (s : string) : bool :=
  match s with
  | EmptyString => false
  | String a r => if Ascii.eqb a c then true else contains c r
  end.

(** [s.startswith(p)]. *)
Fixpoint startswith (p s : string) : bool :=
  match p with
  | EmptyString => true
  | String a p' =>
      match s with
      | EmptyString => false
      | String b s' => if Ascii.eqb a b then startswith p' s' else false
      end
  end.

(** [s[n:]] for [n >= 0]. *)
Fixpoint drop (n : nat) (s : string) : string :=
  match n, s with
  | O, _ => s
  | S _, EmptyString => EmptyString
  | S n', String _ r => drop n' r
  end.

(** [s.partition(c)] restricted to what the callers need: the text before
    the first [c] and the text after it; [None] when [c] does not occur. *)
Fixpoint split_first (c : ascii) (s : string) : option (string * string) :=
  match s with
  | EmptyString => None
  | String a r =>
      if Ascii.eqb a c then Some (EmptyString, r)
      else match split_first c r with
           | Some (h, t) => Some (String a h, t)
           | None => None
           end
  end.

(** [s.split(c)]: all the fields, at least one. *)
Fixpoint split (c : ascii) (s : string) : list string :=
  match s with
  | EmptyString => [EmptyString]
  | String a r =>
      if Ascii.eqb a c then EmptyString :: split c r
      else match split c r with
           | h :: t => String a h :: t
           | [] => [String a EmptyString]
           end
  end.

(** [sep.join(l)]. *)
Fixpoint join (sep : string) (l : list string) : string :=
  match l with
  | [] => EmptyString
  | [x] => x
  | x :: r => (x ++ sep ++ join sep r)%string
  end.

(** The text up to the first character satisfying [p], and the rest
    starting at that character. *)
Fixpoint break (p : ascii -> bool) (s : string) : string * string :=
  match s with
  | EmptyString => (EmptyString, EmptyString)
  | String a r =>
      if p a then (EmptyString, s)
      else let (h, t) := break p r in (String a h, t)
  end.

Fixpoint forallb (p : ascii -> bool) (s : string) : bool :=
  match s with
  | EmptyString => true
  | String a r => p a && forallb p r
  end.

Fixpoint filter (p : ascii -> bool) (s : string) : string :=
  match s with
  | EmptyString => EmptyString
  | String a r => if p a then String a (filter p r) else filter p r
  end.

Fixpoint map (f : ascii -> ascii) (s : string) : string :=
  match s with
  | EmptyString => EmptyString
  | String a r => String (f a) (map f r)
  end.

(** [s.lstrip(chars)] for the set of characters satisfying [p]. *)
Fixpoint lstrip (p : ascii -> bool) (s : string) : string :=
  match s with
  | EmptyString => EmptyString
  | String a r => if p a then lstrip p r else s
  end.

Definition rev (s : string) : string :=
  string_of_list_ascii (List.rev (list_ascii_of_string s)).

(** [s.strip(chars)]. *)
Definition strip (p : ascii -> bool) (s : string) : string :=
  rev (lstrip p (rev (lstrip p s))).

Definition code (a : ascii) : nat := nat_of_ascii a.

Definition is_upper (a : ascii) : bool := (65 <=? code a) && (code a <=? 90).
Definition is_lower (a : ascii) : bool := (97 <=? code a) && (code a <=? 122).
Definition is_digit (a : ascii) : bool := (48 <=? code a) && (code a <=? 57).

(** [c.isascii() and c.isalpha()]. *)
Definition is_ascii_alpha (a : ascii) : bool := is_upper a || is_lower a.

(** [str.lower] on one character; only ASCII letters are ever lowered by
    the callers (scheme names). *)
Definition lower_ascii (a : ascii) : ascii :=
  if is_upper a then ascii_of_nat (code a + 32) else a.

Definition lower (s : string) : string := map lower_ascii s.

(** [s in l] for a list of strings. *)
Definition mem (s : string) (l : list string) : bool :=
  existsb (String.eqb s) l.

End Str.

(** ** A model of [urllib.parse]

    The functions below follow CPython's [urllib/parse.py] (3.11) on [str]
    arguments with [allow_fragments=True].  Of the validity checks of
    [urlsplit], the NFKC check of [_checknetloc] is left out, being a no-op
    on every string of code points below 256, and the address syntax
    accepted inside square brackets ([_check_bracketed_host], which calls
    the [ipaddress] module) is the parameter [bracketed_host_ok]. *)

Module urllib.

Definition uses_relative : list string :=
  [""; "ftp"; "http"; "gopher"; "nntp"; "imap"; "wais"; "file"; "https";
   "shttp"; "mms"; "prospero"; "rtsp"; "rtspu"; "sftp"; "svn"; "svn+ssh";
   "ws"; "wss"].

Definition uses_netloc : list string :=
  [""; "ftp"; "http"; "gopher"; "nntp"; "telnet"; "imap"; "wais"; "file";
   "mms"; "https"; "shttp"; "snews"; "prospero"; "rtsp"; "rtspu"; "rsync";
   "svn"; "svn+ssh"; "sftp"; "nfs"; "git"; "git+ssh"; "ws"; "wss"].

Definition uses_params : list string :=
  [""; "ftp"; "hdl"; "prospero"; "http"; "imap"; "https"; "shttp"; "rtsp";
   "rtspu"; "sip"; "sips"; "mms"; "sftp"; "tel"].

(** [c in scheme_chars]. *)
Definition scheme_char (a : ascii) : bool :=
  Str.is_lower a || Str.is_upper a || Str.is_digit a ||
  Ascii.eqb a "+" || Ascii.eqb a "-" || Ascii.eqb a ".".

(** [_WHATWG_C0_CONTROL_OR_SPACE]. *)
Definition c0_control_or_space (a : ascii) : bool := Str.code a <=? 32.

(** [_UNSAFE_URL_BYTES_TO_REMOVE]: tab, carriage return, line feed. *)
Definition unsafe_byte (a : ascii) : bool :=
  (Str.code a =? 9) || (Str.code a =? 13) || (Str.code a =? 10).

Definition remove_unsafe (s : string) : string :=
  Str.filter (fun a => negb (unsafe_byte a)) s.

Record SplitResult : Type := mkSplit {
  s_scheme : string;
  s_netloc : string;
  s_path : string;
  s_query : string;
  s_fragment : string
}.

Record ParseResult : Type := mkParse {
  scheme : string;
  netloc : string;
  path : string;
  params : string;
  query : string;
  fragment : string
}.

(** [_splitnetloc(url, 2)]: the caller has checked [url[:2] == '//']. *)
Definition _splitnetloc (url : string) : string * string :=
  Str.break (fun a => Ascii.eqb a "/" || Ascii.eqb a "?" || Ascii.eqb a "#")
            (Str.drop 2 url).

(** [s.rpartition('@')[2]]: the text after the last [@], the whole string
    when there is none. *)
Fixpoint after_last_at (s : string) : string :=
  match s with
  | EmptyString => EmptyString
  | String a r =>
      if Str.contains "@" r then after_last_at r
      else if Ascii.eqb a "@" then r else s
  end.

Section Parse.

(** [_check_bracketed_host(hostname)] returns without raising. *)
Variable bracketed_host_ok : string -> bool.

Definition _check_bracketed_netloc (nl : string) : comp unit :=
  let hostname_and_port := after_last_at nl in
  match Str.split_first "[" hostname_and_port with
  | Some (before_bracket, bracketed) =>
      if Str.truthy before_bracket then Raise (ValueError "Invalid IPv6 URL")
      else
        let (hostname, port) :=
          match Str.split_first "]" bracketed with
          | Some (h, p) => (h, p)
          | None => (bracketed, EmptyString)
          end in
        if Str.truthy port && negb (Str.startswith ":" port)
        then Raise (ValueError "Invalid IPv6 URL")
        else if bracketed_host_ok hostname then Return tt
             else Raise (ValueError "invalid bracketed host")
  | None =>
      let hostname :=
        match Str.split_first ":" hostname_and_port with
        | Some (h, _) => h
        | None => hostname_and_port
        end in
      if bracketed_host_ok hostname then Return tt
      else Raise (ValueError "invalid bracketed host")
  end.

(** [urlsplit(url, scheme)]. *)
Definition urlsplit (url : string) (default_scheme : string)
  : comp SplitResult :=
  let url := Str.lstrip c0_control_or_space url in
  let sch := Str.strip c0_control_or_space default_scheme in
  let url := remove_unsafe url in
  let sch := remove_unsafe sch in
  let (sch, url) :=
    match Str.split_first ":" url with
    | Some (String a pre, rest) =>
        if Str.is_ascii_alpha a && Str.forallb scheme_char (String a pre)
        then (Str.lower (String a pre), rest)
        else (sch, url)
    | _ => (sch, url)
    end in
  nu <- (if Str.startswith "//" url then
           let (nl, rest) := _splitnetloc url in
           let lb := Str.contains "[" nl in
           let rb := Str.contains "]" nl in
           if (lb && negb rb) || (rb && negb lb)
           then Raise (ValueError "Invalid IPv6 URL")
           else if lb && rb
                then (_ <- _check_bracketed_netloc nl ;; Return (nl, rest))
                else Return (nl, rest)
         else Return (EmptyString, url)) ;;
  let (nl, url) := (nu : string * string) in
  let (url, frag) :=
    match Str.split_first "#" url with
    | Some (u, f) => (u, f)
    | None => (url, EmptyString)
    end in
  let (url, qry) :=
    match Str.split_first "?" url with
    | Some (u, q) => (u, q)
    | None => (url, EmptyString)
    end in
  Return (mkSplit sch nl url qry frag).

(** [url.rfind('/')] followed by [url.find(';', that)]: the text before
    and after the first [;] that follows the last [/]. *)
Fixpoint split_params_after_slash (url : string) : option (string * string) :=
  match url with
  | EmptyString => None
  | String a r =>
      if Str.contains "/" r || Ascii.eqb a "/" then
        match split_params_after_slash r with
        | Some (h, t) => Some (String a h, t)
        | None => None
        end
      else Str.split_first ";" url
  end.

(** [_splitparams(url)]; the caller has checked [';' in url]. *)
Definition _splitparams (url : string) : string * string :=
  if Str.contains "/" url then
    match split_params_after_slash url with
    | Some (u, p) => (u, p)
    | None => (url, EmptyString)
    end
  else
    match Str.split_first ";" url with
    | Some (u, p) => (u, p)
    | None => (url, EmptyString)
    end.

(** [urlparse(url, scheme)]. *)
Definition urlparse (url : string) (default_scheme : string)
  : comp ParseResult :=
  sr <- urlsplit url default_scheme ;;
  let (url, prm) :=
    if Str.mem (s_scheme sr) uses_params && Str.contains ";" (s_path sr)
    then _splitparams (s_path sr)
    else (s_path sr, EmptyString) in
  Return (mkParse (s_scheme sr) (s_netloc sr) url prm
                  (s_query sr) (s_fragment sr)).

(** [urlunsplit((scheme, netloc, url, query, fragment))]. *)
Definition urlunsplit (sch nl url qry frag : string) : string :=
  let url :=
    if Str.truthy nl ||
       (Str.truthy sch && Str.mem sch uses_netloc &&
        negb (Str.startswith "//" url))
    then
      let url := if Str.truthy url && negb (Str.startswith "/" url)
                 then ("/" ++ url)%string else url in
      ("//" ++ nl ++ url)%string
    else url in
  let url := if Str.truthy sch then (sch ++ ":" ++ url)%string else url in
  let url := if Str.truthy qry then (url ++ "?" ++ qry)%string else url in
  let url := if Str.truthy frag then (url ++ "#" ++ frag)%string else url in
  url.

(** [urlunparse((scheme, netloc, url, params, query, fragment))]. *)
Definition urlunparse (sch nl url prm qry frag : string) : string :=
  let url := if Str.truthy prm then (url ++ ";" ++ prm)%string else url in
  urlunsplit sch nl url qry frag.

(** [urldefrag(url).url]. *)
Definition urldefrag_url (url : string) : comp string :=
  if Str.contains "#" url then
    p <- urlparse url EmptyString ;;
    Return (urlunparse (scheme p) (netloc p) (path p) (params p) (query p)
                       EmptyString)
  else Return url.

(** [del base_parts[-1]] when the last field is not empty. *)
Fixpoint drop_last_nonempty (l : list string) : list string :=
  match l with
  | [] => []
  | [x] => if Str.truthy x then [] else [x]
  | x :: r => x :: drop_last_nonempty r
  end.

(** [segments[1:-1] = filter(None, segments[1:-1])]. *)
Fixpoint filter_middle (l : list string) : list string :=
  match l with
  | [] => []
  | [x] => [x]
  | x :: r => if Str.truthy x then x :: filter_middle r else filter_middle r
  end.

Definition filter_inner (segments : list string) : list string :=
  match segments with
  | [] => []
  | x :: r => x :: filter_middle r
  end.

(** The loop of [urljoin] over the segments; [resolved_path] is kept in
    reverse, so that [pop] and [append] act on its head. *)
Fixpoint resolve_segments (segments : list string) (rev_resolved : list string)
  : list string :=
  match segments with
  | [] => List.rev rev_resolved
  | seg :: r =>
      if String.eqb seg ".." then resolve_segments r (List.tl rev_resolved)
      else if String.eqb seg "." then resolve_segments r rev_resolved
      else resolve_segments r (seg :: rev_resolved)
  end.

(** [urljoin(base, url)]. *)
Definition urljoin (base url : string) : comp string :=
  if negb (Str.truthy base) then Return url
  else if negb (Str.truthy url) then Return base
  else
    b <- urlparse base EmptyString ;;
    u <- urlparse url (scheme b) ;;
    if negb (String.eqb (scheme u) (scheme b)) ||
       negb (Str.mem (scheme u) uses_relative)
    then Return url
    else if Str.mem (scheme u) uses_netloc && Str.truthy (netloc u)
    then Return (urlunparse (scheme u) (netloc u) (path u) (params u)
                            (query u) (fragment u))
    else
      let nl := if Str.mem (scheme u) uses_netloc then netloc b
                else netloc u in
      if negb (Str.truthy (path u)) && negb (Str.truthy (params u))
      then
        let qry := if negb (Str.truthy (query u)) then query b
                   else query u in
        Return (urlunparse (scheme u) nl (path b) (params b) qry (fragment u))
      else
        let base_parts := drop_last_nonempty (Str.split "/" (path b)) in
        let segments :=
          if Str.startswith "/" (path u) then Str.split "/" (path u)
          else filter_inner (base_parts ++ Str.split "/" (path u)) in
        let resolved_path := resolve_segments segments [] in
        let resolved_path :=
          if Str.mem (List.last segments EmptyString) ["."; ".."]
          then resolved_path ++ [EmptyString] else resolved_path in
        let joined := Str.join "/" resolved_path in
        Return (urlunparse (scheme u) nl
                           (if Str.truthy joined then joined else "/")
                           (params u) (query u) (fragment u)).

End Parse.

End urllib.

(** ** Python dictionaries

    A [dict] keeps its keys in insertion order; assigning to a key that is
    present replaces the value in place, and assigning to an absent key
    appends the entry. *)

Module Dict.

Section Dict.

Variable V : Type.

Definition t : Type := list (string * V).

Definition empty : t := [].

(** [k in d]. *)
Fixpoint mem (k : string) (d : t) : bool :=
  match d with
  | [] => false
  | (k', _) :: r => if String.eqb k' k then true else mem k r
  end.

(** [d.get(k)]. *)
Fixpoint get (k : string) (d : t) : option V :=
  match d with
  | [] => None
  | (k', v) :: r => if String.eqb k' k then Some v else get k r
  end.

(** [d[k] = v]. *)
Fixpoint set (k : string) (v : V) (d : t) : t :=
  match d with
  | [] => [(k, v)]
  | (k', v') :: r =>
      if String.eqb k' k then (k', v) :: r else (k', v') :: set k v r
  end.

Definition keys (d : t) : list string := List.map fst d.

End Dict.

Arguments empty {V}.
Arguments mem {V} k d.
Arguments get {V} k d.
Arguments set {V} k v d.
Arguments keys {V} d.

End Dict.

(** ** Data of the crawler *)

(** [Task = namedtuple('Task', 'url collect_links')]. *)
Record Task : Type := mkTask {
  url : string;
  collect_links : bool
}.

(** [ResponseResult = namedtuple('ResponseResult',
    'url status error links redirect')].  An element of [links] is the
    value of an [href] attribute, [None] for an attribute without value. *)
Record ResponseResult : Type := mkResult {
  r_url : string;
  r_status : option Z;
  r_error : string;
  r_links : list (option string);
  r_redirect : string
}.

(** The value [{'status': ..., 'error': ...}] stored in [processed_urls]. *)
Record Data : Type := mkData {
  status : option Z;
  error : string
}.

(** [processed_urls]: url -> [None] or a [Data]. *)
Definition Frontier : Type := Dict.t (option Data).

Definition THREADS_NUM : nat := 50.

(** What [urllib.request.urlopen] does for one request: it returns a
    response object, or raises [HTTPError], [URLError] or something else
    (as does the constructor [request.Request] on a malformed url).
    [resp_status] is [response.status] ([None] for a response that is not
    HTTP), [resp_read] what [response.read()] does, [resp_charset] is
    [response.headers.get_content_charset()] and [resp_geturl] is
    [response.geturl()]. *)
Inductive urlopen_outcome : Type :=
| Response (resp_status : option Z) (resp_read : comp (list Byte.byte))
           (resp_charset : option string) (resp_geturl : string)
| HTTPError (reason : string)
| URLError (reason : string)
| OtherException (e : exn).

(** [a < b] and [a > b] where [a] may be [None]: Python 3 raises
    [TypeError] when an operand is [None]. *)
Definition py_lt (a : option Z) (b : Z) : comp bool :=
  match a with
  | Some x => Return (Z.ltb x b)
  | None => Raise (TypeError "'<' not supported between instances of 'NoneType' and 'int'")
  end.

Definition py_gt (a : option Z) (b : Z) : comp bool :=
  match a with
  | Some x => Return (Z.gtb x b)
  | None => Raise (TypeError "'>' not supported between instances of 'NoneType' and 'int'")
  end.

(** [str(x)] for an [int] or [None], as [str.format] renders it. *)
Definition str_of_status (a : option Z) : string :=
  match a with
  | Some x => DecimalString.NilZero.string_of_int (Z.to_int x)
  | None => "None"
  end.

(** ** The state of a run and the monad of the coordinator *)

(** [processed_urls], [has_tasks] and [num] are the variables of [main].
    [task_queue] holds the tasks that were put and for which no worker has
    called [task_done] yet, [result_queue] the results not yet taken by the
    coordinator, both in FIFO order.  [dead] holds the tasks whose worker
    thread was ended by an exception of [process_page]: [task_done] is
    never called for them.  [stop_signals] counts the [None] items put on
    the task queue and [stdout] is what was printed.  [created] (every
    [Task] ever put) and [clock] (scheduling points passed) are history
    variables. *)
Record State : Type := mkState {
  processed_urls : Frontier;
  has_tasks : bool;
  num : nat;
  task_queue : list Task;
  result_queue : list ResponseResult;
  dead : list Task;
  stop_signals : nat;
  stdout : list string;
  created : list Task;
  clock : nat
}.

Definition initial_state : State :=
  mkState Dict.empty false 0 [] [] [] 0 [] [] 0.

(** How a piece of the coordinator ends: normally, by an uncaught
    exception, blocked for ever in [task_queue.join()], or (a [while] loop
    of the model) out of fuel. *)
Inductive outcome (A : Type) : Type :=
| Done (a : A)
| Crashed (e : exn)
| Blocked
| OutOfFuel.
Arguments Done {A} a.
Arguments Crashed {A} e.
Arguments Blocked {A}.
Arguments OutOfFuel {A}.

Definition M (A : Type) : Type := State -> State * outcome A.

Definition ret {A : Type} (a : A) : M A := fun st => (st, Done a).

Definition bind {A B : Type} (m : M A) (k : A -> M B) : M B :=
  fun st =>
    match m st with
    | (st', Done a) => k a st'
    | (st', Crashed e) => (st', Crashed e)
    | (st', Blocked) => (st', Blocked)
    | (st', OutOfFuel) => (st', OutOfFuel)
    end.

Definition lift {A : Type} (r : comp A) : M A :=
  fun st =>
    match r with
    | Return a => (st, Done a)
    | Raise e => (st, Crashed e)
    end.

Definition gets {A : Type} (f : State -> A) : M A :=
  fun st => (st, Done (f st)).

Definition modify (f : State -> State) : M unit :=
  fun st => (f st, Done tt).

Notation "x <~ m ;; k" := (bind m (fun x => k))
  (at level 61, m at next level, right associativity).

(** [for x in l: body(x)]. *)
Fixpoint for_each {A : Type} (l : list A) (body : A -> M unit) : M unit :=
  match l with
  | [] => ret tt
  | x :: r => bind (body x) (fun _ => for_each r body)
  end.

Definition set_processed_urls (d : Frontier) (st : State) : State :=
  mkState d (has_tasks st) (num st) (task_queue st) (result_queue st)
          (dead st) (stop_signals st) (stdout st) (created st) (clock st).

Definition set_has_tasks (b : bool) (st : State) : State :=
  mkState (processed_urls st) b (num st) (task_queue st) (result_queue st)
          (dead st) (stop_signals st) (stdout st) (created st) (clock st).

Definition set_num (n : nat) (st : State) : State :=
  mkState (processed_urls st) (has_tasks st) n (task_queue st)
          (result_queue st) (dead st) (stop_signals st) (stdout st)
          (created st) (clock st).

Definition set_queues (tq : list Task) (rq : list ResponseResult)
  (dd : list Task) (st : State) : State :=
  mkState (processed_urls st) (has_tasks st) (num st) tq rq dd
          (stop_signals st) (stdout st) (created st) (clock st).

Definition set_clock (n : nat) (st : State) : State :=
  mkState (processed_urls st) (has_tasks st) (num st) (task_queue st)
          (result_queue st) (dead st) (stop_signals st) (stdout st)
          (created st) n.

(** [processed_urls[k] = v]. *)
Definition assign (k : string) (v : option Data) : M unit :=
  modify (fun st => set_processed_urls (Dict.set k v (processed_urls st)) st).

(** [task_queue.put(task)]. *)
Definition enqueue (task : Task) (st : State) : State :=
  mkState (processed_urls st) (has_tasks st) (num st)
          (task_queue st ++ [task]) (result_queue st) (dead st)
          (stop_signals st) (stdout st) (created st ++ [task]) (clock st).

Definition put_task (task : Task) : M unit := modify (enqueue task).

(** [task_queue.put(None)]. *)
Definition put_stop : M unit :=
  modify (fun st =>
    mkState (processed_urls st) (has_tasks st) (num st) (task_queue st)
            (result_queue st) (dead st) (S (stop_signals st)) (stdout st)
            (created st) (clock st)).

(** [print(line)]. *)
Definition print_state (line : string) (st : State) : State :=
  mkState (processed_urls st) (has_tasks st) (num st) (task_queue st)
          (result_queue st) (dead st) (stop_signals st)
          (stdout st ++ [line]) (created st) (clock st).

Definition print (line : string) : M unit := modify (print_state line).

(** ** Concrete environments

    Small web sites and collaborators on which the program is run below. *)

Module World.

(** Every bracketed host is accepted; no url below has one. *)
Definition any_host (_ : string) : bool := true.

Definition bytes_of (s : string) : list Byte.byte :=
  List.map byte_of_ascii (list_ascii_of_string s).

(** The [ascii] codec: [bytes.decode('ascii')] raises [UnicodeDecodeError]
    on a byte above 127. *)
Definition decode_ascii (page : list Byte.byte) (charset : string)
  : comp string :=
  if List.forallb (fun b => Byte.to_nat b <? 128) page
  then Return (string_of_list_ascii (List.map ascii_of_byte page))
  else Raise UnicodeDecodeError.

Definition anchor (href : string) : string * list (string * option string) :=
  ("a", [("href", Some href)]).

(** The start tags of the pages used below. *)
Definition starttags (page : string)
  : list (string * list (string * option string)) :=
  if String.eqb page "<a href=/b>" then [anchor "/b"]
  else if String.eqb page "<a href=c>" then [anchor "c"]
  else if String.eqb page "<a href=p.html>" then [anchor "p.html"]
  else if String.eqb page "<a href=ftp://h/f>" then [anchor "ftp://h/f"]
  else if String.eqb page "<a href=http://www.example.com/a>"
       then [anchor "http://www.example.com/a"]
  else [].

(** Workers finish their tasks in the order of the queue. *)
Definition fifo (_ : nat) : list nat := [].

Definition page (html : string) (geturl : string) : urlopen_outcome :=
  Response (Some 200%Z) (Return (bytes_of html)) (Some "ascii") geturl.

(** [http://a.com] links to [/b], [/b] links to [c], and [/c] redirects
    to [/b]. *)
Definition redirect_site (u : string) : urlopen_outcome :=
  if String.eqb u "http://a.com" then page "<a href=/b>" u
  else if String.eqb u "http://a.com/b" then page "<a href=c>" u
  else if String.eqb u "http://a.com/c" then page "<a href=c>" "http://a.com/b"
  else URLError "[Errno -2] Name or service not known".

(** [http://a.com/old/] redirects to [http://a.com/new/], whose page links
    to [p.html]. *)
Definition moved_site (u : string) : urlopen_outcome :=
  if String.eqb u "http://a.com/old/"
  then page "<a href=p.html>" "http://a.com/new/"
  else if String.eqb u "http://a.com/new/p.html" then page "" u
  else HTTPError "Not Found".

(** The only page declares [charset=ascii] and holds the byte 0xE9. *)
Definition undecodable_site (u : string) : urlopen_outcome :=
  Response (Some 200%Z) (Return [Byte.xe9]) (Some "ascii") u.

(** The seed page links to an [ftp:] url. *)
Definition ftp_site (u : string) : urlopen_outcome :=
  if String.eqb u "http://a.com" then page "<a href=ftp://h/f>" u
  else URLError "ftp error".

(** The seed page links to [/b], which declares [charset=ascii] and holds
    the byte 0xE9, as does every other page. *)
Definition broken_page_site (u : string) : urlopen_outcome :=
  if String.eqb u "http://a.com" then page "<a href=/b>" u
  else undecodable_site u.

(** Tasks for [n] pages of the host [a.com], numbered from 0. *)
Definition numbered_tasks (n : nat) : list Task :=
  List.map (fun i => mkTask ("http://a.com/" ++
                             DecimalString.NilEmpty.string_of_uint
                               (Nat.to_uint i))%string true)
           (seq 0 n).

(** The seed [www.example.com] links to a page of its own host. *)
Definition www_site (u : string) : urlopen_outcome :=
  if String.eqb u "http://www.example.com"
  then page "<a href=http://www.example.com/a>" u
  else page "" u.

End World.

Definition out_of_fuel {A : Type} : M A := fun st => (st, OutOfFuel).

Definition dquote : string := String "034"%char EmptyString.

(** ** The program *)

Section Crawler.

(** The collaborators of the program that are not part of it. *)

(** The syntax of bracketed hosts accepted by [urllib.parse]. *)
Variable bracketed_host_ok : string -> bool.

(** [request.urlopen(request.Request(url, headers=HEADER_USER_AGENT))]. *)
Variable urlopen : string -> urlopen_outcome.

(** [page.decode(charset)]. *)
Variable decode : list Byte.byte -> string -> comp string.

(** [HTMLParser.feed(page)]: the start tags it reports, in document order,
    each with its attributes.  The call is taken to return; where it raises
    (CPython does on a malformed marked section) the worker ends as it does
    on an error of [decode]. *)
Variable starttags : string -> list (string * list (string * option string)).

(** The scheduler of the worker threads: at the [n]-th scheduling point
    the workers finish the tasks at the positions [arrivals n] of the
    unfinished tasks, one after the other. *)
Variable arrivals : nat -> list nat.

(** *** [LinkParser] *)

Definition handle_starttag (tag : string) (attrs : list (string * option string))
  (links : list (option string)) : list (option string) :=
  if String.eqb tag "a" then
    fold_left (fun links (av : string * option string) =>
                 if String.eqb (fst av) "href" then links ++ [snd av]
                 else links)
              attrs links
  else links.

Definition get_links (page : string) : list (option string) :=
  fold_left (fun links (ta : string * list (string * option string)) =>
               handle_starttag (fst ta) (snd ta) links)
            (starttags page) [].

(** *** URL helpers *)

Definition restore_relative_url (relative_url root_url : string) : comp string :=
  urllib.urljoin bracketed_host_ok root_url relative_url.

(** [urldefrag(None).url] is the empty bytes object, which is false. *)
Definition clean_fragments (url : option string) : comp string :=
  match url with
  | Some url => urllib.urldefrag_url bracketed_host_ok url
  | None => Return EmptyString
  end.

Definition is_relative (relative_url : string) : comp bool :=
  p <- urllib.urlparse bracketed_host_ok relative_url EmptyString ;;
  Return (negb (Str.truthy (urllib.netloc p))).

Definition is_same_domain (url root_url : string) : comp bool :=
  url <- urllib.urlparse bracketed_host_ok url EmptyString ;;
  root_url <- urllib.urlparse bracketed_host_ok root_url EmptyString ;;
  Return (Str.truthy (urllib.netloc url) &&
          String.eqb (urllib.netloc url) (urllib.netloc root_url)).

(** *** [process_page] *)

Definition process_page (url : string) (collect_links : bool)
  : comp ResponseResult :=
  match urlopen url with
  | Response resp_status resp_read resp_charset resp_geturl =>
      ok <- py_lt resp_status 400 ;;
      links <- (if ok && collect_links then
                  page <- resp_read ;;
                  let charset :=
                    match resp_charset with
                    | Some c => if Str.truthy c then c else "utf-8"
                    | None => "utf-8"
                    end in
                  page <- decode page charset ;;
                  Return (get_links page)
                else Return []) ;;
      Return (mkResult url resp_status EmptyString links resp_geturl)
  | HTTPError reason =>
      Return (mkResult url None ("Server error: " ++ reason)%string []
                       EmptyString)
  | URLError reason =>
      Return (mkResult url None ("Network error: " ++ reason)%string []
                       EmptyString)
  | OtherException e => Raise e
  end.

Definition get_base_url (base_url_string : string) : comp string :=
  let base_url_string :=
    if negb (Str.startswith "http://" base_url_string ||
             Str.startswith "https://" base_url_string)
    then ("http://" ++ base_url_string)%string
    else base_url_string in
  sr <- urllib.urlsplit bracketed_host_ok base_url_string EmptyString ;;
  Return (urllib.urlunsplit (urllib.s_scheme sr) (urllib.s_netloc sr)
                            (urllib.s_path sr) EmptyString EmptyString).

(** [l[-2:]]. *)
Definition last_two {A : Type} (l : list A) : list A :=
  skipn (length l - 2) l.

Definition get_root_url (base_url_string : string) : comp string :=
  base_url <- urllib.urlparse bracketed_host_ok base_url_string EmptyString ;;
  let domain := Str.join "." (last_two (Str.split "." (urllib.netloc base_url))) in
  let root_url :=
    urllib.urlunsplit (urllib.scheme base_url) domain EmptyString
                      EmptyString EmptyString in
  Return root_url.

(** *** [ThreadUrl.run] *)

Definition remove_nth {A : Type} (i : nat) (l : list A) : list A :=
  firstn i l ++ skipn (S i) l.

(** [main] starts [THREADS_NUM] threads and never another: a thread that
    an exception has ended is not replaced, so the threads that can still
    take a task are those that have not died. *)
Definition live_workers (st : State) : nat :=
  THREADS_NUM - length (dead st).

(** A worker takes the task at position [i] of the unfinished tasks and
    runs one turn of its loop on it: either it puts the result and calls
    [task_done], or [process_page] raises, which ends the thread before
    [results.put] and [task_done].  When every thread has died the task
    stays where it is. *)
Definition run_task (i : nat) (st : State) : State :=
  match live_workers st with
  | O => st
  | S _ =>
      match nth_error (task_queue st) i with
      | None => st
      | Some task =>
          match process_page (url task) (collect_links task) with
          | Return r =>
              set_queues (remove_nth i (task_queue st))
                         (result_queue st ++ [r]) (dead st) st
          | Raise _ =>
              set_queues (remove_nth i (task_queue st)) (result_queue st)
                         (dead st ++ [task]) st
          end
      end
  end.

Definition workers (l : list nat) (st : State) : State :=
  fold_left (fun st i => run_task i st) l st.

(** A scheduling point: the workers make the progress the scheduler
    grants them. *)
Definition schedule : M unit :=
  modify (fun st => set_clock (S (clock st)) (workers (arrivals (clock st)) st)).

(** [task_queue.join()]: the workers run until no task is left to take or
    no worker is left to take one; the call returns iff [task_done] was
    called for every task. *)
Definition join : M unit :=
  fun st =>
    let st := fst (schedule st) in
    let st := workers (repeat 0 (length (task_queue st))) st in
    match dead st with
    | [] => (st, Done tt)
    | _ :: _ => (st, Blocked)
    end.

(** [result_queue.empty()] followed, when it is false, by
    [result_queue.get()]. *)
Definition get_result : M (option ResponseResult) :=
  fun st =>
    match result_queue st with
    | [] => (st, Done None)
    | r :: q => (set_queues (task_queue st) q (dead st) st, Done (Some r))
    end.

(** *** [main] *)

(** [not link or link.startswith(('javascript:', 'mailto:', 'whatsapp:'))]. *)
Definition skipped (link : string) : bool :=
  negb (Str.truthy link) ||
  (Str.startswith "javascript:" link || Str.startswith "mailto:" link ||
   Str.startswith "whatsapp:" link).

(** Lines 220-227 of the body of [for link in result.links]: the link after
    cleaning and resolution, [None] when the body ends by [continue]. *)
Definition resolve_link (result : ResponseResult) (link : option string)
  : comp (option string) :=
  link <- clean_fragments link ;;
  if skipped link then Return None
  else
    rel <- is_relative link ;;
    if (rel : bool) then
      if Str.truthy (r_redirect result) then
        link <- restore_relative_url link (r_url result) ;;
        Return (Some link)
      else
        link <- restore_relative_url link (r_redirect result) ;;
        Return (Some link)
    else Return (Some link).

(** The body of [for link in result.links]. *)
Definition process_link (root_url : string) (result : ResponseResult)
  (link : option string) : M unit :=
  target <~ lift (resolve_link result link) ;;
  match target with
  | None => ret tt
  | Some link =>
      d <~ gets processed_urls ;;
      if negb (Dict.mem link d) then
        _ <~ assign link None ;;
        _ <~ modify (set_has_tasks true) ;;
        _ <~ modify (fun st => set_num (S (num st)) st) ;;
        c <~ lift (is_same_domain link root_url) ;;
        put_task (mkTask link c)
      else ret tt
  end.

(** The body of [while not result_queue.empty()] after [get]. *)
Definition process_result (root_url : string) (result : ResponseResult)
  : M unit :=
  let data := Some (mkData (r_status result) (r_error result)) in
  _ <~ assign (r_url result) data ;;
  _ <~ (if Str.truthy (r_redirect result)
        then assign (r_redirect result) None else ret tt) ;;
  _ <~ assign (r_url result) data ;;
  for_each (r_links result) (process_link root_url result).

(** [while not result_queue.empty(): ...]. *)
Fixpoint drain (fuel : nat) (root_url : string) : M unit :=
  match fuel with
  | O => out_of_fuel
  | S fuel' =>
      _ <~ schedule ;;
      next <~ get_result ;;
      match next with
      | None => ret tt
      | Some result =>
          _ <~ process_result root_url result ;;
          drain fuel' root_url
      end
  end.

(** [while has_tasks: ...]. *)
Fixpoint main_loop (fuel : nat) (root_url : string) : M unit :=
  match fuel with
  | O => out_of_fuel
  | S fuel' =>
      b <~ gets has_tasks ;;
      if (b : bool) then
        _ <~ modify (set_has_tasks false) ;;
        _ <~ modify (set_num 0) ;;
        _ <~ drain fuel' root_url ;;
        _ <~ join ;;
        main_loop fuel' root_url
      else ret tt
  end.

(** The test of [print_results] on one entry that is not [None]. *)
Definition is_bad (data : Data) : comp bool :=
  if Str.truthy (error data) then Return true
  else py_gt (status data) 400.

Definition report_line (url : string) (data : Data) : string :=
  (dquote ++ url ++ dquote ++ " status:" ++ str_of_status (status data) ++
   " error:" ++ error data)%string.

Definition print_results (processed_urls : Frontier) : M unit :=
  _ <~ print "Bad or broken links:" ;;
  for_each processed_urls (fun entry =>
    match snd entry with
    | None => ret tt
    | Some data =>
        bad <~ lift (is_bad data) ;;
        if (bad : bool) then print (report_line (fst entry) data) else ret tt
    end).

(** The part of [main] that follows the computation of [base_url] and
    [root_url]. *)
Definition crawl (fuel : nat) (base_url root_url : string) : M Z :=
  _ <~ put_task (mkTask base_url true) ;;
  _ <~ join ;;
  _ <~ modify (set_has_tasks true) ;;
  _ <~ main_loop fuel root_url ;;
  _ <~ for_each (seq 0 THREADS_NUM) (fun _ => put_stop) ;;
  d <~ gets processed_urls ;;
  _ <~ print_results d ;;
  ret 0%Z.

Definition main (fuel : nat) (base_url_string : string) : M Z :=
  base_url <~ lift (get_base_url base_url_string) ;;
  if negb (Str.truthy base_url) then
    _ <~ print ("Incorrect url - " ++ base_url_string)%string ;;
    ret 1%Z
  else
    root_url <~ lift (get_root_url base_url) ;;
    crawl fuel base_url root_url.

(** *** Notions used by the properties *)




(** The number of tasks put for the url [u] so far. *)
Definition tasks_for (u : string) (st : State) : nat :=
  length (List.filter (fun t => String.eqb (url t) u) (created st)).

Section Run.

(** The seed of the run, as [main] computes it, and its root url. *)
Variables base_url root_url : string.

(** The tasks reachable from the seed through discovered links: the seed
    task, and the task of every link found on the page of a reachable
    task. *)
Inductive reachable : Task -> Prop :=
| reachable_seed : reachable (mkTask base_url true)
| reachable_link : forall t r link u c,
    reachable t ->
    process_page (url t) (collect_links t) = Return r ->
    In link (r_links r) ->
    resolve_link r link = Return (Some u) ->
    is_same_domain u root_url = Return c ->
    reachable (mkTask u c).

(** [r] is the result of a task that was put. *)
Definition from_created (st : State) (r : ResponseResult) : Prop :=
  exists t, In t (created st) /\
            process_page (url t) (collect_links t) = Return r.

(** Every task that was put has its url among the keys of
    [processed_urls]. *)
Definition covered (st : State) : Prop :=
  forall t, In t (created st) ->
            In (url t) (Dict.keys (processed_urls st)).

(** The invariant of a run from the seed [base_url]. *)
Record inv (st : State) : Prop := mkInv {
  inv_nodup : NoDup (List.map url (created st));
  inv_reach : forall t, In t (created st) -> reachable t;
  inv_tasks : incl (task_queue st) (created st);
  inv_results : forall r, In r (result_queue st) -> from_created st r;
  inv_seeded : covered st \/
               (processed_urls st = [] /\ length (created st) <= 1);
  inv_data : forall k data, In (k, Some data) (processed_urls st) ->
             exists t r, reachable t /\
                         process_page (url t) (collect_links t) = Return r /\
                         data = mkData (r_status r) (r_error r)
}.

(** The invariant while the links of [result] are processed. *)
Definition linking (result : ResponseResult) (st : State) : Prop :=
  inv st /\ covered st /\ from_created st result.




(** Partial correctness of a piece of the coordinator: from a state in [P]
    it ends normally in a state in [Q], or otherwise in a state in [I]. *)
Definition hoare {A : Type} (P : State -> Prop) (m : M A)
  (Q : A -> State -> Prop) (I : State -> Prop) : Prop :=
  forall st, P st ->
    match m st with
    | (st', Done a) => Q a st'
    | (st', _) => I st'
    end.


(** What a stored outcome looks like: a status below 400 and no error, or
    no status and an error. *)
Definition fetched_ok (s : option Z) (e : string) : Prop :=
  exists n, s = Some n /\ (n < 400)%Z /\ e = EmptyString.

Definition fetched_failed (s : option Z) (e : string) : Prop :=
  s = None /\ e <> EmptyString.

(** The state in which [process_link] leaves the coordinator once it has
    found the link [u] new and before it classifies it. *)
Definition mark_new (u : string) (st : State) : State :=
  set_num (S (num st))
    (set_has_tasks true
       (set_processed_urls (Dict.set u None (processed_urls st)) st)).

(** The default opener of [urllib.request] returns a response only for a
    status from 200 to 299; for any other status its [HTTPErrorProcessor]
    raises [HTTPError] (or follows the redirect). *)
Definition urlopen_2xx : Prop :=
  forall u s rd cs g,
    urlopen u = Response (Some s) rd cs g -> (200 <= s < 300)%Z.

(** The entries that [print_results] reports, and the lines it prints
    for a dictionary. *)
Definition reported (data : Data) : bool :=
  Str.truthy (error data) ||
  match status data with
  | Some s => (s >? 400)%Z
  | None => false
  end.

Definition report (d : Frontier) : list string :=
  List.flat_map
    (fun entry =>
       match snd entry with
       | Some data =>
           if reported data then [report_line (fst entry) data] else []
       | None => []
       end) d.

Definition print_all (lines : list string) (st : State) : State :=
  fold_left (fun st line => print_state line st) lines st.

(** The entries that the specification has the reporter print: those with
    an error, a status of 400 or more, or no status; and the lines it
    prints for a dictionary. *)
Definition spec_reported (data : Data) : bool :=
  Str.truthy (error data) ||
  match status data with
  | Some s => (400 <=? s)%Z
  | None => true
  end.

Definition spec_report (d : Frontier) : list string :=
  List.flat_map
    (fun entry =>
       match snd entry with
       | Some data =>
           if spec_reported data then [report_line (fst entry) data] else []
       | None => []
       end) d.

(** The skip predicate in the words of the specification: the link is
    empty, or starts with a scheme that is not [http] or [https]. *)
Definition spec_skipped (link : string) : bool :=
  negb (Str.truthy link) ||
  match Str.split_first ":" link with
  | Some (String a pre, _) =>
      Str.is_ascii_alpha a && Str.forallb urllib.scheme_char (String a pre) &&
      negb (Str.mem (Str.lower (String a pre)) ["http"; "https"])
  | _ => false
  end.

(** The host of a url, as [urlparse(url).netloc]. *)
Definition host_of (u : string) : comp string :=
  p <- urllib.urlparse bracketed_host_ok u EmptyString ;;
  Return (urllib.netloc p).

(** *** Notions used by further properties *)

(** The values of the [href] attributes of one start tag, when it is an
    [a] tag. *)
Definition hrefs_of_tag (ta : string * list (string * option string))
  : list (option string) :=
  if String.eqb (fst ta) "a"
  then List.map snd (List.filter (fun av => String.eqb (fst av) "href") (snd ta))
  else [].

(** A property of the dictionary that every assignment keeps. *)
Definition kept_by_assignment (Phi : Frontier -> Prop) : Prop :=
  forall k v d, Phi d -> Phi (Dict.set k v d).

Definition dict_holds (Phi : Frontier -> Prop) (st : State) : Prop :=
  Phi (processed_urls st).

(** The state of the queues at the head of the loop of [main]: no task is
    unfinished, no worker has died, no stop signal was sent, and no result
    waits unless [has_tasks] is set. *)
Definition settled (st : State) : Prop :=
  task_queue st = [] /\ dead st = [] /\ stop_signals st = 0 /\
  (has_tasks st = false -> result_queue st = []).

(** The state of the queues inside the loops: as long as [has_tasks] is not
    set, no task is unfinished and no worker has died. *)
Definition idle_unless_new (st : State) : Prop :=
  stop_signals st = 0 /\
  (has_tasks st = false -> task_queue st = [] /\ dead st = []).

(** Work is left, or every task has its url in the dictionary. *)
Definition busy_or_covered (st : State) : Prop :=
  covered st \/ task_queue st <> [] \/ result_queue st <> [] \/ dead st <> [].

(** Every outcome in the dictionary is the outcome of a fetch of its own
    key. *)
Definition own_outcomes (d : Frontier) : Prop :=
  forall k data, In (k, Some data) d ->
    exists c r, process_page k c = Return r /\
                data = mkData (r_status r) (r_error r).

Definition tracked (st : State) : Prop :=
  inv st /\ busy_or_covered st /\ own_outcomes (processed_urls st).

Definition tracked_for (result : ResponseResult) (st : State) : Prop :=
  linking result st /\ own_outcomes (processed_urls st).

(** [r] is the result of the fetch of one of [tasks]; the fetch of [t],
    one of [tasks], raised. *)
Definition fetched_from (tasks : list Task) (r : ResponseResult) : Prop :=
  exists t, In t tasks /\ process_page (url t) (collect_links t) = Return r.

Definition died_on (tasks : list Task) (t : Task) : Prop :=
  In t tasks /\
  exists e, process_page (url t) (collect_links t) = Raise e.

(** Nothing is left to do and [k] stop signals were sent. *)
Definition at_rest (k : nat) (st : State) : Prop :=
  task_queue st = [] /\ result_queue st = [] /\ dead st = [] /\
  stop_signals st = k.

(** A task that was put and whose fetch raises is never marked done: it
    waits in the queue or has ended its worker. *)
Definition raising_unfinished (st : State) : Prop :=
  forall t e, In t (created st) ->
    process_page (url t) (collect_links t) = Raise e ->
    In t (task_queue st) \/ In t (dead st).

(** Every outcome in the dictionary is that of a task that was put for its
    key. *)
Definition outcomes_of_tasks (st : State) : Prop :=
  forall k data, In (k, Some data) (processed_urls st) ->
    exists t r, In t (created st) /\ url t = k /\
                process_page (url t) (collect_links t) = Return r /\
                data = mkData (r_status r) (r_error r).

Definition audited (st : State) : Prop :=
  raising_unfinished st /\ outcomes_of_tasks st.

Definition audited_for (result : ResponseResult) (st : State) : Prop :=
  from_created st result /\ audited st.

Definition sound (st : State) : Prop := inv st /\ audited st.

(** Nothing was printed yet. *)
Definition silent (st : State) : Prop := stdout st = [].

Definition quiet (st : State) : Prop := inv st /\ silent st.

(** ** Facts about dictionaries *)

Lemma dict_mem_keys {V : Type} (k : string) (d : Dict.t V) :
  Dict.mem k d = true <-> In k (Dict.keys d).
Proof.
  induction d as [|[k' v] d IH]; simpl.
  - split; [discriminate | tauto].
  - destruct (String.eqb_spec k' k) as [->|Hne].
    + split; auto.
    + rewrite IH. split; [auto | intros [H|H]; [contradiction | exact H]].
Qed.

Lemma dict_mem_false {V : Type} (k : string) (d : Dict.t V) :
  Dict.mem k d = false <-> ~ In k (Dict.keys d).
Proof.
  rewrite <- dict_mem_keys. destruct (Dict.mem k d); split; intros H;
    try reflexivity; try discriminate; try (intros H'; discriminate).
  exfalso; apply H; reflexivity.
Qed.

Lemma dict_keys_set {V : Type} (k : string) (v : V) (d : Dict.t V) (k' : string) :
  In k' (Dict.keys (Dict.set k v d)) <-> k' = k \/ In k' (Dict.keys d).
Proof.
  induction d as [|[k0 v0] d IH]; simpl.
  - split; intros [H|H]; auto; contradiction.
  - destruct (String.eqb_spec k0 k) as [->|Hne]; simpl.
    + split; [intros [H|H]; auto | intros [H|[H|H]]; auto].
    + rewrite IH. split; [intros [H|[H|H]]; auto | intros [H|[H|H]]; auto].
Qed.

Lemma dict_in_set {V : Type} (k : string) (v : V) (d : Dict.t V)
  (k' : string) (w : V) :
  In (k', w) (Dict.set k v d) -> (k' = k /\ w = v) \/ In (k', w) d.
Proof.
  induction d as [|[k0 v0] d IH]; simpl.
  - intros [H|[]]. inversion H; auto.
  - destruct (String.eqb_spec k0 k) as [->|Hne]; simpl.
    + intros [H|H]; [inversion H; auto | auto].
    + intros [H|H]; [auto | destruct (IH H); auto].
Qed.

Lemma dict_get_set_same {V : Type} (k : string) (v : V) (d : Dict.t V) :
  Dict.get k (Dict.set k v d) = Some v.
Proof.
  induction d as [|[k0 v0] d IH]; simpl.
  - rewrite String.eqb_refl; reflexivity.
  - destruct (String.eqb_spec k0 k) as [->|Hne]; simpl.
    + rewrite String.eqb_refl; reflexivity.
    + destruct (String.eqb_spec k0 k); [contradiction | exact IH].
Qed.

Lemma dict_get_set_other {V : Type} (k k' : string) (v : V) (d : Dict.t V) :
  k' <> k -> Dict.get k' (Dict.set k v d) = Dict.get k' d.
Proof.
  intros Hne. induction d as [|[k0 v0] d IH]; simpl.
  - destruct (String.eqb_spec k k'); [congruence | reflexivity].
  - destruct (String.eqb_spec k0 k) as [->|Hk]; simpl.
    + destruct (String.eqb_spec k k'); [congruence | reflexivity].
    + destruct (String.eqb_spec k0 k'); [reflexivity | exact IH].
Qed.

(** ** Facts about the measure *)





(** ** Rules of the two triples *)

Lemma hoare_ret {A : Type} (a : A) (P : State -> Prop)
  (Q : A -> State -> Prop) (I : State -> Prop) :
  (forall st, P st -> Q a st) -> hoare P (ret a) Q I.
Proof. intros H st HP. simpl. auto. Qed.

Lemma hoare_bind {A B : Type} (m : M A) (k : A -> M B)
  (P : State -> Prop) (Q : A -> State -> Prop) (R : B -> State -> Prop)
  (I : State -> Prop) :
  hoare P m Q I -> (forall a, hoare (Q a) (k a) R I) ->
  hoare P (bind m k) R I.
Proof.
  intros Hm Hk st HP. unfold bind. specialize (Hm st HP).
  destruct (m st) as [st' [a| | |]]; auto.
  apply (Hk a st' Hm).
Qed.

Lemma hoare_conseq {A : Type} (m : M A) (P P' : State -> Prop)
  (Q Q' : A -> State -> Prop) (I I' : State -> Prop) :
  hoare P' m Q' I' ->
  (forall st, P st -> P' st) ->
  (forall a st, Q' a st -> Q a st) ->
  (forall st, I' st -> I st) ->
  hoare P m Q I.
Proof.
  intros Hm HP HQ HI st Hst. specialize (Hm st (HP st Hst)).
  destruct (m st) as [st' [a| | |]]; auto.
Qed.

Lemma hoare_lift {A : Type} (c : comp A) (P : State -> Prop) :
  hoare P (lift c) (fun a st => P st /\ c = Return a) P.
Proof. intros st HP. unfold lift. destruct c; simpl; auto. Qed.

Lemma hoare_gets {A : Type} (f : State -> A) (P : State -> Prop)
  (I : State -> Prop) :
  hoare P (gets f) (fun a st => P st /\ a = f st) I.
Proof. intros st HP. simpl. auto. Qed.

Lemma hoare_modify (f : State -> State) (P : State -> Prop)
  (Q : unit -> State -> Prop) (I : State -> Prop) :
  (forall st, P st -> Q tt (f st)) -> hoare P (modify f) Q I.
Proof. intros H st HP. simpl. auto. Qed.

Lemma hoare_for_each {A : Type} (l : list A) (body : A -> M unit)
  (P : State -> Prop) (I : State -> Prop) :
  (forall x, In x l -> hoare P (body x) (fun _ => P) I) ->
  hoare P (for_each l body) (fun _ => P) I.
Proof.
  induction l as [|x l IH]; intros H; simpl.
  - apply hoare_ret; auto.
  - apply hoare_bind with (Q := fun _ => P).
    + apply H; left; reflexivity.
    + intros _. apply IH. intros y Hy. apply H; right; exact Hy.
Qed.

Lemma hoare_both {A : Type} (m : M A) (P P' : State -> Prop)
  (Q Q' : A -> State -> Prop) (I I' : State -> Prop) :
  hoare P m Q I -> hoare P' m Q' I' ->
  hoare (fun st => P st /\ P' st) m (fun a st => Q a st /\ Q' a st)
        (fun st => I st /\ I' st).
Proof.
  intros H H' st [HP HP']. specialize (H st HP). specialize (H' st HP').
  destruct (m st) as [st' [a| | |]]; auto.
Qed.







(** ** The page fetcher *)

Lemma process_page_url (u : string) (c : bool) (r : ResponseResult) :
  process_page u c = Return r -> r_url r = u.
Proof.
  unfold process_page. destruct (urlopen u) as [s rd cs g|reason|reason|e].
  - destruct (py_lt s 400) as [ok|e]; simpl; [|discriminate].
    destruct (ok && c); simpl.
    + destruct rd as [pg|e]; simpl; [|discriminate].
      destruct (decode pg _) as [pg'|e]; simpl; [|discriminate].
      intros H; inversion H; reflexivity.
    + intros H; inversion H; reflexivity.
  - intros H; inversion H; reflexivity.
  - intros H; inversion H; reflexivity.
  - discriminate.
Qed.

(** A result has a status exactly when it has no error message. *)
Lemma process_page_status (u : string) (c : bool) (r : ResponseResult) :
  process_page u c = Return r ->
  (exists n, r_status r = Some n /\ r_error r = EmptyString /\
             exists rd cs g, urlopen u = Response (Some n) rd cs g) \/
  (r_status r = None /\ r_error r <> EmptyString).
Proof.
  unfold process_page. destruct (urlopen u) as [s rd cs g|reason|reason|e] eqn:E.
  - destruct s as [n|]; simpl; [|discriminate].
    destruct ((n <? 400)%Z && c); simpl.
    + destruct rd as [pg|e]; simpl; [|discriminate].
      destruct (decode pg _) as [pg'|e]; simpl; [|discriminate].
      intros H; inversion H; subst; simpl. left. exists n. eauto 6.
    + intros H; inversion H; subst; simpl. left. exists n. eauto 6.
  - intros H; inversion H; subst; simpl. right. split; [reflexivity | discriminate].
  - intros H; inversion H; subst; simpl. right. split; [reflexivity | discriminate].
  - discriminate.
Qed.

(** ** [main], case by case *)

Lemma main_eq (fuel : nat) (base_url_string : string) (st : State) :
  main fuel base_url_string st =
  match get_base_url base_url_string with
  | Raise e => (st, Crashed e)
  | Return base =>
      if Str.truthy base then
        match get_root_url base with
        | Raise e => (st, Crashed e)
        | Return root => crawl fuel base root st
        end
      else (fst (print ("Incorrect url - " ++ base_url_string)%string st),
            Done 1%Z)
  end.
Proof.
  unfold main, bind, lift.
  destruct (get_base_url base_url_string) as [base|e]; [|reflexivity].
  destruct (Str.truthy base); simpl; [|reflexivity].
  destruct (get_root_url base) as [root|e]; [|reflexivity].
  destruct (crawl fuel base root st) as [st' [a| | |]]; reflexivity.
Qed.

(** ** The body of the link loop, case by case *)

Lemma process_link_eq (root : string) (result : ResponseResult)
  (link : option string) (st : State) :
  process_link root result link st =
  match resolve_link result link with
  | Raise e => (st, Crashed e)
  | Return None => (st, Done tt)
  | Return (Some u) =>
      if Dict.mem u (processed_urls st) then (st, Done tt)
      else match is_same_domain u root with
           | Raise e => (mark_new u st, Crashed e)
           | Return c => (enqueue (mkTask u c) (mark_new u st), Done tt)
           end
  end.
Proof.
  unfold process_link, bind, lift.
  destruct (resolve_link result link) as [[u|]|e]; try reflexivity.
  simpl. destruct (Dict.mem u (processed_urls st)); simpl; [reflexivity|].
  destruct (is_same_domain u root); reflexivity.
Qed.

(** ** The invariant is kept by every step *)

Lemma NoDup_snoc {A : Type} (l : list A) (a : A) :
  NoDup l -> ~ In a l -> NoDup (l ++ [a]).
Proof.
  induction l as [|x l IH]; simpl; intros Hnd Hn.
  - constructor; [intros [] | constructor].
  - inversion Hnd as [|? ? Hx Hl]; subst. constructor.
    + rewrite in_app_iff. simpl. intros [H|[H|[]]]; [auto | subst; auto].
    + apply IH; auto.
Qed.

Lemma inv_initial : inv initial_state.
Proof.
  constructor; simpl.
  - constructor.
  - intros t [].
  - intros t [].
  - intros r [].
  - right. split; [reflexivity | lia].
  - intros k data [].
Qed.

(** A change of the variables that the invariant does not mention. *)
Lemma inv_frame (st st' : State) :
  created st' = created st -> task_queue st' = task_queue st ->
  result_queue st' = result_queue st ->
  processed_urls st' = processed_urls st ->
  inv st -> inv st'.
Proof.
  intros Ec Et Er Ed [H1 H2 H3 H4 H5 H6].
  constructor; unfold covered, from_created in *;
    rewrite ?Ec, ?Et, ?Er, ?Ed; auto.
Qed.

Lemma covered_frame (st st' : State) :
  created st' = created st -> processed_urls st' = processed_urls st ->
  covered st -> covered st'.
Proof. intros Ec Ed H. unfold covered in *. rewrite Ec, Ed. exact H. Qed.

(** The seed is put on the task queue of the initial state. *)
Lemma inv_seed (st : State) :
  inv st -> created st = [] -> processed_urls st = [] ->
  inv (enqueue (mkTask base_url true) st).
Proof.
  intros [H1 H2 H3 H4 H5 H6] Ec Ed.
  constructor; unfold from_created in *; simpl; rewrite ?Ec, ?Ed; simpl.
  - constructor; [intros [] | constructor].
  - intros t [<-|[]]. constructor.
  - intros t Ht. apply in_app_iff in Ht. destruct Ht as [Ht|[<-|[]]].
    + apply H3 in Ht. rewrite Ec in Ht. destruct Ht.
    + left; reflexivity.
  - intros r Hr. destruct (H4 r Hr) as (t & Ht & _).
    rewrite Ec in Ht. destruct Ht.
  - right. split; [reflexivity | lia].
  - intros k data [].
Qed.

(** A worker finishes a task. *)
Lemma in_remove_nth {A : Type} (i : nat) (l : list A) (x : A) :
  In x (remove_nth i l) -> In x l.
Proof.
  unfold remove_nth. revert i. induction l as [|a l IH]; intros i.
  - destruct i; simpl; intros [].
  - destruct i; simpl.
    + auto.
    + intros [H|H]; [auto | right; apply (IH i H)].
Qed.

Lemma length_remove_nth {A : Type} (i : nat) (l : list A) (x : A) :
  nth_error l i = Some x -> S (length (remove_nth i l)) = length l.
Proof.
  unfold remove_nth. revert i. induction l as [|a l IH]; intros i.
  - destruct i; discriminate.
  - destruct i; simpl.
    + reflexivity.
    + intros H. f_equal. apply (IH i H).
Qed.

Lemma inv_run_task (i : nat) (st : State) : inv st -> inv (run_task i st).
Proof.
  intros Hinv. unfold run_task.
  destruct (live_workers st); [exact Hinv|].
  destruct (nth_error (task_queue st) i) as [task|] eqn:En; [|exact Hinv].
  assert (Hc : In task (created st))
    by (apply (inv_tasks _ Hinv); eapply nth_error_In; eauto).
  destruct Hinv as [H1 H2 H3 H4 H5 H6].
  destruct (process_page (url task) (collect_links task)) as [r|e] eqn:Ep;
    constructor; unfold from_created, covered in *; simpl; auto.
  - intros t Ht. apply H3. eapply in_remove_nth; eauto.
  - intros r' Hr'. apply in_app_iff in Hr'. destruct Hr' as [Hr'|[<-|[]]].
    + auto.
    + exists task. auto.
  - intros t Ht. apply H3. eapply in_remove_nth; eauto.
Qed.

Lemma inv_workers (l : list nat) (st : State) : inv st -> inv (workers l st).
Proof.
  unfold workers. revert st. induction l as [|i l IH]; simpl; intros st H.
  - exact H.
  - apply IH. apply inv_run_task. exact H.
Qed.

Lemma inv_schedule (st : State) : inv st -> inv (fst (schedule st)).
Proof.
  intros H. unfold schedule, modify. simpl.
  eapply inv_frame; [| | | |apply inv_workers; exact H]; reflexivity.
Qed.

Lemma join_state (st : State) :
  fst (join st) =
  workers (repeat 0 (length (task_queue (fst (schedule st)))))
          (fst (schedule st)).
Proof. unfold join. destruct (dead _); reflexivity. Qed.

Lemma inv_join (st : State) : inv st -> inv (fst (join st)).
Proof.
  intros H. rewrite join_state. apply inv_workers. apply inv_schedule. exact H.
Qed.

Lemma hoare_schedule : hoare inv schedule (fun _ => inv) inv.
Proof. intros st H. apply (inv_schedule st H). Qed.

Lemma hoare_join : hoare inv join (fun _ => inv) inv.
Proof.
  intros st H. pose proof (inv_join st H) as H'.
  destruct (join st) as [st' [[]| | |]]; exact H'.
Qed.

(** The coordinator takes a result. *)
Lemma hoare_get_result :
  hoare inv get_result
        (fun next st => inv st /\
                        match next with
                        | Some r => from_created st r
                        | None => True
                        end)
        inv.
Proof.
  intros st H. unfold get_result.
  destruct (result_queue st) as [|r q] eqn:Eq; simpl; [auto|].
  destruct H as [H1 H2 H3 H4 H5 H6]. split.
  - constructor; unfold from_created, covered in *; simpl; auto.
    intros r' Hr'. apply H4. rewrite Eq. right; exact Hr'.
  - unfold from_created; simpl. apply H4. rewrite Eq. left; reflexivity.
Qed.

(** The coordinator assigns to [processed_urls]. *)
Lemma covered_set (k : string) (v : option Data) (st : State) :
  covered st ->
  covered (set_processed_urls (Dict.set k v (processed_urls st)) st).
Proof.
  intros H t Ht. simpl in *. apply dict_keys_set. right. apply H. exact Ht.
Qed.

Lemma inv_set (k : string) (v : option Data) (st : State) :
  inv st -> covered st ->
  (forall data, v = Some data ->
     exists t r, reachable t /\
                 process_page (url t) (collect_links t) = Return r /\
                 data = mkData (r_status r) (r_error r)) ->
  inv (set_processed_urls (Dict.set k v (processed_urls st)) st).
Proof.
  intros [H1 H2 H3 H4 H5 H6] Hc Hv.
  constructor; unfold from_created in *; simpl; auto.
  - left. apply covered_set. exact Hc.
  - intros k' data Hin. apply dict_in_set in Hin.
    destruct Hin as [[_ E]|Hin]; [apply Hv; auto | eauto].
Qed.

(** The first assignment of [process_result] makes the state covered:
    before it, either the state is covered or the only task put is the
    seed, whose result this is. *)
Lemma inv_first_assign (result : ResponseResult) (st : State) :
  inv st -> from_created st result ->
  let st' := set_processed_urls
               (Dict.set (r_url result)
                         (Some (mkData (r_status result) (r_error result)))
                         (processed_urls st)) st in
  inv st' /\ covered st' /\ from_created st' result.
Proof.
  intros Hinv Hfrom st'.
  assert (Hcov : covered st').
  { destruct (inv_seeded _ Hinv) as [Hc|[Hd Hl]].
    - apply covered_set. exact Hc.
    - destruct Hfrom as (t & Ht & Hp). apply process_page_url in Hp.
      intros t' Ht'. simpl in *. apply dict_keys_set. left.
      destruct (created st) as [|t0 [|t1 l]]; simpl in *; try lia;
        try contradiction.
      destruct Ht as [<-|[]]. destruct Ht' as [<-|[]]. symmetry; exact Hp. }
  split; [|split; [exact Hcov | exact Hfrom]].
  destruct Hfrom as (t & Ht & Hp).
  destruct Hinv as [H1 H2 H3 H4 H5 H6].
  constructor; unfold from_created in *; simpl; auto.
  intros k' data Hin. apply dict_in_set in Hin.
  destruct Hin as [[_ E]|Hin]; [|eauto].
  inversion E; subst. exists t, result. auto.
Qed.

Lemma linking_mark_new (result : ResponseResult) (u : string) (st : State) :
  linking result st -> linking result (mark_new u st).
Proof.
  intros (Hinv & Hcov & Hfrom). unfold mark_new.
  pose proof (inv_set u None st Hinv Hcov) as Hi.
  pose proof (covered_set u None st Hcov) as Hc.
  split; [|split].
  - eapply inv_frame; [| | | |apply Hi; intros data; discriminate]; reflexivity.
  - eapply covered_frame; [| |exact Hc]; reflexivity.
  - exact Hfrom.
Qed.

Lemma linking_enqueue (result : ResponseResult) (link : option string)
  (u : string) (c : bool) (st : State) :
  linking result st ->
  In link (r_links result) ->
  resolve_link result link = Return (Some u) ->
  is_same_domain u root_url = Return c ->
  Dict.mem u (processed_urls st) = false ->
  linking result (enqueue (mkTask u c) (mark_new u st)).
Proof.
  intros Hl Hin Hres Hsame Hmem.
  assert (Hfresh : ~ In u (List.map url (created st))).
  { destruct Hl as (_ & Hcov & _). intros Hu. apply in_map_iff in Hu.
    destruct Hu as (t & <- & Ht). apply dict_mem_false in Hmem.
    apply Hmem. apply Hcov. exact Ht. }
  assert (Hreach : reachable (mkTask u c)).
  { destruct Hl as (Hinv & _ & (t & Ht & Hp)).
    eapply reachable_link; eauto. apply (inv_reach _ Hinv). exact Ht. }
  apply (linking_mark_new result u) in Hl.
  destruct Hl as ([H1 H2 H3 H4 H5 H6] & Hcov & (t & Ht & Hp)).
  assert (Hcov' : covered (enqueue (mkTask u c) (mark_new u st))).
  { intros t' Ht'. simpl in *. apply in_app_iff in Ht'.
    destruct Ht' as [Ht'|[<-|[]]].
    - apply Hcov. exact Ht'.
    - simpl. apply dict_keys_set. left; reflexivity. }
  split; [|split; [exact Hcov'|]].
  - constructor; unfold from_created in *; simpl in *; auto.
    + rewrite map_app. simpl. apply NoDup_snoc; auto.
    + intros t' Ht'. apply in_app_iff in Ht'.
      destruct Ht' as [Ht'|[<-|[]]]; auto.
    + intros t' Ht'. apply in_app_iff in Ht'. apply in_app_iff.
      destruct Ht' as [Ht'|Ht']; [left; apply H3; exact Ht' | right; exact Ht'].
    + intros r Hr. destruct (H4 r Hr) as (t' & Ht' & Hp').
      exists t'. split; [apply in_app_iff; left; exact Ht' | exact Hp'].
  - exists t. split; [simpl; apply in_app_iff; left; exact Ht | exact Hp].
Qed.

Lemma hoare_process_link (result : ResponseResult) (link : option string) :
  In link (r_links result) ->
  hoare (linking result) (process_link root_url result link)
        (fun _ => linking result) (linking result).
Proof.
  intros Hin st Hl. rewrite process_link_eq.
  destruct (resolve_link result link) as [[u|]|e] eqn:Eres; auto.
  destruct (Dict.mem u (processed_urls st)) eqn:Emem; auto.
  destruct (is_same_domain u root_url) as [c|e] eqn:Esame.
  - eapply linking_enqueue; eauto.
  - apply linking_mark_new. exact Hl.
Qed.

Lemma hoare_assign (result : ResponseResult) (k : string) (v : option Data) :
  (forall data, v = Some data ->
                data = mkData (r_status result) (r_error result)) ->
  hoare (linking result) (assign k v) (fun _ => linking result)
        (linking result).
Proof.
  intros Hv st (Hinv & Hcov & Hfrom). simpl. split; [|split].
  - apply inv_set; auto. intros data Hd. apply Hv in Hd.
    destruct Hfrom as (t & Ht & Hp). exists t, result.
    split; [apply (inv_reach _ Hinv); exact Ht | auto].
  - apply covered_set. exact Hcov.
  - exact Hfrom.
Qed.

Lemma hoare_process_result (result : ResponseResult) :
  hoare (fun st => inv st /\ from_created st result)
        (process_result root_url result) (fun _ => inv) inv.
Proof.
  unfold process_result.
  apply hoare_conseq with (P' := fun st => inv st /\ from_created st result)
    (Q' := fun _ => linking result) (I' := linking result);
    [|auto|intros _ st H; apply H|intros st H; apply H].
  apply hoare_bind with (Q := fun _ => linking result).
  { intros st (Hinv & Hfrom). simpl.
    apply (inv_first_assign result st Hinv Hfrom). }
  intros _. apply hoare_bind with (Q := fun _ => linking result).
  { destruct (Str.truthy (r_redirect result)).
    - apply hoare_assign. intros data; discriminate.
    - apply hoare_ret; auto. }
  intros _. apply hoare_bind with (Q := fun _ => linking result).
  { apply hoare_assign. intros data E; inversion E; reflexivity. }
  intros _. apply hoare_for_each. intros link Hin.
  apply hoare_process_link. exact Hin.
Qed.

Lemma hoare_drain (fuel : nat) :
  hoare inv (drain fuel root_url) (fun _ => inv) inv.
Proof.
  induction fuel as [|fuel IH]; simpl.
  - intros st H. exact H.
  - apply hoare_bind with (Q := fun _ => inv); [apply hoare_schedule|].
    intros _. eapply hoare_bind; [apply hoare_get_result|].
    intros [result|].
    + apply hoare_bind with (Q := fun _ => inv).
      * apply hoare_process_result.
      * intros _. exact IH.
    + apply hoare_ret. intros st H; apply H.
Qed.

Lemma hoare_frame (f : State -> State) :
  (forall st, created (f st) = created st) ->
  (forall st, task_queue (f st) = task_queue st) ->
  (forall st, result_queue (f st) = result_queue st) ->
  (forall st, processed_urls (f st) = processed_urls st) ->
  hoare inv (modify f) (fun _ => inv) inv.
Proof.
  intros H1 H2 H3 H4. apply hoare_modify. intros st H.
  eapply inv_frame; eauto.
Qed.

Lemma hoare_main_loop (fuel : nat) :
  hoare inv (main_loop fuel root_url) (fun _ => inv) inv.
Proof.
  induction fuel as [|fuel IH]; simpl.
  - intros st H. exact H.
  - eapply hoare_bind; [apply hoare_gets|]. intros b.
    destruct b.
    + apply hoare_bind with (Q := fun _ => inv).
      { apply hoare_modify. intros st [H _].
        eapply inv_frame; [| | | |exact H]; reflexivity. }
      intros _. apply hoare_bind with (Q := fun _ => inv).
      { apply hoare_frame; reflexivity. }
      intros _. apply hoare_bind with (Q := fun _ => inv).
      { apply hoare_drain. }
      intros _. apply hoare_bind with (Q := fun _ => inv).
      { apply hoare_join. }
      intros _. exact IH.
    + apply hoare_ret. intros st [H _]; exact H.
Qed.

Lemma hoare_print_results (d : Frontier) :
  hoare inv (print_results d) (fun _ => inv) inv.
Proof.
  unfold print_results.
  apply hoare_bind with (Q := fun _ => inv).
  { apply hoare_frame; reflexivity. }
  intros _. apply hoare_for_each. intros [k [data|]] _; simpl.
  - eapply hoare_bind; [apply hoare_lift|]. intros bad.
    destruct bad.
    + apply hoare_modify. intros st [H _].
      eapply inv_frame; [| | | |exact H]; reflexivity.
    + apply hoare_ret. intros st [H _]; exact H.
  - apply hoare_ret; auto.
Qed.

(** What [main] does once it has its seed and root url. *)
Lemma hoare_crawl (fuel : nat) :
  hoare (fun st => st = initial_state)
        (crawl fuel base_url root_url)
        (fun _ => inv) inv.
Proof.
  unfold crawl.
  apply hoare_bind with (Q := fun _ => inv).
  { apply hoare_modify. intros st ->. apply inv_seed;
      [apply inv_initial | reflexivity | reflexivity]. }
  intros _. apply hoare_bind with (Q := fun _ => inv); [apply hoare_join|].
  intros _. apply hoare_bind with (Q := fun _ => inv).
  { apply hoare_frame; reflexivity. }
  intros _. apply hoare_bind with (Q := fun _ => inv).
  { apply hoare_main_loop. }
  intros _. apply hoare_bind with (Q := fun _ => inv).
  { apply hoare_for_each. intros _ _. apply hoare_frame; reflexivity. }
  intros _. eapply hoare_bind; [apply hoare_gets|].
  intros d. apply hoare_bind with (Q := fun _ => inv).
  { eapply hoare_conseq; [apply hoare_print_results| | |]; auto.
    intros st [H _]; exact H. }
  intros _. apply hoare_ret; auto.
Qed.

(** ** Termination of the loops *)


Section Termination.

(** A finite set [U] holds the urls reachable from the seed, every fetch
    of a reachable task returns, and the links it finds can be parsed. *)
Variable U : list string.

Hypothesis reachable_finite : forall t, reachable t -> In (url t) U.

Hypothesis fetch_returns :
  forall t, reachable t ->
            exists r, process_page (url t) (collect_links t) = Return r.

Hypothesis links_parse :
  forall t r link,
    reachable t -> process_page (url t) (collect_links t) = Return r ->
    In link (r_links r) ->
    exists target, resolve_link r link = Return target /\
                   forall u, target = Some u ->
                             exists c, is_same_domain u root_url = Return c.

















Lemma has_tasks_workers (l : list nat) (st : State) :
  has_tasks (workers l st) = has_tasks st.
Proof.
  unfold workers. revert st. induction l as [|i l IH]; simpl; intros st.
  - reflexivity.
  - rewrite IH. unfold run_task.
    destruct (live_workers st); [reflexivity|].
    destruct (nth_error (task_queue st) i); [|reflexivity].
    destruct (process_page _ _); reflexivity.
Qed.



End Termination.

(** ** Every task is recorded, every outcome belongs to its url *)

Lemma busy_run_task (i : nat) (st : State) :
  busy_or_covered st -> busy_or_covered (run_task i st).
Proof.
  intros H. unfold run_task.
  destruct (live_workers st); [exact H|].
  destruct (nth_error (task_queue st) i) as [task|]; [|exact H].
  destruct (process_page (url task) (collect_links task)) as [r|e].
  - right. right. left. simpl. intros E.
    apply (f_equal (@length _)) in E. rewrite length_app in E.
    simpl in E. lia.
  - right. right. right. simpl. intros E.
    apply (f_equal (@length _)) in E. rewrite length_app in E.
    simpl in E. lia.
Qed.

Lemma tracked_run_task (i : nat) (st : State) :
  tracked st -> tracked (run_task i st).
Proof.
  intros (Hinv & Hbusy & Hown). split; [|split].
  - apply inv_run_task. exact Hinv.
  - apply busy_run_task. exact Hbusy.
  - unfold run_task. destruct (live_workers st); [exact Hown|].
    destruct (nth_error (task_queue st) i); [|exact Hown].
    destruct (process_page _ _); exact Hown.
Qed.

Lemma tracked_workers (l : list nat) (st : State) :
  tracked st -> tracked (workers l st).
Proof.
  unfold workers. revert st. induction l as [|i l IH]; simpl; intros st H.
  - exact H.
  - apply IH. apply tracked_run_task. exact H.
Qed.

Lemma tracked_frame (st st' : State) :
  created st' = created st -> task_queue st' = task_queue st ->
  result_queue st' = result_queue st -> dead st' = dead st ->
  processed_urls st' = processed_urls st ->
  tracked st -> tracked st'.
Proof.
  intros Ec Et Er Edd Ed (Hinv & Hbusy & Hown). split; [|split].
  - eapply inv_frame; eauto.
  - unfold busy_or_covered, covered in *. rewrite Ec, Et, Er, Edd, Ed.
    exact Hbusy.
  - rewrite Ed. exact Hown.
Qed.

Lemma hoare_tracked_frame (f : State -> State) :
  (forall st, created (f st) = created st) ->
  (forall st, task_queue (f st) = task_queue st) ->
  (forall st, result_queue (f st) = result_queue st) ->
  (forall st, dead (f st) = dead st) ->
  (forall st, processed_urls (f st) = processed_urls st) ->
  hoare tracked (modify f) (fun _ => tracked) tracked.
Proof.
  intros H1 H2 H3 H4 H5. apply hoare_modify. intros st H.
  eapply tracked_frame; eauto.
Qed.

Lemma hoare_tracked_schedule :
  hoare tracked schedule (fun _ => tracked) tracked.
Proof.
  apply hoare_modify. intros st H.
  eapply tracked_frame; [| | | | |apply tracked_workers; exact H]; reflexivity.
Qed.

Lemma hoare_tracked_join : hoare tracked join (fun _ => tracked) tracked.
Proof.
  intros st H.
  assert (H' : tracked (fst (join st))).
  { rewrite join_state. apply tracked_workers.
    unfold schedule, modify. simpl.
    eapply tracked_frame; [| | | | |apply tracked_workers; exact H];
      reflexivity. }
  destruct (join st) as [st' [[]| | |]]; exact H'.
Qed.

Lemma hoare_tracked_get_result :
  hoare tracked get_result
        (fun next st =>
           match next with
           | Some r => inv st /\ from_created st r /\
                       own_outcomes (processed_urls st)
           | None => tracked st
           end)
        tracked.
Proof.
  intros st (Hinv & Hbusy & Hown).
  pose proof (hoare_get_result st Hinv) as Hg. unfold get_result in *.
  destruct (result_queue st) as [|r q]; simpl in *.
  - split; [exact Hinv | split; assumption].
  - destruct Hg as [Hi Hf]. split; [exact Hi | split; [exact Hf | exact Hown]].
Qed.

Lemma own_outcomes_set_none (k : string) (d : Frontier) :
  own_outcomes d -> own_outcomes (Dict.set k None d).
Proof.
  intros H k' data Hin. apply dict_in_set in Hin.
  destruct Hin as [[_ E]|Hin]; [discriminate | apply (H k' data Hin)].
Qed.

Lemma own_outcomes_set_result (result : ResponseResult) (st : State)
  (d : Frontier) :
  from_created st result -> own_outcomes d ->
  own_outcomes (Dict.set (r_url result)
                         (Some (mkData (r_status result) (r_error result))) d).
Proof.
  intros (t & _ & Hp) H k' data Hin. apply dict_in_set in Hin.
  destruct Hin as [[-> E]|Hin]; [|apply (H k' data Hin)].
  inversion E; subst. exists (collect_links t), result. split; [|reflexivity].
  rewrite (process_page_url _ _ _ Hp). exact Hp.
Qed.

Lemma tracked_for_tracked (result : ResponseResult) (st : State) :
  tracked_for result st -> tracked st.
Proof.
  intros ((Hinv & Hcov & _) & Hown). split; [exact Hinv|].
  split; [left; exact Hcov | exact Hown].
Qed.

Lemma hoare_tracked_process_link (result : ResponseResult)
  (link : option string) :
  In link (r_links result) ->
  hoare (tracked_for result) (process_link root_url result link)
        (fun _ => tracked_for result) (tracked_for result).
Proof.
  intros Hin st [Hl Hown].
  pose proof (hoare_process_link result link Hin st Hl) as Hh.
  rewrite process_link_eq in *.
  destruct (resolve_link result link) as [[u|]|e]; try (split; assumption).
  destruct (Dict.mem u (processed_urls st)); try (split; assumption).
  destruct (is_same_domain u root_url); (split; [exact Hh|]); simpl;
    apply own_outcomes_set_none; exact Hown.
Qed.

Lemma hoare_tracked_assign_none (result : ResponseResult) (k : string) :
  hoare (tracked_for result) (assign k None) (fun _ => tracked_for result)
        (tracked_for result).
Proof.
  intros st [Hl Hown]. simpl. split.
  - apply (hoare_assign result k None) in Hl; [exact Hl|].
    intros data; discriminate.
  - apply own_outcomes_set_none. exact Hown.
Qed.

Lemma hoare_tracked_assign_result (result : ResponseResult) :
  hoare (tracked_for result)
        (assign (r_url result)
                (Some (mkData (r_status result) (r_error result))))
        (fun _ => tracked_for result) (tracked_for result).
Proof.
  intros st [Hl Hown]. simpl. split.
  - apply (hoare_assign result (r_url result)
             (Some (mkData (r_status result) (r_error result)))) in Hl;
      [exact Hl|].
    intros data E; inversion E; reflexivity.
  - destruct Hl as (_ & _ & Hf).
    eapply own_outcomes_set_result; eauto.
Qed.

Lemma hoare_tracked_process_result (result : ResponseResult) :
  hoare (fun st => inv st /\ from_created st result /\
                   own_outcomes (processed_urls st))
        (process_result root_url result) (fun _ => tracked) tracked.
Proof.
  unfold process_result.
  eapply hoare_conseq with
    (Q' := fun _ => tracked_for result) (I' := tracked_for result);
    [|intros st H; exact H
     |intros a st H; eapply tracked_for_tracked; exact H
     |intros st H; eapply tracked_for_tracked; exact H].
  apply hoare_bind with (Q := fun _ => tracked_for result).
  { intros st (Hinv & Hfrom & Hown). simpl.
    destruct (inv_first_assign result st Hinv Hfrom) as (Hi & Hc & Hf).
    split; [split; [exact Hi | split; assumption]|].
    simpl. eapply own_outcomes_set_result; eauto. }
  intros _. apply hoare_bind with (Q := fun _ => tracked_for result).
  { destruct (Str.truthy (r_redirect result)).
    - apply hoare_tracked_assign_none.
    - apply hoare_ret; auto. }
  intros _. apply hoare_bind with (Q := fun _ => tracked_for result);
    [apply hoare_tracked_assign_result|].
  intros _. apply hoare_for_each. intros link Hin.
  apply hoare_tracked_process_link. exact Hin.
Qed.

Lemma hoare_tracked_drain (fuel : nat) :
  hoare tracked (drain fuel root_url) (fun _ => tracked) tracked.
Proof.
  induction fuel as [|fuel IH]; simpl.
  - intros st H. exact H.
  - apply hoare_bind with (Q := fun _ => tracked);
      [apply hoare_tracked_schedule|].
    intros _. eapply hoare_bind; [apply hoare_tracked_get_result|].
    intros [result|].
    + apply hoare_bind with (Q := fun _ => tracked);
        [apply hoare_tracked_process_result | intros _; exact IH].
    + apply hoare_ret. intros st H; exact H.
Qed.

Lemma hoare_tracked_main_loop (fuel : nat) :
  hoare tracked (main_loop fuel root_url) (fun _ => tracked) tracked.
Proof.
  induction fuel as [|fuel IH]; simpl.
  - intros st H. exact H.
  - eapply hoare_bind; [apply hoare_gets|]. intros b. destruct b.
    + apply hoare_bind with (Q := fun _ => tracked).
      { apply hoare_modify. intros st [H _].
        eapply tracked_frame; [| | | | |exact H]; reflexivity. }
      intros _. apply hoare_bind with (Q := fun _ => tracked).
      { apply hoare_tracked_frame; reflexivity. }
      intros _. apply hoare_bind with (Q := fun _ => tracked);
        [apply hoare_tracked_drain|].
      intros _. apply hoare_bind with (Q := fun _ => tracked);
        [apply hoare_tracked_join|].
      intros _. exact IH.
    + apply hoare_ret. intros st [H _]; exact H.
Qed.

Lemma hoare_tracked_print_results (d : Frontier) :
  hoare tracked (print_results d) (fun _ => tracked) tracked.
Proof.
  unfold print_results.
  apply hoare_bind with (Q := fun _ => tracked).
  { apply hoare_tracked_frame; reflexivity. }
  intros _. apply hoare_for_each. intros [k [data|]] _; simpl.
  - eapply hoare_bind; [apply hoare_lift|]. intros bad.
    destruct bad.
    + apply hoare_modify. intros st [H _].
      eapply tracked_frame; [| | | | |exact H]; reflexivity.
    + apply hoare_ret. intros st [H _]; exact H.
  - apply hoare_ret; auto.
Qed.

Lemma hoare_tracked_crawl (fuel : nat) :
  hoare (fun st => st = initial_state) (crawl fuel base_url root_url)
        (fun _ => tracked) tracked.
Proof.
  unfold crawl.
  apply hoare_bind with (Q := fun _ => tracked).
  { apply hoare_modify. intros st ->. split; [|split].
    - apply inv_seed; [apply inv_initial | reflexivity | reflexivity].
    - right. left. simpl. discriminate.
    - intros k data []. }
  intros _. apply hoare_bind with (Q := fun _ => tracked);
    [apply hoare_tracked_join|].
  intros _. apply hoare_bind with (Q := fun _ => tracked).
  { apply hoare_tracked_frame; reflexivity. }
  intros _. apply hoare_bind with (Q := fun _ => tracked);
    [apply hoare_tracked_main_loop|].
  intros _. apply hoare_bind with (Q := fun _ => tracked).
  { apply hoare_for_each. intros _ _. apply hoare_tracked_frame; reflexivity. }
  intros _. eapply hoare_bind; [apply hoare_gets|].
  intros d. apply hoare_bind with (Q := fun _ => tracked).
  { eapply hoare_conseq; [apply hoare_tracked_print_results| | |]; auto.
    intros st [H _]; exact H. }
  intros _. apply hoare_ret; auto.
Qed.

End Run.

(** ** Every run keeps the invariant *)

Lemma main_inv (fuel : nat) (base_url_string : string) :
  exists base_url root_url,
    inv base_url root_url (fst (main fuel base_url_string initial_state)).
Proof.
  rewrite main_eq.
  destruct (get_base_url base_url_string) as [base|e].
  - destruct (Str.truthy base).
    + destruct (get_root_url base) as [root|e].
      * exists base, root.
        pose proof (hoare_crawl base root fuel initial_state eq_refl) as H.
        destruct (crawl fuel base root initial_state) as [st' [a| | |]];
          exact H.
      * exists base, EmptyString. apply inv_initial.
    + exists base, EmptyString. simpl.
      eapply inv_frame; [| | | |apply inv_initial]; reflexivity.
  - exists EmptyString, EmptyString. apply inv_initial.
Qed.

Lemma NoDup_filter_le {A : Type} (f : A -> string) (u : string) (l : list A) :
  NoDup (List.map f l) ->
  length (List.filter (fun t => String.eqb (f t) u) l) <= 1.
Proof.
  induction l as [|a l IH]; simpl; intros Hnd; [lia|].
  inversion Hnd as [|? ? Hn Hl]; subst.
  destruct (String.eqb_spec (f a) u) as [E|E]; [|auto].
  simpl. assert (Hz : List.filter (fun t => String.eqb (f t) u) l = []).
  { clear IH Hnd Hl. induction l as [|b l IHl]; simpl; [reflexivity|].
    destruct (String.eqb_spec (f b) u) as [Eb|Eb].
    - exfalso. apply Hn. left. congruence.
    - apply IHl. intros H. apply Hn. right. exact H. }
  rewrite Hz. simpl. lia.
Qed.

(** C3.  No url is fetched twice: in every run of [main], for every seed,
    every behaviour of the network and every scheduling of the workers, at
    most one task is ever put for a given url (the seed included), however
    far the run has got. *)
Theorem no_url_fetched_twice (fuel : nat) (base_url_string : string)
  (u : string) :
  tasks_for u (fst (main fuel base_url_string initial_state)) <= 1.
Proof.
  destruct (main_inv fuel base_url_string) as (base & root & Hinv).
  unfold tasks_for. apply NoDup_filter_le. apply (inv_nodup _ _ _ Hinv).
Qed.

(** ** The outcomes stored in the dictionary *)

Lemma fetched_exclusive (s : option Z) (e : string) :
  ~ (fetched_ok s e /\ fetched_failed s e).
Proof. intros [(n & Es & _) (En & _)]. congruence. Qed.

Lemma process_page_outcome (u : string) (c : bool) (r : ResponseResult) :
  urlopen_2xx ->
  process_page u c = Return r ->
  fetched_ok (r_status r) (r_error r) \/ fetched_failed (r_status r) (r_error r).
Proof.
  intros H2xx Hp.
  destruct (process_page_status u c r Hp)
    as [(n & Es & Ee & rd & cs & g & Eo)|(Es & Ee)].
  - left. exists n. apply H2xx in Eo. repeat split; auto. lia.
  - right. split; assumption.
Qed.

(** C10.  Provided [urlopen] returns a response only for a status from 200
    to 299 (as the default opener of [urllib.request] does), every result
    of [process_page] has either a status below 400 and an empty error, or
    no status and a non-empty error, and never both; the same holds for
    every outcome stored in [processed_urls] in every run of [main], so
    that the comparison of the status with 400 in [print_results], which
    is made only when the error is empty, always finds a status: the test
    of the reporter never raises [TypeError]. *)
Theorem outcome_has_status_or_error :
  urlopen_2xx ->
  (forall u c r,
      process_page u c = Return r ->
      (fetched_ok (r_status r) (r_error r) \/
       fetched_failed (r_status r) (r_error r)) /\
      ~ (fetched_ok (r_status r) (r_error r) /\
         fetched_failed (r_status r) (r_error r))) /\
  (forall fuel base_url_string k data,
      In (k, Some data)
         (processed_urls (fst (main fuel base_url_string initial_state))) ->
      (fetched_ok (status data) (error data) \/
       fetched_failed (status data) (error data)) /\
      (Str.truthy (error data) = false ->
       exists n, status data = Some n /\
                 is_bad data = Return (n >? 400)%Z) /\
      (forall msg, is_bad data <> Raise (TypeError msg))).
Proof.
  intros H2xx. split.
  - intros u c r Hp. split.
    + eapply process_page_outcome; eauto.
    + apply fetched_exclusive.
  - intros fuel seed k data Hin.
    destruct (main_inv fuel seed) as (base & root & Hinv).
    destruct (inv_data _ _ _ Hinv k data Hin) as (t & r & _ & Hp & ->).
    simpl. split; [eapply process_page_outcome; eauto|].
    unfold is_bad; simpl.
    destruct (process_page_status _ _ _ Hp)
      as [(n & Es & Ee & _)|(Es & Ee)].
    + rewrite Es, Ee. simpl. split.
      * intros _. exists n. auto.
      * intros msg; discriminate.
    + destruct (r_error r) as [|a e]; [contradiction|]. simpl. split.
      * discriminate.
      * intros msg; discriminate.
Qed.

(** ** The base of a relative link *)

(** C1.  A relative link found in a result whose [redirect] is not empty
    is joined to [result.url], the url that was requested, and not to
    [result.redirect], the final url: the two branches of lines 224-227
    are the wrong way round.  ([redirect] is [response.geturl()], which is
    not empty for any response, so the requested url is the base of every
    relative link, whether a redirect occurred or not.) *)
Theorem relative_link_joined_to_requested_url (result : ResponseResult)
  (link : option string) (l : string) :
  clean_fragments link = Return l ->
  skipped l = false ->
  is_relative l = Return true ->
  Str.truthy (r_redirect result) = true ->
  resolve_link result link =
  (x <- restore_relative_url l (r_url result) ;; Return (Some x)).
Proof.
  intros Ec Es Er Et. unfold resolve_link.
  rewrite Ec. simpl. rewrite Es, Er. simpl. rewrite Et. reflexivity.
Qed.

(** ** The redirect target in the dictionary *)

Lemma dict_get_mem {V : Type} (k : string) (v : V) (d : Dict.t V) :
  Dict.get k d = Some v -> Dict.mem k d = true.
Proof.
  induction d as [|[k' v'] d IH]; simpl; [discriminate|].
  destruct (String.eqb k' k); auto.
Qed.

Lemma hoare_fst {A : Type} (P Q : State -> Prop) (m : M A) (st : State) :
  hoare P m (fun _ => Q) Q -> P st -> Q (fst (m st)).
Proof.
  intros H HP. specialize (H st HP).
  destruct (m st) as [st' [a| | |]]; exact H.
Qed.

(** The link loop never changes the value of a key that is present. *)
Lemma hoare_process_link_keeps (root : string) (result : ResponseResult)
  (link : option string) (k : string) (v : option Data) :
  let P := fun st => Dict.get k (processed_urls st) = Some v in
  hoare P (process_link root result link) (fun _ => P) P.
Proof.
  intros P st HP. rewrite process_link_eq.
  destruct (resolve_link result link) as [[u|]|e]; auto.
  destruct (Dict.mem u (processed_urls st)) eqn:Emem; auto.
  assert (Hne : k <> u).
  { intros ->. apply dict_get_mem in HP. congruence. }
  destruct (is_same_domain u root); unfold P; simpl;
    rewrite dict_get_set_other by exact Hne; exact HP.
Qed.

(** C2.  Processing a result that was redirected stores [None] for the
    final url, whatever the dictionary held for it: an outcome stored
    earlier for that url is replaced by the pending marker.  (Line 216 is
    unconditional, and nothing that follows in the turn restores the
    value.) *)
Theorem redirect_target_marked_pending (root : string)
  (result : ResponseResult) (st : State) :
  Str.truthy (r_redirect result) = true ->
  r_redirect result <> r_url result ->
  Dict.get (r_redirect result)
           (processed_urls (fst (process_result root result st))) = Some None.
Proof.
  intros Ht Hne. unfold process_result. rewrite Ht.
  unfold bind at 1. unfold assign at 1, modify at 1.
  unfold bind at 1. unfold assign at 1, modify at 1.
  unfold bind at 1. unfold assign at 1, modify at 1.
  apply hoare_fst with
    (P := fun st => Dict.get (r_redirect result) (processed_urls st) = Some None).
  - apply hoare_for_each. intros link _. apply hoare_process_link_keeps.
  - simpl. rewrite dict_get_set_other by exact Hne. apply dict_get_set_same.
Qed.

(** ** The reporter *)

Lemma is_bad_reported (data : Data) :
  (Str.truthy (error data) = false -> status data <> None) ->
  is_bad data = Return (reported data).
Proof.
  intros H. unfold is_bad, reported.
  destruct (Str.truthy (error data)); [reflexivity|].
  destruct (status data); [reflexivity|].
  exfalso. apply H; reflexivity.
Qed.

Lemma print_all_app (l1 l2 : list string) (st : State) :
  print_all (l1 ++ l2) st = print_all l2 (print_all l1 st).
Proof. unfold print_all. apply fold_left_app. Qed.

(** On a dictionary in which every entry without error has a status,
    [print_results] prints the header and then one line for each entry
    that is not [None] and has an error or a status above 400, in the order
    of the dictionary, and nothing else. *)
Lemma print_results_prints_report (d : Frontier) (st : State) :
  (forall k data, In (k, Some data) d ->
                  Str.truthy (error data) = false -> status data <> None) ->
  print_results d st =
  (print_all ("Bad or broken links:" :: report d) st, Done tt).
Proof.
  intros H. unfold print_results. unfold bind at 1. simpl.
  generalize (print_state "Bad or broken links:" st). clear st.
  induction d as [|[k [data|]] d IH]; intros st; simpl.
  - reflexivity.
  - unfold bind at 1. unfold lift.
    rewrite is_bad_reported by (apply (H k); left; reflexivity).
    destruct (reported data); simpl.
    + apply IH. intros k' data' Hin. apply (H k'). right; exact Hin.
    + apply IH. intros k' data' Hin. apply (H k'). right; exact Hin.
  - unfold bind at 1. simpl. apply IH.
    intros k' data' Hin. apply (H k'). right; exact Hin.
Qed.

(** ** A worker that dies *)

Lemma in_remove_nth_or {A : Type} (i : nat) (l : list A) (x y : A) :
  In x l -> nth_error l i = Some y -> In x (remove_nth i l) \/ x = y.
Proof.
  unfold remove_nth. revert i. induction l as [|a l IH]; intros i Hin Hn.
  - destruct Hin.
  - destruct i; simpl in *.
    + inversion Hn; subst. destruct Hin; auto.
    + destruct Hin as [->|Hin]; [auto|].
      destruct (IH i Hin Hn); auto.
Qed.

(** A task whose fetch raises stays unfinished or is among the dead, and
    the dead stay dead. *)
Lemma run_task_dead (task : Task) (e : exn) (i : nat) (st : State) :
  process_page (url task) (collect_links task) = Raise e ->
  In task (task_queue st) \/ In task (dead st) ->
  In task (task_queue (run_task i st)) \/ In task (dead (run_task i st)).
Proof.
  intros Hp H. unfold run_task.
  destruct (live_workers st); [exact H|].
  destruct (nth_error (task_queue st) i) as [t|] eqn:En; [|exact H].
  destruct H as [H|H].
  - destruct (in_remove_nth_or i _ task t H En) as [Hin| ->].
    + destruct (process_page (url t) (collect_links t)); simpl; auto.
    + rewrite Hp. simpl. right. apply in_app_iff. right. left. reflexivity.
  - destruct (process_page (url t) (collect_links t)); simpl; auto.
    right. apply in_app_iff. auto.
Qed.

Lemma workers_dead (task : Task) (e : exn) (l : list nat) (st : State) :
  process_page (url task) (collect_links task) = Raise e ->
  In task (task_queue st) \/ In task (dead st) ->
  In task (task_queue (workers l st)) \/ In task (dead (workers l st)).
Proof.
  intros Hp. unfold workers. revert st.
  induction l as [|i l IH]; simpl; intros st H; [exact H|].
  apply IH. eapply run_task_dead; eauto.
Qed.

(** Once every worker has died, nothing runs any more. *)
Lemma workers_none_left (l : list nat) (st : State) :
  live_workers st = 0 -> workers l st = st.
Proof.
  intros H. unfold workers. induction l as [|i l IH]; simpl; [reflexivity|].
  unfold run_task at 2. rewrite H. exact IH.
Qed.

Lemma some_worker_died (st : State) : live_workers st = 0 -> dead st <> [].
Proof. unfold live_workers. intros H E. rewrite E in H. discriminate. Qed.

(** Workers that keep taking the first task finish all of them, unless
    they have all died before. *)
Lemma workers_finish_all (n : nat) (st : State) :
  length (task_queue st) <= n ->
  task_queue (workers (repeat 0 n) st) = [] \/
  live_workers (workers (repeat 0 n) st) = 0.
Proof.
  revert st. induction n as [|n IH]; intros st Hn; simpl.
  - left. destruct (task_queue st); [reflexivity | simpl in Hn; lia].
  - destruct (live_workers st) as [|w] eqn:Ew.
    + right. unfold run_task. rewrite Ew.
      change (live_workers (workers (repeat 0 n) st) = 0).
      rewrite workers_none_left; exact Ew.
    + apply IH. unfold run_task. rewrite Ew.
      destruct (task_queue st) as [|t q] eqn:Eq; simpl.
      * rewrite Eq. simpl. lia.
      * simpl in Hn.
        destruct (process_page (url t) (collect_links t)); simpl;
          unfold remove_nth; simpl; lia.
Qed.

Lemma join_blocked (task : Task) (e : exn) (st : State) :
  process_page (url task) (collect_links task) = Raise e ->
  In task (task_queue st) \/ In task (dead st) ->
  snd (join st) = Blocked.
Proof.
  intros Hp H.
  remember (workers (repeat 0 (length (task_queue (fst (schedule st)))))
                    (fst (schedule st))) as st2 eqn:E2.
  assert (Ej : join st = match dead st2 with
                         | [] => (st2, Done tt)
                         | _ :: _ => (st2, Blocked)
                         end) by (subst st2; reflexivity).
  assert (Hd : In task (task_queue st2) \/ In task (dead st2)).
  { subst st2. eapply workers_dead; eauto.
    unfold schedule, modify. simpl. eapply workers_dead; eauto. }
  assert (Hq : task_queue st2 = [] \/ live_workers st2 = 0)
    by (subst st2; apply workers_finish_all; lia).
  assert (Hne : dead st2 <> []).
  { destruct Hq as [Hq|Hq]; [|apply some_worker_died; exact Hq].
    rewrite Hq in Hd. destruct Hd as [[]|Hd].
    intros E. rewrite E in Hd. destruct Hd. }
  rewrite Ej. destruct (dead st2); [contradiction | reflexivity].
Qed.

(** ** Links that are skipped, links that are new *)

(** C7 (amended).  A link that, once its fragment is removed, is empty or
    starts with [javascript:], [mailto:] or [whatsapp:] (in lower case) is
    discarded: the body of the link loop leaves the dictionary and the task
    queue as they are and puts no task. *)
Theorem skipped_link_is_discarded (root : string) (result : ResponseResult)
  (link : option string) (l : string) (st : State) :
  clean_fragments link = Return l ->
  skipped l = true ->
  process_link root result link st = (st, Done tt).
Proof.
  intros Ec Es. rewrite process_link_eq. unfold resolve_link.
  rewrite Ec. simpl. rewrite Es. reflexivity.
Qed.

(** C8 (amended).  For a link that resolves to a url [u] not yet in the
    dictionary, the task put has [collect_links] true exactly when the host
    of [u] is not empty and equals the host of [root_url]; [main] passes for
    [root_url] the url that [get_root_url] builds from the last two labels
    of the host of the seed, so the comparison is with that shortened host
    and not with the host of the seed itself. *)
Theorem new_link_collects_iff_root_host (root : string)
  (result : ResponseResult) (link : option string) (u : string) (c : bool)
  (st : State) :
  resolve_link result link = Return (Some u) ->
  Dict.mem u (processed_urls st) = false ->
  is_same_domain u root = Return c ->
  process_link root result link st =
    (enqueue (mkTask u c) (mark_new u st), Done tt) /\
  exists hu hr, host_of u = Return hu /\ host_of root = Return hr /\
                (c = true <-> hu <> EmptyString /\ hu = hr).
Proof.
  intros Er Em Es. split.
  - rewrite process_link_eq, Er, Em, Es. reflexivity.
  - unfold is_same_domain, host_of in *.
    destruct (urllib.urlparse bracketed_host_ok u EmptyString) as [pu|e];
      simpl in *; [|discriminate].
    destruct (urllib.urlparse bracketed_host_ok root EmptyString) as [pr|e];
      simpl in *; [|discriminate].
    exists (urllib.netloc pu), (urllib.netloc pr).
    split; [reflexivity|]. split; [reflexivity|].
    inversion Es; subst. rewrite andb_true_iff.
    split.
    + intros [Ht He]. apply String.eqb_eq in He. split; [|exact He].
      intros E. rewrite E in Ht. discriminate.
    + intros [Hne He]. split; [|apply String.eqb_eq; exact He].
      destruct (urllib.netloc pu); [contradiction | reflexivity].
Qed.

(** ** The query of the seed *)

Lemma contains_app (c : ascii) (a b : string) :
  Str.contains c (a ++ b) = Str.contains c a || Str.contains c b.
Proof.
  induction a as [|x a IH]; simpl; [reflexivity|].
  destruct (Ascii.eqb x c); [reflexivity | exact IH].
Qed.

Lemma split_first_none (c : ascii) (s : string) :
  Str.split_first c s = None -> Str.contains c s = false.
Proof.
  induction s as [|x s IH]; simpl; [reflexivity|].
  destruct (Ascii.eqb x c); [discriminate|].
  destruct (Str.split_first c s) as [[h t]|]; [discriminate | auto].
Qed.

Lemma split_first_head (c : ascii) (s h t : string) :
  Str.split_first c s = Some (h, t) -> Str.contains c h = false.
Proof.
  revert h t. induction s as [|x s IH]; simpl; intros h t; [discriminate|].
  destruct (Ascii.eqb x c) eqn:Ex.
  - intros E; inversion E; reflexivity.
  - destruct (Str.split_first c s) as [[h' t']|]; [|discriminate].
    intros E; inversion E; subst. simpl. rewrite Ex. eapply IH; eauto.
Qed.

(** What precedes the first [?] or [#] has no [?], and neither has a part
    of it. *)
Lemma split_first_head_other (c d : ascii) (s h t : string) :
  Str.contains d s = false ->
  Str.split_first c s = Some (h, t) -> Str.contains d h = false.
Proof.
  revert h t. induction s as [|x s IH]; simpl; intros h t Hd; [discriminate|].
  destruct (Ascii.eqb x d) eqn:Exd; [discriminate|].
  destruct (Ascii.eqb x c).
  - intros E; inversion E; reflexivity.
  - destruct (Str.split_first c s) as [[h' t']|]; [|discriminate].
    intros E; inversion E; subst. simpl. rewrite Exd. eapply IH; eauto.
Qed.

Lemma break_head (p : ascii -> bool) (c : ascii) (s h t : string) :
  p c = true -> Str.break p s = (h, t) -> Str.contains c h = false.
Proof.
  intros Hp. revert h t. induction s as [|x s IH]; simpl; intros h t.
  - intros E; inversion E; reflexivity.
  - destruct (p x) eqn:Ex.
    + intros E; inversion E; reflexivity.
    + destruct (Str.break p s) as [h' t'].
      intros E; inversion E; subst. simpl.
      destruct (Ascii.eqb_spec x c) as [->|_]; [congruence|].
      eapply IH; eauto.
Qed.

Lemma scheme_char_lower (a : ascii) :
  urllib.scheme_char a = true -> Ascii.eqb (Str.lower_ascii a) "?" = false.
Proof.
  destruct a as [b0 b1 b2 b3 b4 b5 b6 b7].
  destruct b0, b1, b2, b3, b4, b5, b6, b7; vm_compute; congruence.
Qed.

Lemma scheme_lower_no_question (s : string) :
  Str.forallb urllib.scheme_char s = true ->
  Str.contains "?" (Str.lower s) = false.
Proof.
  induction s as [|a s IH]; simpl; [reflexivity|].
  intros H. apply andb_true_iff in H. destruct H as [Ha Hs].
  rewrite (scheme_char_lower a Ha). auto.
Qed.

(** No component that [get_base_url] keeps of a split url has a [?]. *)
Lemma urlsplit_no_question (u : string) (sr : urllib.SplitResult) :
  urllib.urlsplit bracketed_host_ok u EmptyString = Return sr ->
  Str.contains "?" (urllib.s_scheme sr) = false /\
  Str.contains "?" (urllib.s_netloc sr) = false /\
  Str.contains "?" (urllib.s_path sr) = false.
Proof.
  unfold urllib.urlsplit.
  set (url1 := urllib.remove_unsafe (Str.lstrip urllib.c0_control_or_space u)).
  change (urllib.remove_unsafe (Str.strip urllib.c0_control_or_space ""))
    with EmptyString.
  set (su := match Str.split_first ":" url1 with
             | Some (String a pre, rest) =>
                 if Str.is_ascii_alpha a &&
                    Str.forallb urllib.scheme_char (String a pre)
                 then (Str.lower (String a pre), rest)
                 else (EmptyString, url1)
             | _ => (EmptyString, url1)
             end).
  assert (Hsch : Str.contains "?" (fst su) = false).
  { unfold su. destruct (Str.split_first ":" url1) as [[[|a pre] rest]|];
      try reflexivity.
    destruct (Str.is_ascii_alpha a) eqn:Ea; simpl; [|reflexivity].
    destruct (urllib.scheme_char a && Str.forallb urllib.scheme_char pre)
      eqn:Ef; simpl; [|reflexivity].
    apply andb_true_iff in Ef. destruct Ef as [Ha Hp].
    rewrite (scheme_char_lower a Ha). apply scheme_lower_no_question; auto. }
  destruct su as [sch url3]. simpl in Hsch.
  set (nu := if Str.startswith "//" url3 then _ else _).
  assert (Hnl : forall nl rest, nu = Return (nl, rest) ->
                                Str.contains "?" nl = false).
  { unfold nu. intros nl rest.
    destruct (Str.startswith "//" url3).
    - unfold urllib._splitnetloc.
      destruct (Str.break _ (Str.drop 2 url3)) as [nl0 rest0] eqn:Eb.
      assert (Hq : Str.contains "?" nl0 = false).
      { eapply break_head; [|exact Eb]. reflexivity. }
      destruct ((Str.contains "[" nl0 && negb (Str.contains "]" nl0)) ||
                (Str.contains "]" nl0 && negb (Str.contains "[" nl0)));
        [discriminate|].
      destruct (Str.contains "[" nl0 && Str.contains "]" nl0).
      + destruct (urllib._check_bracketed_netloc bracketed_host_ok nl0);
          simpl; [|discriminate].
        intros E; inversion E; subst; exact Hq.
      + intros E; inversion E; subst; exact Hq.
    - intros E; inversion E; reflexivity. }
  destruct nu as [[nl rest]|e]; simpl; [|discriminate].
  specialize (Hnl nl rest eq_refl).
  destruct (Str.split_first "#" rest) as [[u1 f]|] eqn:Ef.
  - destruct (Str.split_first "?" u1) as [[u2 q]|] eqn:Eq;
      intros E; inversion E; subst; simpl; repeat split; auto.
    + eapply split_first_head; eauto.
    + apply split_first_none; exact Eq.
  - destruct (Str.split_first "?" rest) as [[u2 q]|] eqn:Eq;
      intros E; inversion E; subst; simpl; repeat split; auto.
    + eapply split_first_head; eauto.
    + apply split_first_none; exact Eq.
Qed.

Lemma urlunsplit_no_question (sch nl path : string) :
  Str.contains "?" sch = false -> Str.contains "?" nl = false ->
  Str.contains "?" path = false ->
  Str.contains "?" (urllib.urlunsplit sch nl path EmptyString EmptyString)
  = false.
Proof.
  intros Hs Hn Hp. unfold urllib.urlunsplit. simpl.
  repeat match goal with
         | |- context [if ?b then _ else _] => destruct b
         end;
    repeat first [rewrite contains_app | progress simpl];
    rewrite ?Hs, ?Hn, ?Hp; reflexivity.
Qed.

(** C6.  The url that [get_base_url] returns never has a query: it holds
    no [?] at all, so the query of the seed is dropped together with its
    fragment (the slice [[:3]] of line 121 keeps the scheme, the host and
    the path only), although the documentation of the function shows the
    query as kept. *)
Theorem get_base_url_has_no_query (base_url_string base_url : string) :
  get_base_url base_url_string = Return base_url ->
  Str.contains "?" base_url = false.
Proof.
  unfold get_base_url.
  destruct (urllib.urlsplit bracketed_host_ok _ EmptyString) as [sr|e] eqn:E;
    simpl; [|discriminate].
  intros H; inversion H; subst.
  destruct (urlsplit_no_question _ sr E) as (H1 & H2 & H3).
  apply urlunsplit_no_question; assumption.
Qed.

(** ** The link parser *)

Lemma fold_href_attrs (attrs : list (string * option string))
  (links : list (option string)) :
  fold_left (fun links (av : string * option string) =>
               if String.eqb (fst av) "href" then links ++ [snd av]
               else links) attrs links
  = links ++ List.map snd
               (List.filter (fun av => String.eqb (fst av) "href") attrs).
Proof.
  revert links. induction attrs as [|av attrs IH]; intros links; simpl.
  - rewrite app_nil_r. reflexivity.
  - rewrite IH. destruct (String.eqb (fst av) "href"); simpl.
    + rewrite <- app_assoc. reflexivity.
    + reflexivity.
Qed.

Lemma handle_starttag_appends (tag : string)
  (attrs : list (string * option string)) (links : list (option string)) :
  handle_starttag tag attrs links = links ++ hrefs_of_tag (tag, attrs).
Proof.
  unfold handle_starttag, hrefs_of_tag. simpl.
  destruct (String.eqb tag "a").
  - apply fold_href_attrs.
  - rewrite app_nil_r. reflexivity.
Qed.

(** X1.  [get_links] returns the values of the [href] attributes of the
    [a] start tags, in the order of the document and of the attributes
    within a tag, repetitions and valueless attributes included; other tags
    and other attributes contribute nothing. *)
Theorem get_links_in_document_order (page : string) :
  get_links page = List.flat_map hrefs_of_tag (starttags page).
Proof.
  unfold get_links.
  assert (H : forall tags acc,
             fold_left (fun links (ta : string * list (string * option string)) =>
                          handle_starttag (fst ta) (snd ta) links) tags acc
             = acc ++ List.flat_map hrefs_of_tag tags).
  { induction tags as [|[tag attrs] tags IH]; intros acc; simpl.
    - rewrite app_nil_r. reflexivity.
    - rewrite IH, handle_starttag_appends, <- app_assoc. reflexivity. }
  apply (H (starttags page) []).
Qed.

(** ** The results of the page fetcher *)

(** X2.  A result of [process_page] is for the url that was asked, and it
    is of one of two shapes: for a response, the status and final url of
    the response with an empty error; for an [HTTPError] or [URLError], no
    status, the message [Server error: ...] or [Network error: ...] with
    the reason, no links and an empty redirect. *)
Theorem process_page_result_shape (u : string) (c : bool) (r : ResponseResult) :
  process_page u c = Return r ->
  r_url r = u /\
  ((exists n rd cs g,
       urlopen u = Response (Some n) rd cs g /\
       r_status r = Some n /\ r_error r = EmptyString /\ r_redirect r = g) \/
   (exists reason,
       (urlopen u = HTTPError reason /\
        r_error r = ("Server error: " ++ reason)%string \/
        urlopen u = URLError reason /\
        r_error r = ("Network error: " ++ reason)%string) /\
       r_status r = None /\ r_links r = [] /\ r_redirect r = EmptyString)).
Proof.
  intros Hp. split; [eapply process_page_url; eauto|].
  unfold process_page in Hp.
  destruct (urlopen u) as [s rd cs g|reason|reason|e] eqn:E.
  - left. destruct s as [n|]; simpl in Hp; [|discriminate].
    exists n, rd, cs, g. split; [reflexivity|].
    destruct ((n <? 400)%Z && c); simpl in Hp.
    + destruct rd as [pg|e]; simpl in Hp; [|discriminate].
      destruct (decode pg _) as [pg'|e]; simpl in Hp; [|discriminate].
      inversion Hp; subst; simpl; auto.
    + inversion Hp; subst; simpl; auto.
  - right. exists reason. inversion Hp; subst; simpl. auto.
  - right. exists reason. inversion Hp; subst; simpl. auto.
  - discriminate.
Qed.

(** X3.  A result carries links only if the task asked for them and the
    status of the response is below 400, and then they are the links that
    [LinkParser] finds in the decoded body. *)
Theorem process_page_links_only_when_collecting (u : string) (c : bool)
  (r : ResponseResult) :
  process_page u c = Return r ->
  r_links r <> [] ->
  c = true /\
  exists n body cs g page,
    urlopen u = Response (Some n) (Return body) cs g /\ (n < 400)%Z /\
    decode body (match cs with
                 | Some cs => if Str.truthy cs then cs else "utf-8"
                 | None => "utf-8"
                 end) = Return page /\
    r_links r = get_links page.
Proof.
  unfold process_page.
  destruct (urlopen u) as [s rd cs g|reason|reason|e] eqn:E.
  - destruct s as [n|]; simpl; [|discriminate].
    destruct (n <? 400)%Z eqn:En; simpl.
    + destruct c; simpl.
      * destruct rd as [body|e]; simpl; [|discriminate].
        destruct (decode body _) as [page|e] eqn:Ed; simpl; [|discriminate].
        intros H _; inversion H; subst; simpl. split; [reflexivity|].
        exists n, body, cs, g, page. apply Z.ltb_lt in En. auto.
      * intros H Hne; inversion H; subst; simpl in Hne. contradiction.
    + intros H Hne; inversion H; subst; simpl in Hne. contradiction.
  - intros H Hne; inversion H; subst; simpl in Hne. contradiction.
  - intros H Hne; inversion H; subst; simpl in Hne. contradiction.
  - discriminate.
Qed.

(** ** Relative urls and urls of the same domain *)

(** X4.  [is_same_domain] does not depend on the order of its arguments,
    and it holds only of two urls that both have a host: a relative url is
    of the same domain as no url, not even itself. *)
Theorem is_same_domain_symmetric (u v : string) (b : bool) :
  is_same_domain u v = Return b ->
  is_same_domain v u = Return b /\
  (b = true -> is_relative u = Return false /\ is_relative v = Return false).
Proof.
  unfold is_same_domain, is_relative.
  destruct (urllib.urlparse bracketed_host_ok u EmptyString) as [pu|e];
    simpl; [|discriminate].
  destruct (urllib.urlparse bracketed_host_ok v EmptyString) as [pv|e];
    simpl; [|discriminate].
  intros H; inversion H; subst; clear H.
  destruct (String.eqb_spec (urllib.netloc pu) (urllib.netloc pv)) as [E|E].
  - rewrite E, String.eqb_refl. split; [reflexivity|].
    rewrite andb_true_r. intros Ht. rewrite Ht. auto.
  - assert (E' : String.eqb (urllib.netloc pv) (urllib.netloc pu) = false).
    { apply String.eqb_neq. congruence. }
    rewrite E', !andb_false_r. split; [reflexivity | discriminate].
Qed.

(** ** The scheme of the base url *)

Lemma startswith_app (p s : string) :
  Str.startswith p s = true -> exists rest, s = (p ++ rest)%string.
Proof.
  revert s. induction p as [|a p IH]; intros s; simpl.
  - intros _. exists s. reflexivity.
  - destruct s as [|b s]; [discriminate|].
    destruct (Ascii.eqb_spec a b) as [->|_]; [|discriminate].
    intros H. destruct (IH s H) as (rest & ->). exists rest. reflexivity.
Qed.

Lemma urlsplit_http_scheme (rest : string) (sr : urllib.SplitResult) :
  urllib.urlsplit bracketed_host_ok ("http://" ++ rest) EmptyString = Return sr ->
  urllib.s_scheme sr = "http".
Proof.
  unfold urllib.urlsplit.
  match goal with
  | |- (let (sch, url) := ?m in _) = _ -> _ =>
      change m with ("http", ("//" ++ urllib.remove_unsafe rest)%string)
  end.
  cbv iota beta.
  match goal with
  | |- rbind ?m _ = _ -> _ => destruct m as [[nl url]|e]
  end; simpl; [|discriminate].
  destruct (Str.split_first "#" url) as [[u1 f]|];
    [destruct (Str.split_first "?" u1) as [[u2 q]|]
    |destruct (Str.split_first "?" url) as [[u2 q]|]];
    intros H; inversion H; reflexivity.
Qed.

Lemma urlsplit_https_scheme (rest : string) (sr : urllib.SplitResult) :
  urllib.urlsplit bracketed_host_ok ("https://" ++ rest) EmptyString = Return sr ->
  urllib.s_scheme sr = "https".
Proof.
  unfold urllib.urlsplit.
  match goal with
  | |- (let (sch, url) := ?m in _) = _ -> _ =>
      change m with ("https", ("//" ++ urllib.remove_unsafe rest)%string)
  end.
  cbv iota beta.
  match goal with
  | |- rbind ?m _ = _ -> _ => destruct m as [[nl url]|e]
  end; simpl; [|discriminate].
  destruct (Str.split_first "#" url) as [[u1 f]|];
    [destruct (Str.split_first "?" u1) as [[u2 q]|]
    |destruct (Str.split_first "?" url) as [[u2 q]|]];
    intros H; inversion H; reflexivity.
Qed.

Lemma urlunsplit_http (nl path : string) :
  Str.startswith "http://"
    (urllib.urlunsplit "http" nl path EmptyString EmptyString) = true.
Proof.
  unfold urllib.urlunsplit.
  destruct (Str.truthy nl); destruct (Str.startswith "//" path) eqn:E;
    try reflexivity.
  exact E.
Qed.

Lemma urlunsplit_https (nl path : string) :
  Str.startswith "https://"
    (urllib.urlunsplit "https" nl path EmptyString EmptyString) = true.
Proof.
  unfold urllib.urlunsplit.
  destruct (Str.truthy nl); destruct (Str.startswith "//" path) eqn:E;
    try reflexivity.
  exact E.
Qed.

Lemma get_base_url_scheme (base_url_string base_url : string) :
  get_base_url base_url_string = Return base_url ->
  Str.startswith "http://" base_url || Str.startswith "https://" base_url
    = true /\
  (Str.startswith "https://" base_url_string = false ->
   Str.startswith "http://" base_url = true) /\
  Str.truthy base_url = true.
Proof.
  unfold get_base_url.
  assert (Hnonempty : forall p s, Str.startswith (String "h" p) s = true ->
                                  Str.truthy s = true).
  { intros p [|a s]; simpl; [discriminate | reflexivity]. }
  destruct (Str.startswith "http://" base_url_string) eqn:E1.
  - destruct (startswith_app _ _ E1) as (rest & ->). simpl negb. cbv iota.
    destruct (urllib.urlsplit bracketed_host_ok _ EmptyString) as [sr|e] eqn:E;
      cbn [rbind]; [|discriminate].
    intros H; inversion H; subst.
    rewrite (urlsplit_http_scheme _ _ E).
    pose proof (urlunsplit_http (urllib.s_netloc sr) (urllib.s_path sr)) as Hs.
    rewrite Hs. split; [reflexivity | split; [reflexivity|]].
    eapply Hnonempty; exact Hs.
  - destruct (Str.startswith "https://" base_url_string) eqn:E2.
    + destruct (startswith_app _ _ E2) as (rest & ->). simpl negb. cbv iota.
      destruct (urllib.urlsplit bracketed_host_ok _ EmptyString) as [sr|e] eqn:E;
        cbn [rbind]; [|discriminate].
      intros H; inversion H; subst.
      rewrite (urlsplit_https_scheme _ _ E).
      pose proof (urlunsplit_https (urllib.s_netloc sr) (urllib.s_path sr)) as Hs.
      rewrite Hs, orb_true_r. split; [reflexivity | split; [discriminate|]].
      eapply Hnonempty; exact Hs.
    + simpl negb. cbv iota.
      destruct (urllib.urlsplit bracketed_host_ok _ EmptyString) as [sr|e] eqn:E;
        cbn [rbind]; [|discriminate].
      intros H; inversion H; subst.
      rewrite (urlsplit_http_scheme _ _ E).
      pose proof (urlunsplit_http (urllib.s_netloc sr) (urllib.s_path sr)) as Hs.
      rewrite Hs. split; [reflexivity | split; [reflexivity|]].
      eapply Hnonempty; exact Hs.
Qed.

Lemma get_base_url_nonempty (base_url_string base_url : string) :
  get_base_url base_url_string = Return base_url ->
  Str.truthy base_url = true.
Proof. intros H. apply (get_base_url_scheme _ _ H). Qed.

(** X5.  The url that [get_base_url] returns starts with [http://] or
    [https://], whatever the seed: with [http://] when the seed starts with
    neither (a seed with another scheme, such as [ftp://x], becomes
    [http://ftp://x]).  In particular it is never empty. *)
Theorem get_base_url_starts_with_scheme (base_url_string base_url : string) :
  get_base_url base_url_string = Return base_url ->
  Str.startswith "http://" base_url || Str.startswith "https://" base_url
    = true /\
  (Str.startswith "https://" base_url_string = false ->
   Str.startswith "http://" base_url = true) /\
  Str.truthy base_url = true.
Proof.
  apply get_base_url_scheme.
Qed.

Lemma hoare_any {A : Type} (m : M A) :
  hoare (fun _ => True) m (fun _ _ => True) (fun _ => True).
Proof. intros st _. destruct (m st) as [st' [a| | |]]; exact I. Qed.

Lemma crawl_returns_0 (fuel : nat) (base root : string) (st st' : State)
  (code : Z) :
  crawl fuel base root st = (st', Done code) -> code = 0%Z.
Proof.
  assert (H : hoare (fun _ => True) (crawl fuel base root)
                    (fun code _ => code = 0%Z) (fun _ => True)).
  { unfold crawl.
    repeat (apply hoare_bind with (Q := fun _ _ => True);
            [apply hoare_any | intros ?]).
    apply hoare_ret. reflexivity. }
  intros E. specialize (H st I). rewrite E in H. exact H.
Qed.

(** X6.  [main] never takes its exit with status 1: the test
    [if not base_url] of line 177 cannot succeed, so the line
    [Incorrect url - ...] is never printed.  [main] either returns 0,
    or ends by an exception of the url functions, or does not return. *)
Theorem main_never_returns_1 (fuel : nat) (base_url_string : string)
  (st st' : State) (code : Z) :
  main fuel base_url_string st = (st', Done code) -> code = 0%Z.
Proof.
  rewrite main_eq.
  destruct (get_base_url base_url_string) as [base|e] eqn:E; [|discriminate].
  rewrite (get_base_url_nonempty _ _ E).
  destruct (get_root_url base) as [root|e']; [|discriminate].
  apply crawl_returns_0.
Qed.

(** ** What the run does to the dictionary *)

Lemma processed_urls_workers (l : list nat) (st : State) :
  processed_urls (workers l st) = processed_urls st.
Proof.
  unfold workers. revert st. induction l as [|i l IH]; simpl; intros st.
  - reflexivity.
  - rewrite IH. unfold run_task.
    destruct (live_workers st); [reflexivity|].
    destruct (nth_error (task_queue st) i); [|reflexivity].
    destruct (process_page _ _); reflexivity.
Qed.

Lemma processed_urls_join (st : State) :
  processed_urls (fst (join st)) = processed_urls st.
Proof.
  rewrite join_state, processed_urls_workers.
  unfold schedule, modify. simpl. apply processed_urls_workers.
Qed.

Section Assignments.

(** Only assignments change the dictionary, so a property that every
    assignment keeps holds all along a run. *)
Variable Phi : Frontier -> Prop.

Hypothesis Phi_kept : kept_by_assignment Phi.

Local Abbreviation holds := (dict_holds Phi).

Lemma hoare_dict_frame {A : Type} (m : M A) :
  (forall st, processed_urls (fst (m st)) = processed_urls st) ->
  hoare holds m (fun _ => holds) holds.
Proof.
  intros H st Hst. specialize (H st). unfold dict_holds in *.
  destruct (m st) as [st' [a| | |]]; simpl in H; rewrite H; exact Hst.
Qed.

Lemma hoare_dict_assign (k : string) (v : option Data) :
  hoare holds (assign k v) (fun _ => holds) holds.
Proof. intros st Hst. unfold dict_holds in *. simpl. apply Phi_kept. exact Hst. Qed.

Lemma hoare_dict_process_link (root : string) (result : ResponseResult)
  (link : option string) :
  hoare holds (process_link root result link) (fun _ => holds) holds.
Proof.
  intros st Hst. rewrite process_link_eq.
  destruct (resolve_link result link) as [[u|]|e]; auto.
  destruct (Dict.mem u (processed_urls st)); auto.
  destruct (is_same_domain u root); unfold dict_holds in *; simpl;
    apply Phi_kept; exact Hst.
Qed.

Lemma hoare_dict_process_result (root : string) (result : ResponseResult) :
  hoare holds (process_result root result) (fun _ => holds) holds.
Proof.
  unfold process_result.
  apply hoare_bind with (Q := fun _ => holds); [apply hoare_dict_assign|].
  intros _. apply hoare_bind with (Q := fun _ => holds).
  { destruct (Str.truthy (r_redirect result)).
    - apply hoare_dict_assign.
    - apply hoare_ret; auto. }
  intros _. apply hoare_bind with (Q := fun _ => holds);
    [apply hoare_dict_assign|].
  intros _. apply hoare_for_each. intros link _.
  apply hoare_dict_process_link.
Qed.

Lemma hoare_dict_schedule : hoare holds schedule (fun _ => holds) holds.
Proof.
  apply hoare_dict_frame. intros st. unfold schedule, modify. simpl.
  apply processed_urls_workers.
Qed.

Lemma hoare_dict_drain (fuel : nat) (root : string) :
  hoare holds (drain fuel root) (fun _ => holds) holds.
Proof.
  induction fuel as [|fuel IH]; simpl.
  - intros st H. exact H.
  - apply hoare_bind with (Q := fun _ => holds); [apply hoare_dict_schedule|].
    intros _. apply hoare_bind with (Q := fun _ => holds).
    { apply hoare_dict_frame. intros st. unfold get_result.
      destruct (result_queue st); reflexivity. }
    intros [result|].
    + apply hoare_bind with (Q := fun _ => holds);
        [apply hoare_dict_process_result | intros _; exact IH].
    + apply hoare_ret; auto.
Qed.

Lemma hoare_dict_main_loop (fuel : nat) (root : string) :
  hoare holds (main_loop fuel root) (fun _ => holds) holds.
Proof.
  induction fuel as [|fuel IH]; simpl.
  - intros st H. exact H.
  - apply hoare_bind with (Q := fun _ => holds).
    { apply hoare_dict_frame. reflexivity. }
    intros b. destruct b; [|apply hoare_ret; auto].
    apply hoare_bind with (Q := fun _ => holds).
    { apply hoare_dict_frame. reflexivity. }
    intros _. apply hoare_bind with (Q := fun _ => holds).
    { apply hoare_dict_frame. reflexivity. }
    intros _. apply hoare_bind with (Q := fun _ => holds);
      [apply hoare_dict_drain|].
    intros _. apply hoare_bind with (Q := fun _ => holds).
    { apply hoare_dict_frame. apply processed_urls_join. }
    intros _. exact IH.
Qed.

Lemma hoare_dict_print_results (d : Frontier) :
  hoare holds (print_results d) (fun _ => holds) holds.
Proof.
  unfold print_results.
  apply hoare_bind with (Q := fun _ => holds).
  { apply hoare_dict_frame. reflexivity. }
  intros _. apply hoare_for_each. intros [k [data|]] _; simpl.
  - apply hoare_bind with (Q := fun _ => holds).
    { apply hoare_dict_frame. intros st. unfold lift.
      destruct (is_bad data); reflexivity. }
    intros bad. destruct bad.
    + apply hoare_dict_frame. reflexivity.
    + apply hoare_ret; auto.
  - apply hoare_ret; auto.
Qed.

Lemma hoare_dict_crawl (fuel : nat) (base root : string) :
  hoare holds (crawl fuel base root) (fun _ => holds) holds.
Proof.
  unfold crawl.
  apply hoare_bind with (Q := fun _ => holds).
  { apply hoare_dict_frame. reflexivity. }
  intros _. apply hoare_bind with (Q := fun _ => holds).
  { apply hoare_dict_frame. apply processed_urls_join. }
  intros _. apply hoare_bind with (Q := fun _ => holds).
  { apply hoare_dict_frame. reflexivity. }
  intros _. apply hoare_bind with (Q := fun _ => holds);
    [apply hoare_dict_main_loop|].
  intros _. apply hoare_bind with (Q := fun _ => holds).
  { apply hoare_for_each. intros _ _. apply hoare_dict_frame. reflexivity. }
  intros _. apply hoare_bind with (Q := fun _ => holds).
  { apply hoare_dict_frame. reflexivity. }
  intros d. apply hoare_bind with (Q := fun _ => holds);
    [apply hoare_dict_print_results|].
  intros _. apply hoare_ret; auto.
Qed.

Lemma main_keeps (fuel : nat) (base_url_string : string) (st : State) :
  Phi (processed_urls st) ->
  Phi (processed_urls (fst (main fuel base_url_string st))).
Proof.
  intros H. rewrite main_eq.
  destruct (get_base_url base_url_string) as [base|e]; [|exact H].
  destruct (Str.truthy base); [|exact H].
  destruct (get_root_url base) as [root|e]; [|exact H].
  apply (hoare_fst holds holds); [apply hoare_dict_crawl | exact H].
Qed.

Lemma main_loop_keeps (fuel : nat) (root : string) (st : State) :
  Phi (processed_urls st) ->
  Phi (processed_urls (fst (main_loop fuel root st))).
Proof.
  intros H. apply (hoare_fst holds holds);
    [apply hoare_dict_main_loop | exact H].
Qed.

End Assignments.

Lemma NoDup_keys_set (k : string) (v : option Data) (d : Frontier) :
  NoDup (Dict.keys d) -> NoDup (Dict.keys (Dict.set k v d)).
Proof.
  induction d as [|[k' v'] d IH]; simpl; intros H.
  - constructor; [intros [] | constructor].
  - inversion H as [|? ? Hn Hd]; subst.
    destruct (String.eqb_spec k' k) as [->|Hne]; simpl.
    + constructor; assumption.
    + constructor; [|apply IH; exact Hd].
      intros Hin. apply dict_keys_set in Hin.
      destruct Hin as [E|Hin]; [congruence | contradiction].
Qed.

(** X7.  No turn of the loop of [main] removes an entry of
    [processed_urls]: a url that is a key when the loop is entered is a key
    whenever and however the loop ends. *)
Theorem keys_are_never_removed (fuel : nat) (root : string) (st : State)
  (k : string) :
  In k (Dict.keys (processed_urls st)) ->
  In k (Dict.keys (processed_urls (fst (main_loop fuel root st)))).
Proof.
  apply (main_loop_keeps (fun d => In k (Dict.keys d))).
  intros k' v d H. apply dict_keys_set. right. exact H.
Qed.

(** X8.  In every run the urls recorded in [processed_urls] are pairwise
    distinct, so the reporter meets every url at most once. *)
Theorem recorded_urls_are_distinct (fuel : nat) (base_url_string : string) :
  NoDup (Dict.keys
           (processed_urls (fst (main fuel base_url_string initial_state)))).
Proof.
  apply (main_keeps (fun d => NoDup (Dict.keys d))).
  - intros k v d H. apply NoDup_keys_set. exact H.
  - constructor.
Qed.

(** ** The workers and the queues *)

Ltac split_effect := split; [|split; [|split; [|split; [|split]]]].

Lemma run_task_effect (i : nat) (st : State) :
  exists rs ds,
    result_queue (run_task i st) = result_queue st ++ rs /\
    dead (run_task i st) = dead st ++ ds /\
    length (task_queue (run_task i st)) + length rs + length ds
      = length (task_queue st) /\
    (forall t, In t (task_queue (run_task i st)) -> In t (task_queue st)) /\
    (forall r, In r rs -> fetched_from (task_queue st) r) /\
    (forall t, In t ds -> died_on (task_queue st) t).
Proof.
  assert (Hsame : exists rs ds : list Task,
            result_queue st = result_queue st ++ [] /\
            dead st = dead st ++ ds /\
            length (task_queue st) + 0 + length ds = length (task_queue st) /\
            (forall t, In t (task_queue st) -> In t (task_queue st)) /\
            (forall r : ResponseResult,
                In r [] -> fetched_from (task_queue st) r) /\
            (forall t, In t ds -> died_on (task_queue st) t)).
  { exists [], []. rewrite !app_nil_r.
    split_effect; auto; try (simpl; lia); intros x []. }
  unfold run_task.
  destruct (live_workers st);
    [destruct Hsame as (_ & ds & H); exists [], ds; exact H|].
  clear Hsame.
  destruct (nth_error (task_queue st) i) as [task|] eqn:En.
  - pose proof (length_remove_nth i _ task En) as Hl.
    pose proof (nth_error_In _ _ En) as Hin.
    destruct (process_page (url task) (collect_links task)) as [r|e] eqn:Ep.
    + exists [r], []. simpl. rewrite app_nil_r. split_effect; auto.
      * lia.
      * intros t Ht. eapply in_remove_nth; eauto.
      * intros r' [<-|[]]. exists task. auto.
      * intros t [].
    + exists [], [task]. simpl. rewrite app_nil_r. split_effect; auto.
      * lia.
      * intros t Ht. eapply in_remove_nth; eauto.
      * intros r' [].
      * intros t [<-|[]]. split; [exact Hin | eauto].
  - exists [], []. simpl. rewrite !app_nil_r.
    split_effect; auto; try (simpl; lia); intros x [].
Qed.

Lemma workers_effect (l : list nat) (st : State) :
  exists rs ds,
    result_queue (workers l st) = result_queue st ++ rs /\
    dead (workers l st) = dead st ++ ds /\
    length (task_queue (workers l st)) + length rs + length ds
      = length (task_queue st) /\
    (forall t, In t (task_queue (workers l st)) -> In t (task_queue st)) /\
    (forall r, In r rs -> fetched_from (task_queue st) r) /\
    (forall t, In t ds -> died_on (task_queue st) t).
Proof.
  unfold workers. revert st. induction l as [|i l IH]; intros st; simpl.
  - exists [], []. rewrite !app_nil_r. simpl.
    split_effect; auto; try (simpl; lia); intros x [].
  - destruct (run_task_effect i st)
      as (rs1 & ds1 & Hr1 & Hd1 & Hl1 & Hq1 & Hf1 & Hx1).
    destruct (IH (run_task i st))
      as (rs2 & ds2 & Hr2 & Hd2 & Hl2 & Hq2 & Hf2 & Hx2).
    exists (rs1 ++ rs2), (ds1 ++ ds2).
    rewrite Hr2, Hr1, Hd2, Hd1, <- !app_assoc, !length_app.
    split_effect; auto.
    + lia.
    + intros r Hr. apply in_app_iff in Hr. destruct Hr as [Hr|Hr]; auto.
      destruct (Hf2 r Hr) as (t & Ht & Hp). exists t. auto.
    + intros t Ht. apply in_app_iff in Ht. destruct Ht as [Ht|Ht]; auto.
      destruct (Hx2 t Ht) as (Hin & He). split; [auto | exact He].
Qed.

(** What [task_queue.join()] does to the queues. *)
Lemma join_effect (st : State) :
  exists rs ds,
    result_queue (fst (join st)) = result_queue st ++ rs /\
    dead (fst (join st)) = dead st ++ ds /\
    length (task_queue (fst (join st))) + length rs + length ds
      = length (task_queue st) /\
    (forall t, In t (task_queue (fst (join st))) -> In t (task_queue st)) /\
    (task_queue (fst (join st)) = [] \/ live_workers (fst (join st)) = 0) /\
    (forall r, In r rs -> fetched_from (task_queue st) r) /\
    (forall t, In t ds -> died_on (task_queue st) t) /\
    (snd (join st) = Done tt <-> dead st ++ ds = []) /\
    (snd (join st) <> Done tt -> snd (join st) = Blocked).
Proof.
  destruct (workers_effect (arrivals (clock st)) st)
    as (rs1 & ds1 & Hr1 & Hd1 & Hl1 & Hq1 & Hf1 & Hx1).
  remember (fst (schedule st)) as st1 eqn:E1.
  assert (Hq : task_queue st1 = task_queue (workers (arrivals (clock st)) st))
    by (subst st1; reflexivity).
  assert (Hrq : result_queue st1 = result_queue st ++ rs1)
    by (subst st1; exact Hr1).
  assert (Hdq : dead st1 = dead st ++ ds1) by (subst st1; exact Hd1).
  destruct (workers_effect (repeat 0 (length (task_queue st1))) st1)
    as (rs2 & ds2 & Hr2 & Hd2 & Hl2 & Hq2 & Hf2 & Hx2).
  pose proof (workers_finish_all (length (task_queue st1)) st1 (le_n _))
    as Hend.
  remember (workers (repeat 0 (length (task_queue st1))) st1) as st2 eqn:E2.
  assert (Ej : join st = match dead st2 with
                         | [] => (st2, Done tt)
                         | _ :: _ => (st2, Blocked)
                         end) by (subst st2 st1; reflexivity).
  assert (Ef : fst (join st) = st2)
    by (rewrite Ej; destruct (dead st2); reflexivity).
  rewrite Hq in Hl2.
  exists (rs1 ++ rs2), (ds1 ++ ds2). rewrite Ef.
  rewrite Hr2, Hrq, Hd2, Hdq, <- !app_assoc, !length_app.
  split; [reflexivity|]. split; [reflexivity|]. split; [lia|].
  split; [|split; [exact Hend|]].
  { intros t Ht. apply Hq1. rewrite <- Hq. apply Hq2. exact Ht. }
  split; [|split; [|split]].
  - intros r Hr. apply in_app_iff in Hr. destruct Hr as [Hr|Hr]; auto.
    destruct (Hf2 r Hr) as (t & Ht & Hp). exists t. split; [|exact Hp].
    apply Hq1. rewrite <- Hq. exact Ht.
  - intros t Ht. apply in_app_iff in Ht. destruct Ht as [Ht|Ht]; auto.
    destruct (Hx2 t Ht) as (Hin & He). split; [|exact He].
    apply Hq1. rewrite <- Hq. exact Hin.
  - rewrite Ej, Hd2, Hdq, <- app_assoc.
    destruct (dead st ++ ds1 ++ ds2); split; auto; discriminate.
  - rewrite Ej. destruct (dead st2); [intros H; contradiction | reflexivity].
Qed.

(** When [task_queue.join()] returns, no task is left and no worker has
    died. *)
Lemma join_returns_empty (st st' : State) :
  join st = (st', Done tt) -> task_queue st' = [] /\ dead st' = [].
Proof.
  intros Ej.
  destruct (join_effect st)
    as (rs & ds & _ & Hd & _ & _ & Hend & _ & _ & Hdone & _).
  rewrite Ej in *. simpl in *.
  assert (Hdd : dead st' = []) by (rewrite Hd; apply Hdone; reflexivity).
  split; [|exact Hdd].
  destruct Hend as [Hq|Hw]; [exact Hq|].
  apply some_worker_died in Hw. contradiction.
Qed.


(** ** The loop ends only when nothing is left to do *)

Lemma stop_signals_workers (l : list nat) (st : State) :
  stop_signals (workers l st) = stop_signals st.
Proof.
  unfold workers. revert st. induction l as [|i l IH]; simpl; intros st.
  - reflexivity.
  - rewrite IH. unfold run_task.
    destruct (live_workers st); [reflexivity|].
    destruct (nth_error (task_queue st) i); [|reflexivity].
    destruct (process_page _ _); reflexivity.
Qed.

Lemma workers_nothing_to_do (l : list nat) (st : State) :
  task_queue st = [] -> workers l st = st.
Proof.
  intros H. unfold workers. induction l as [|i l IH]; simpl; [reflexivity|].
  unfold run_task at 2. rewrite H.
  destruct (live_workers st); [exact IH|]. destruct i; simpl; exact IH.
Qed.

Lemma join_keeps_flags (st : State) :
  has_tasks (fst (join st)) = has_tasks st /\
  stop_signals (fst (join st)) = stop_signals st.
Proof.
  rewrite join_state, has_tasks_workers, stop_signals_workers.
  unfold schedule, modify. simpl.
  rewrite has_tasks_workers, stop_signals_workers. auto.
Qed.

Lemma idle_frame (st st' : State) :
  stop_signals st' = stop_signals st -> task_queue st' = task_queue st ->
  dead st' = dead st -> has_tasks st' = has_tasks st ->
  idle_unless_new st -> idle_unless_new st'.
Proof.
  intros E1 E2 E3 E4 H. unfold idle_unless_new in *.
  rewrite E1, E2, E3, E4. exact H.
Qed.

Lemma hoare_idle_schedule :
  hoare idle_unless_new schedule (fun _ => idle_unless_new) (fun _ => True).
Proof.
  intros st [Hs Hi]. simpl. split; simpl.
  - rewrite stop_signals_workers. exact Hs.
  - rewrite has_tasks_workers. intros Hf. destruct (Hi Hf) as [Ht Hd].
    rewrite workers_nothing_to_do by exact Ht. auto.
Qed.

Lemma hoare_idle_get_result :
  hoare idle_unless_new get_result
        (fun next st => idle_unless_new st /\
                        (next = None -> result_queue st = []))
        (fun _ => True).
Proof.
  intros st H. unfold get_result.
  destruct (result_queue st) as [|r q] eqn:Eq; simpl.
  - auto.
  - split; [|discriminate].
    eapply idle_frame; [| | | |exact H]; reflexivity.
Qed.

Lemma hoare_idle_process_link (root : string) (result : ResponseResult)
  (link : option string) :
  hoare idle_unless_new (process_link root result link)
        (fun _ => idle_unless_new) (fun _ => True).
Proof.
  intros st H. rewrite process_link_eq.
  destruct (resolve_link result link) as [[u|]|e]; auto.
  destruct (Dict.mem u (processed_urls st)); auto.
  destruct (is_same_domain u root); [|exact I].
  destruct H as [Hs _]. split; simpl; [exact Hs | discriminate].
Qed.

Lemma hoare_idle_assign (k : string) (v : option Data) :
  hoare idle_unless_new (assign k v) (fun _ => idle_unless_new)
        (fun _ => True).
Proof.
  apply hoare_modify. intros st H.
  eapply idle_frame; [| | | |exact H]; reflexivity.
Qed.

Lemma hoare_idle_process_result (root : string) (result : ResponseResult) :
  hoare idle_unless_new (process_result root result)
        (fun _ => idle_unless_new) (fun _ => True).
Proof.
  unfold process_result.
  apply hoare_bind with (Q := fun _ => idle_unless_new);
    [apply hoare_idle_assign|].
  intros _. apply hoare_bind with (Q := fun _ => idle_unless_new).
  { destruct (Str.truthy (r_redirect result)).
    - apply hoare_idle_assign.
    - apply hoare_ret; auto. }
  intros _. apply hoare_bind with (Q := fun _ => idle_unless_new);
    [apply hoare_idle_assign|].
  intros _. apply hoare_for_each. intros link _.
  apply hoare_idle_process_link.
Qed.

Lemma hoare_idle_drain (fuel : nat) (root : string) :
  hoare idle_unless_new (drain fuel root)
        (fun _ st => idle_unless_new st /\ result_queue st = [])
        (fun _ => True).
Proof.
  induction fuel as [|fuel IH]; simpl.
  - intros st H. exact I.
  - apply hoare_bind with (Q := fun _ => idle_unless_new);
      [apply hoare_idle_schedule|].
    intros _. eapply hoare_bind; [apply hoare_idle_get_result|].
    intros [result|].
    + apply hoare_bind with (Q := fun _ => idle_unless_new).
      * eapply hoare_conseq; [apply hoare_idle_process_result| | |]; auto.
        intros st [H _]; exact H.
      * intros _. exact IH.
    + apply hoare_ret. intros st [H E]. auto.
Qed.

Lemma hoare_settle_join :
  hoare (fun st => idle_unless_new st /\ result_queue st = []) join
        (fun _ => settled) (fun _ => True).
Proof.
  intros st [[Hs Hi] Hr].
  destruct (join_effect st) as (rs & ds & Hrq & _ & Hl & _).
  destruct (join_keeps_flags st) as [Hh Hst].
  destruct (join st) as [st' [[]| | |]] eqn:Ej; try exact I.
  destruct (join_returns_empty st st' Ej) as [Ht Hd].
  simpl in *. unfold settled. rewrite Ht, Hd, Hst, Hh, Hrq, Hr.
  split; [reflexivity|]. split; [reflexivity|]. split; [exact Hs|].
  intros Hf. destruct (Hi Hf) as [Hq _]. rewrite Hq in Hl. simpl in Hl.
  destruct rs; [reflexivity | simpl in Hl; lia].
Qed.

Lemma hoare_settled_main_loop (fuel : nat) (root : string) :
  hoare settled (main_loop fuel root)
        (fun _ st => settled st /\ has_tasks st = false) (fun _ => True).
Proof.
  induction fuel as [|fuel IH]; simpl.
  - intros st H. exact I.
  - eapply hoare_bind; [apply hoare_gets|]. intros b. destruct b.
    + apply hoare_bind with (Q := fun _ => idle_unless_new).
      { apply hoare_modify. intros st [(Ht & Hd & Hs & _) _].
        split; simpl; auto. }
      intros _. apply hoare_bind with (Q := fun _ => idle_unless_new).
      { apply hoare_modify. intros st H.
        eapply idle_frame; [| | | |exact H]; reflexivity. }
      intros _. eapply hoare_bind; [apply hoare_idle_drain|].
      intros ?. apply hoare_bind with (Q := fun _ => settled);
        [apply hoare_settle_join|].
      intros _. exact IH.
    + apply hoare_ret. intros st [H E]. auto.
Qed.

Lemma at_rest_frame (k : nat) (st st' : State) :
  task_queue st' = task_queue st -> result_queue st' = result_queue st ->
  dead st' = dead st -> stop_signals st' = stop_signals st ->
  at_rest k st -> at_rest k st'.
Proof.
  intros E1 E2 E3 E4 H. unfold at_rest in *. rewrite E1, E2, E3, E4. exact H.
Qed.

Lemma hoare_rest_put_stops (l : list nat) :
  forall k, hoare (at_rest k) (for_each l (fun _ => put_stop))
                  (fun _ => at_rest (k + length l)) (fun _ => True).
Proof.
  induction l as [|x l IH]; intros k; simpl.
  - apply hoare_ret. intros st H. rewrite Nat.add_0_r. exact H.
  - apply hoare_bind with (Q := fun _ => at_rest (S k)).
    + apply hoare_modify. intros st (H1 & H2 & H3 & H4).
      unfold at_rest; simpl. rewrite H4. auto.
    + intros _. eapply hoare_conseq; [apply (IH (S k))|auto| |auto].
      intros a st H. simpl in H.
      replace (k + S (length l)) with (S k + length l) by lia. exact H.
Qed.

Lemma hoare_rest_print_results (k : nat) (d : Frontier) :
  hoare (at_rest k) (print_results d) (fun _ => at_rest k) (fun _ => True).
Proof.
  assert (Hprint : forall line,
             hoare (at_rest k) (print line) (fun _ => at_rest k)
                   (fun _ => True)).
  { intros line. apply hoare_modify. intros st H.
    eapply at_rest_frame; [| | | |exact H]; reflexivity. }
  unfold print_results.
  apply hoare_bind with (Q := fun _ => at_rest k); [apply Hprint|].
  intros _. apply hoare_for_each. intros [key [data|]] _; simpl.
  - apply hoare_bind with (Q := fun _ => at_rest k).
    { eapply hoare_conseq; [apply (hoare_lift (is_bad data) (at_rest k))| | |];
        auto. intros a st [H _]; exact H. }
    intros bad. destruct bad; [apply Hprint | apply hoare_ret; auto].
  - apply hoare_ret; auto.
Qed.

Lemma hoare_rest_crawl (fuel : nat) (base root : string) :
  hoare (fun st => st = initial_state) (crawl fuel base root)
        (fun _ => at_rest THREADS_NUM) (fun _ => True).
Proof.
  unfold crawl.
  apply hoare_bind with (Q := fun _ st => stop_signals st = 0).
  { apply hoare_modify. intros st ->. reflexivity. }
  intros _.
  apply hoare_bind with
    (Q := fun _ st => task_queue st = [] /\ dead st = [] /\ stop_signals st = 0).
  { intros st Hs.
    destruct (join_keeps_flags st) as [_ Hst].
    destruct (join st) as [st' [[]| | |]] eqn:Ej; try exact I.
    destruct (join_returns_empty st st' Ej) as [Ht Hd].
    simpl in *. rewrite Hst.
    split; [exact Ht | split; [exact Hd | exact Hs]]. }
  intros _. apply hoare_bind with (Q := fun _ => settled).
  { apply hoare_modify. intros st (Ht & Hd & Hs).
    unfold settled; simpl. repeat split; auto. discriminate. }
  intros _. eapply hoare_bind; [apply hoare_settled_main_loop|].
  intros ?. apply hoare_bind with (Q := fun _ => at_rest THREADS_NUM).
  { eapply hoare_conseq;
      [apply (hoare_rest_put_stops (seq 0 THREADS_NUM) 0)
      |intros st [(Ht & Hd & Hs & Hr) Hf]; unfold at_rest; auto
      |intros x st H; exact H
      |auto]. }
  intros _. eapply hoare_bind; [apply hoare_gets|].
  intros d. apply hoare_bind with (Q := fun _ => at_rest THREADS_NUM).
  { eapply hoare_conseq;
      [apply (hoare_rest_print_results THREADS_NUM d)
      |intros st [H _]; exact H | auto | auto]. }
  intros _. apply hoare_ret; auto.
Qed.

Lemma main_at_rest (fuel : nat) (base_url_string : string)
  (st : State) (code : Z) :
  main fuel base_url_string initial_state = (st, Done code) ->
  at_rest THREADS_NUM st.
Proof.
  rewrite main_eq.
  destruct (get_base_url base_url_string) as [base|e] eqn:E; [|discriminate].
  rewrite (get_base_url_nonempty _ _ E).
  destruct (get_root_url base) as [root|e']; [|discriminate].
  intros Hc. pose proof (hoare_rest_crawl fuel base root initial_state eq_refl)
    as H.
  rewrite Hc in H. exact H.
Qed.

(** X10.  [main] returns only when nothing is left to do: every task that
    was put has been run and its result taken from the result queue, no
    worker has died, and one stop signal per worker has been sent. *)
Theorem main_returns_at_rest (fuel : nat) (base_url_string : string)
  (st : State) (code : Z) :
  main fuel base_url_string initial_state = (st, Done code) ->
  at_rest THREADS_NUM st.
Proof.
  apply main_at_rest.
Qed.

(** ** Tasks and outcomes in the dictionary *)

Lemma main_tracked (fuel : nat) (base_url_string : string) :
  exists base_url root_url,
    tracked base_url root_url (fst (main fuel base_url_string initial_state)).
Proof.
  assert (H0 : forall base root, tracked base root initial_state).
  { intros base root. split; [apply inv_initial|]. split.
    - left. intros t [].
    - intros k data []. }
  rewrite main_eq.
  destruct (get_base_url base_url_string) as [base|e].
  - destruct (Str.truthy base).
    + destruct (get_root_url base) as [root|e].
      * exists base, root.
        pose proof (hoare_tracked_crawl base root fuel initial_state eq_refl)
          as H.
        destruct (crawl fuel base root initial_state) as [st' [a| | |]];
          exact H.
      * exists base, EmptyString. apply H0.
    + exists base, EmptyString. simpl.
      eapply tracked_frame; [| | | | |apply H0]; reflexivity.
  - exists EmptyString, EmptyString. apply H0.
Qed.

(** X11.  When [main] returns, every url for which a task was put, the
    seed first, is a key of [processed_urls]: no fetch is left out of the
    dictionary handed to the reporter. *)
Theorem every_task_is_recorded (fuel : nat) (base_url_string : string)
  (st : State) (code : Z) (t : Task) :
  main fuel base_url_string initial_state = (st, Done code) ->
  In t (created st) ->
  In (url t) (Dict.keys (processed_urls st)).
Proof.
  intros Hm Hin.
  destruct (main_at_rest _ _ _ _ Hm) as (Ht & Hr & Hd & _).
  destruct (main_tracked fuel base_url_string) as (base & root & _ & Hb & _).
  rewrite Hm in Hb. simpl in Hb.
  destruct Hb as [Hc|[Hb|[Hb|Hb]]]; try contradiction.
  apply Hc. exact Hin.
Qed.

(** X12.  At every point of every run, an outcome stored in
    [processed_urls] under a url is the status and error of a result that
    [process_page] returns for that very url: no outcome is filed under the
    url of another page. *)
Theorem outcome_belongs_to_its_url (fuel : nat) (base_url_string : string)
  (k : string) (data : Data) :
  In (k, Some data)
     (processed_urls (fst (main fuel base_url_string initial_state))) ->
  exists c r, process_page k c = Return r /\
              data = mkData (r_status r) (r_error r).
Proof.
  destruct (main_tracked fuel base_url_string) as (base & root & _ & _ & Hown).
  apply Hown.
Qed.

(** ** What a run prints *)

Lemma stdout_workers (l : list nat) (st : State) :
  stdout (workers l st) = stdout st.
Proof.
  unfold workers. revert st. induction l as [|i l IH]; simpl; intros st.
  - reflexivity.
  - rewrite IH. unfold run_task.
    destruct (live_workers st); [reflexivity|].
    destruct (nth_error (task_queue st) i); [|reflexivity].
    destruct (process_page _ _); reflexivity.
Qed.

Lemma stdout_print_all (lines : list string) (st : State) :
  stdout (print_all lines st) = stdout st ++ lines.
Proof.
  unfold print_all. revert st.
  induction lines as [|x l IH]; intros st; simpl.
  - rewrite app_nil_r. reflexivity.
  - rewrite IH. simpl. rewrite <- app_assoc. reflexivity.
Qed.

Lemma processed_urls_print_all (lines : list string) (st : State) :
  processed_urls (print_all lines st) = processed_urls st.
Proof.
  unfold print_all. revert st.
  induction lines as [|x l IH]; intros st; simpl; [reflexivity|].
  rewrite IH. reflexivity.
Qed.

Lemma hoare_silent_frame {A : Type} (m : M A) :
  (forall st, stdout (fst (m st)) = stdout st) ->
  hoare silent m (fun _ => silent) silent.
Proof.
  intros H st Hst. specialize (H st). unfold silent in *.
  destruct (m st) as [st' [a| | |]]; simpl in H; rewrite H; exact Hst.
Qed.

Lemma hoare_silent_schedule : hoare silent schedule (fun _ => silent) silent.
Proof.
  apply hoare_silent_frame. intros st. unfold schedule, modify. simpl.
  apply stdout_workers.
Qed.

Lemma hoare_silent_join : hoare silent join (fun _ => silent) silent.
Proof.
  apply hoare_silent_frame. intros st.
  rewrite join_state, stdout_workers.
  unfold schedule, modify. simpl. apply stdout_workers.
Qed.

Lemma hoare_silent_process_link (root : string) (result : ResponseResult)
  (link : option string) :
  hoare silent (process_link root result link) (fun _ => silent) silent.
Proof.
  apply hoare_silent_frame. intros st. rewrite process_link_eq.
  destruct (resolve_link result link) as [[u|]|e]; try reflexivity.
  destruct (Dict.mem u (processed_urls st)); try reflexivity.
  destruct (is_same_domain u root); reflexivity.
Qed.

Lemma hoare_silent_process_result (root : string) (result : ResponseResult) :
  hoare silent (process_result root result) (fun _ => silent) silent.
Proof.
  unfold process_result.
  apply hoare_bind with (Q := fun _ => silent).
  { apply hoare_silent_frame. reflexivity. }
  intros _. apply hoare_bind with (Q := fun _ => silent).
  { destruct (Str.truthy (r_redirect result)).
    - apply hoare_silent_frame. reflexivity.
    - apply hoare_ret; auto. }
  intros _. apply hoare_bind with (Q := fun _ => silent).
  { apply hoare_silent_frame. reflexivity. }
  intros _. apply hoare_for_each. intros link _.
  apply hoare_silent_process_link.
Qed.

Lemma hoare_silent_drain (fuel : nat) (root : string) :
  hoare silent (drain fuel root) (fun _ => silent) silent.
Proof.
  induction fuel as [|fuel IH]; simpl.
  - intros st H. exact H.
  - apply hoare_bind with (Q := fun _ => silent);
      [apply hoare_silent_schedule|].
    intros _. apply hoare_bind with (Q := fun _ => silent).
    { apply hoare_silent_frame. intros st. unfold get_result.
      destruct (result_queue st); reflexivity. }
    intros [result|].
    + apply hoare_bind with (Q := fun _ => silent);
        [apply hoare_silent_process_result | intros _; exact IH].
    + apply hoare_ret; auto.
Qed.

Lemma hoare_silent_main_loop (fuel : nat) (root : string) :
  hoare silent (main_loop fuel root) (fun _ => silent) silent.
Proof.
  induction fuel as [|fuel IH]; simpl.
  - intros st H. exact H.
  - apply hoare_bind with (Q := fun _ => silent).
    { apply hoare_silent_frame. reflexivity. }
    intros b. destruct b; [|apply hoare_ret; auto].
    apply hoare_bind with (Q := fun _ => silent).
    { apply hoare_silent_frame. reflexivity. }
    intros _. apply hoare_bind with (Q := fun _ => silent).
    { apply hoare_silent_frame. reflexivity. }
    intros _. apply hoare_bind with (Q := fun _ => silent);
      [apply hoare_silent_drain|].
    intros _. apply hoare_bind with (Q := fun _ => silent);
      [apply hoare_silent_join|].
    intros _. exact IH.
Qed.

(** A stored outcome without error has a status. *)
Lemma stored_status (base root : string) (st : State) (k : string)
  (data : Data) :
  inv base root st -> In (k, Some data) (processed_urls st) ->
  Str.truthy (error data) = false -> status data <> None.
Proof.
  intros Hinv Hin Ht.
  destruct (inv_data _ _ _ Hinv k data Hin) as (t & r & _ & Hp & ->).
  simpl in *.
  destruct (process_page_status _ _ _ Hp) as [(n & Es & _)|(Es & Ee)].
  - rewrite Es. discriminate.
  - destruct (r_error r); [contradiction | discriminate].
Qed.

(** Nothing is printed before the report, and the report is printed in
    full. *)
Lemma hoare_output_crawl (fuel : nat) (base root : string) :
  hoare (fun st => st = initial_state) (crawl fuel base root)
        (fun _ st => stdout st =
                     "Bad or broken links:" :: report (processed_urls st))
        silent.
Proof.
  unfold crawl.
  assert (Hstep : forall (m : M unit),
             hoare (inv base root) m (fun _ => inv base root) (inv base root) ->
             hoare silent m (fun _ => silent) silent ->
             hoare (quiet base root) m (fun _ => quiet base root) silent).
  { intros m H1 H2.
    eapply hoare_conseq; [apply (hoare_both _ _ _ _ _ _ _ H1 H2)| | |];
      auto.
    intros st [_ H]; exact H. }
  apply hoare_bind with (Q := fun _ => quiet base root).
  { apply hoare_modify. intros st ->. split; [|reflexivity].
    apply inv_seed; [apply inv_initial | reflexivity | reflexivity]. }
  intros _. apply hoare_bind with (Q := fun _ => quiet base root).
  { apply Hstep; [apply hoare_join | apply hoare_silent_join]. }
  intros _. apply hoare_bind with (Q := fun _ => quiet base root).
  { apply Hstep;
      [apply hoare_frame; reflexivity | apply hoare_silent_frame; reflexivity]. }
  intros _. apply hoare_bind with (Q := fun _ => quiet base root).
  { apply Hstep; [apply hoare_main_loop | apply hoare_silent_main_loop]. }
  intros _. apply hoare_bind with (Q := fun _ => quiet base root).
  { apply Hstep; apply hoare_for_each; intros _ _;
      [apply hoare_frame; reflexivity | apply hoare_silent_frame; reflexivity]. }
  intros _. eapply hoare_bind; [apply hoare_gets|].
  intros d. apply hoare_bind with
    (Q := fun _ st => stdout st =
                      "Bad or broken links:" :: report (processed_urls st)).
  { intros st [[Hinv Hs] ->].
    rewrite print_results_prints_report
      by (intros k data; apply (stored_status base root st); exact Hinv).
    rewrite stdout_print_all, processed_urls_print_all, Hs. reflexivity. }
  intros _. apply hoare_ret; auto.
Qed.

Lemma main_output (fuel : nat) (base_url_string : string) (st : State)
  (o : outcome Z) :
  main fuel base_url_string initial_state = (st, o) ->
  match o with
  | Done _ => stdout st = "Bad or broken links:" :: report (processed_urls st)
  | _ => stdout st = []
  end.
Proof.
  rewrite main_eq.
  destruct (get_base_url base_url_string) as [base|e] eqn:E;
    [|intros H; inversion H; reflexivity].
  rewrite (get_base_url_nonempty _ _ E).
  destruct (get_root_url base) as [root|e'];
    [|intros H; inversion H; reflexivity].
  intros Hc.
  pose proof (hoare_output_crawl fuel base root initial_state eq_refl) as H.
  rewrite Hc in H. destruct o; exact H.
Qed.

(** On the outcomes that a fetch can give, the test of [print_results] is
    the test of the specification: the two differ only for a status of
    exactly 400, and for no status with an empty error. *)
Lemma reported_as_specified (data : Data) :
  fetched_ok (status data) (error data) \/
  fetched_failed (status data) (error data) ->
  reported data = spec_reported data /\
  (Str.truthy (error data) = false -> status data <> None).
Proof.
  unfold reported, spec_reported.
  intros [(n & Es & Hn & Ee)|(Es & Ee)]; rewrite Es.
  - rewrite Ee. simpl. split; [|discriminate].
    destruct (Z.gtb_spec n 400), (Z.leb_spec 400 n); try lia; reflexivity.
  - destruct (error data) as [|a e]; [contradiction|]. simpl.
    split; [reflexivity | discriminate].
Qed.

Lemma report_as_specified (d : Frontier) :
  (forall k data, In (k, Some data) d ->
     fetched_ok (status data) (error data) \/
     fetched_failed (status data) (error data)) ->
  report d = spec_report d.
Proof.
  unfold report, spec_report.
  induction d as [|[k [data|]] d IH]; intros H; simpl.
  - reflexivity.
  - destruct (reported_as_specified data (H k data (or_introl eq_refl)))
      as [-> _].
    f_equal. apply IH. intros k' data' Hin. apply (H k'). right; exact Hin.
  - apply IH. intros k' data' Hin. apply (H k'). right; exact Hin.
Qed.

(** C5.  Provided [urlopen] returns a response only for a status from 200
    to 299 (as the default opener of [urllib.request] does), on the
    dictionary of any run of [main], however far it has got,
    [print_results] prints the header and then, in the order of the
    dictionary, exactly one line for each entry whose outcome has a
    non-empty error, a status of 400 or more, or no status; it prints
    nothing for an entry that is [None] nor for any other entry, and it
    ends normally.  These lines are all that a run of [main] that returns
    has printed. *)
Theorem print_results_reports_failures (fuel : nat) (base_url_string : string) :
  urlopen_2xx ->
  (forall st,
      print_results
        (processed_urls (fst (main fuel base_url_string initial_state))) st =
      (print_all
         ("Bad or broken links:" ::
          spec_report
            (processed_urls (fst (main fuel base_url_string initial_state))))
         st,
       Done tt)) /\
  (forall code,
      snd (main fuel base_url_string initial_state) = Done code ->
      stdout (fst (main fuel base_url_string initial_state)) =
      "Bad or broken links:" ::
      spec_report
        (processed_urls (fst (main fuel base_url_string initial_state)))).
Proof.
  intros H2xx.
  destruct (main_inv fuel base_url_string) as (base & root & Hinv).
  assert (Hd : forall k data,
             In (k, Some data)
                (processed_urls
                   (fst (main fuel base_url_string initial_state))) ->
             fetched_ok (status data) (error data) \/
             fetched_failed (status data) (error data)).
  { intros k data Hin.
    destruct (inv_data _ _ _ Hinv k data Hin) as (t & r & _ & Hp & ->).
    simpl. eapply process_page_outcome; eauto. }
  rewrite <- (report_as_specified _ Hd). split.
  - intros st. apply print_results_prints_report.
    intros k data Hin. apply reported_as_specified. eapply Hd; eauto.
  - intros code Hs.
    pose proof (main_output fuel base_url_string _ _ (surjective_pairing _))
      as H.
    rewrite Hs in H. exact H.
Qed.

(** ** A page that cannot be decoded *)

Lemma created_workers (l : list nat) (st : State) :
  created (workers l st) = created st.
Proof.
  unfold workers. revert st. induction l as [|i l IH]; simpl; intros st.
  - reflexivity.
  - rewrite IH. unfold run_task.
    destruct (live_workers st); [reflexivity|].
    destruct (nth_error (task_queue st) i); [|reflexivity].
    destruct (process_page _ _); reflexivity.
Qed.

Lemma audited_frame (st st' : State) :
  created st' = created st -> task_queue st' = task_queue st ->
  dead st' = dead st -> processed_urls st' = processed_urls st ->
  audited st -> audited st'.
Proof.
  intros Ec Et Edd Ed [H1 H2].
  unfold audited, raising_unfinished, outcomes_of_tasks in *.
  rewrite Ec, Et, Edd, Ed. auto.
Qed.

Lemma audited_workers (l : list nat) (st : State) :
  audited st -> audited (workers l st).
Proof.
  intros [H1 H2]. split.
  - intros t e Ht Hp. rewrite created_workers in Ht.
    apply (workers_dead t e); [exact Hp|]. eapply H1; eauto.
  - intros k data Hin. rewrite processed_urls_workers in Hin.
    rewrite created_workers. apply H2. exact Hin.
Qed.

Lemma audited_enqueue (task : Task) (st : State) :
  audited st -> audited (enqueue task st).
Proof.
  intros [H1 H2]. split.
  - intros t e Ht Hp. simpl in *. rewrite in_app_iff.
    apply in_app_iff in Ht. destruct Ht as [Ht|Ht]; [|auto].
    destruct (H1 t e Ht Hp); auto.
  - intros k data Hin. simpl in *.
    destruct (H2 k data Hin) as (t & r & Ht & H). exists t, r.
    split; [apply in_app_iff; left; exact Ht | exact H].
Qed.

Lemma audited_set_none (k : string) (st : State) :
  audited st ->
  audited (set_processed_urls (Dict.set k None (processed_urls st)) st).
Proof.
  intros [H1 H2]. split; [exact H1|].
  intros k' data Hin. simpl in Hin. apply dict_in_set in Hin.
  destruct Hin as [[_ E]|Hin]; [discriminate | apply (H2 k' data Hin)].
Qed.

Lemma audited_set_result (result : ResponseResult) (st : State) :
  from_created st result -> audited st ->
  audited (set_processed_urls
             (Dict.set (r_url result)
                       (Some (mkData (r_status result) (r_error result)))
                       (processed_urls st)) st).
Proof.
  intros (t & Ht & Hp) [H1 H2]. split; [exact H1|].
  intros k' data Hin. simpl in Hin. apply dict_in_set in Hin.
  destruct Hin as [[-> E]|Hin]; [|apply (H2 k' data Hin)].
  inversion E; subst. exists t, result. simpl.
  split; [exact Ht|]. split; [|split; [exact Hp | reflexivity]].
  symmetry. eapply process_page_url; eauto.
Qed.

Lemma hoare_audited_frame (f : State -> State) :
  (forall st, created (f st) = created st) ->
  (forall st, task_queue (f st) = task_queue st) ->
  (forall st, dead (f st) = dead st) ->
  (forall st, processed_urls (f st) = processed_urls st) ->
  hoare audited (modify f) (fun _ => audited) audited.
Proof.
  intros H1 H2 H3 H4. apply hoare_modify. intros st H.
  eapply audited_frame; eauto.
Qed.

Lemma hoare_audited_schedule :
  hoare audited schedule (fun _ => audited) audited.
Proof.
  apply hoare_modify. intros st H.
  eapply audited_frame; [| | | |apply audited_workers; exact H]; reflexivity.
Qed.

Lemma hoare_audited_join : hoare audited join (fun _ => audited) audited.
Proof.
  intros st H.
  assert (H' : audited (fst (join st))).
  { rewrite join_state. apply audited_workers.
    unfold schedule, modify. simpl.
    eapply audited_frame; [| | | |apply audited_workers; exact H];
      reflexivity. }
  destruct (join st) as [st' [[]| | |]]; exact H'.
Qed.

Lemma hoare_audited_get_result :
  hoare audited get_result (fun _ => audited) audited.
Proof.
  intros st H. unfold get_result.
  destruct (result_queue st) as [|r q]; simpl; [exact H|].
  eapply audited_frame; [| | | |exact H]; reflexivity.
Qed.

Lemma hoare_audited_process_link (root : string) (result : ResponseResult)
  (link : option string) :
  hoare (audited_for result) (process_link root result link)
        (fun _ => audited_for result) (audited_for result).
Proof.
  intros st [Hf Ha]. rewrite process_link_eq.
  destruct (resolve_link result link) as [[u|]|e]; try (split; assumption).
  destruct (Dict.mem u (processed_urls st)); try (split; assumption).
  assert (Hm : audited (mark_new u st)).
  { unfold mark_new.
    eapply audited_frame; [| | | |apply (audited_set_none u st Ha)];
      reflexivity. }
  destruct (is_same_domain u root) as [c|e].
  - split.
    + destruct Hf as (t & Ht & Hp). exists t. simpl.
      split; [apply in_app_iff; left; exact Ht | exact Hp].
    + apply audited_enqueue. exact Hm.
  - split; [exact Hf | exact Hm].
Qed.

Lemma hoare_audited_process_result (root : string) (result : ResponseResult) :
  hoare (audited_for result) (process_result root result)
        (fun _ => audited) audited.
Proof.
  unfold process_result.
  eapply hoare_conseq with
    (Q' := fun _ => audited_for result) (I' := audited_for result);
    [|intros st H; exact H
     |intros a st H; apply H
     |intros st H; apply H].
  assert (Hres : hoare (audited_for result)
                   (assign (r_url result)
                      (Some (mkData (r_status result) (r_error result))))
                   (fun _ => audited_for result) (audited_for result)).
  { intros st [Hf Ha]. simpl. split; [exact Hf|].
    apply audited_set_result; assumption. }
  apply hoare_bind with (Q := fun _ => audited_for result); [exact Hres|].
  intros _. apply hoare_bind with (Q := fun _ => audited_for result).
  { destruct (Str.truthy (r_redirect result)).
    - intros st [Hf Ha]. simpl. split; [exact Hf|].
      apply audited_set_none. exact Ha.
    - apply hoare_ret; auto. }
  intros _. apply hoare_bind with (Q := fun _ => audited_for result);
    [exact Hres|].
  intros _. apply hoare_for_each. intros link _.
  apply hoare_audited_process_link.
Qed.

Lemma hoare_audited_print_results (d : Frontier) :
  hoare audited (print_results d) (fun _ => audited) audited.
Proof.
  unfold print_results.
  apply hoare_bind with (Q := fun _ => audited).
  { apply hoare_audited_frame; reflexivity. }
  intros _. apply hoare_for_each. intros [k [data|]] _; simpl.
  - eapply hoare_bind; [apply hoare_lift|]. intros bad.
    destruct bad.
    + apply hoare_modify. intros st [H _].
      eapply audited_frame; [| | | |exact H]; reflexivity.
    + apply hoare_ret. intros st [H _]; exact H.
  - apply hoare_ret; auto.
Qed.

Section Sound.

Variables base root : string.

Local Abbreviation good := (sound base root).

Lemma sound_frame (st st' : State) :
  created st' = created st -> task_queue st' = task_queue st ->
  result_queue st' = result_queue st -> dead st' = dead st ->
  processed_urls st' = processed_urls st ->
  good st -> good st'.
Proof.
  intros Ec Et Er Edd Ed [Hi Ha]. split.
  - eapply inv_frame; eauto.
  - eapply audited_frame; eauto.
Qed.

Lemma hoare_sound_frame (f : State -> State) :
  (forall st, created (f st) = created st) ->
  (forall st, task_queue (f st) = task_queue st) ->
  (forall st, result_queue (f st) = result_queue st) ->
  (forall st, dead (f st) = dead st) ->
  (forall st, processed_urls (f st) = processed_urls st) ->
  hoare good (modify f) (fun _ => good) good.
Proof.
  intros H1 H2 H3 H4 H5. apply hoare_modify. intros st H.
  eapply sound_frame; eauto.
Qed.

Lemma hoare_sound_join : hoare good join (fun _ => good) good.
Proof. apply hoare_both; [apply hoare_join | apply hoare_audited_join]. Qed.

Lemma hoare_sound_drain (fuel : nat) :
  hoare good (drain fuel root) (fun _ => good) good.
Proof.
  induction fuel as [|fuel IH]; simpl.
  - intros st H. exact H.
  - apply hoare_bind with (Q := fun _ => good).
    { apply hoare_both; [apply hoare_schedule | apply hoare_audited_schedule]. }
    intros _. eapply hoare_bind.
    { apply hoare_both;
        [apply hoare_get_result | apply hoare_audited_get_result]. }
    intros [result|].
    + apply hoare_bind with (Q := fun _ => good); [|intros _; exact IH].
      eapply hoare_conseq;
        [apply hoare_both;
           [apply (hoare_process_result base root result)
           |apply (hoare_audited_process_result root result)]
        | |intros a st H; exact H |intros st H; exact H].
      intros st [[Hi Hf] Ha]. split; split; assumption.
    + apply hoare_ret. intros st [[Hi _] Ha]. split; assumption.
Qed.

Lemma hoare_sound_main_loop (fuel : nat) :
  hoare good (main_loop fuel root) (fun _ => good) good.
Proof.
  induction fuel as [|fuel IH]; simpl.
  - intros st H. exact H.
  - eapply hoare_bind; [apply hoare_gets|]. intros b. destruct b.
    + apply hoare_bind with (Q := fun _ => good).
      { apply hoare_modify. intros st [H _].
        eapply sound_frame; [| | | | |exact H]; reflexivity. }
      intros _. apply hoare_bind with (Q := fun _ => good).
      { apply hoare_sound_frame; reflexivity. }
      intros _. apply hoare_bind with (Q := fun _ => good);
        [apply hoare_sound_drain|].
      intros _. apply hoare_bind with (Q := fun _ => good);
        [apply hoare_sound_join|].
      intros _. exact IH.
    + apply hoare_ret. intros st [H _]; exact H.
Qed.

Lemma hoare_sound_crawl (fuel : nat) :
  hoare (fun st => st = initial_state) (crawl fuel base root)
        (fun _ => good) good.
Proof.
  unfold crawl.
  apply hoare_bind with (Q := fun _ => good).
  { apply hoare_modify. intros st ->. split.
    - apply inv_seed; [apply inv_initial | reflexivity | reflexivity].
    - split.
      + intros t e Ht _. left. exact Ht.
      + intros k data []. }
  intros _. apply hoare_bind with (Q := fun _ => good);
    [apply hoare_sound_join|].
  intros _. apply hoare_bind with (Q := fun _ => good).
  { apply hoare_sound_frame; reflexivity. }
  intros _. apply hoare_bind with (Q := fun _ => good);
    [apply hoare_sound_main_loop|].
  intros _. apply hoare_bind with (Q := fun _ => good).
  { apply hoare_for_each. intros _ _. apply hoare_sound_frame; reflexivity. }
  intros _. eapply hoare_bind; [apply hoare_gets|].
  intros d. apply hoare_bind with (Q := fun _ => good).
  { eapply hoare_conseq;
      [apply hoare_both;
         [apply (hoare_print_results base root d)
         |apply (hoare_audited_print_results d)]
      |intros st [H _]; exact H | auto | auto]. }
  intros _. apply hoare_ret; auto.
Qed.

End Sound.

Lemma main_sound (fuel : nat) (base_url_string : string) :
  exists base_url root_url,
    sound base_url root_url (fst (main fuel base_url_string initial_state)).
Proof.
  assert (H0 : forall base root, sound base root initial_state).
  { intros base root. split; [apply inv_initial|]. split.
    - intros t e [].
    - intros k data []. }
  rewrite main_eq.
  destruct (get_base_url base_url_string) as [base|e].
  - destruct (Str.truthy base).
    + destruct (get_root_url base) as [root|e].
      * exists base, root.
        pose proof (hoare_sound_crawl base root fuel initial_state eq_refl)
          as H.
        destruct (crawl fuel base root initial_state) as [st' [a| | |]];
          exact H.
      * exists base, EmptyString. apply H0.
    + exists base, EmptyString. simpl.
      eapply sound_frame; [| | | | |apply H0]; reflexivity.
  - exists EmptyString, EmptyString. apply H0.
Qed.

Lemma NoDup_map_inj {A B : Type} (f : A -> B) (l : list A) (a b : A) :
  NoDup (List.map f l) -> In a l -> In b l -> f a = f b -> a = b.
Proof.
  induction l as [|x l IH]; simpl; intros Hnd Ha Hb E; [destruct Ha|].
  inversion Hnd as [|? ? Hx Hl]; subst.
  destruct Ha as [->|Ha], Hb as [->|Hb]; auto.
  - exfalso. apply Hx. rewrite E. apply in_map. exact Hb.
  - exfalso. apply Hx. rewrite <- E. apply in_map. exact Ha.
Qed.

Lemma dict_get_in {V : Type} (k : string) (v : V) (d : Dict.t V) :
  Dict.get k d = Some v -> In (k, v) d.
Proof.
  induction d as [|[k' v'] d IH]; simpl; [discriminate|].
  destruct (String.eqb_spec k' k) as [->|Hne].
  - intros H; inversion H; auto.
  - auto.
Qed.

(** C4.  When the body of a page fetched with [collect_links] set and a
    status below 400 cannot be decoded with the declared charset (UTF-8
    when none is declared), the error is not caught: [process_page] raises
    it instead of returning a result without links; the worker that runs
    the task puts no result and ends; every later [task_queue.join()]
    blocks; and a run of [main] in which the task of that url was put
    never returns, prints nothing, and never records a status or an error
    for the url, whose entry stays absent or [None]. *)
Theorem decode_error_blocks_crawl (u : string) (s : Z) (body : list Byte.byte)
  (charset : option string) (geturl : string) (e : exn) :
  urlopen u = Response (Some s) (Return body) charset geturl ->
  (s < 400)%Z ->
  decode body (match charset with
               | Some c => if Str.truthy c then c else "utf-8"
               | None => "utf-8"
               end) = Raise e ->
  process_page u true = Raise e /\
  (forall st i, live_workers st <> 0 ->
                nth_error (task_queue st) i = Some (mkTask u true) ->
                task_queue (run_task i st) = remove_nth i (task_queue st) /\
                result_queue (run_task i st) = result_queue st /\
                dead (run_task i st) = dead st ++ [mkTask u true]) /\
  (forall st, In (mkTask u true) (task_queue st) \/
              In (mkTask u true) (dead st) ->
              snd (join st) = Blocked) /\
  (forall fuel base_url_string st o,
      main fuel base_url_string initial_state = (st, o) ->
      In (mkTask u true) (created st) ->
      (forall code, o <> Done code) /\
      stdout st = [] /\
      (forall data, Dict.get u (processed_urls st) <> Some (Some data))).
Proof.
  intros Eo Hs Ed.
  assert (Hp : process_page u true = Raise e).
  { unfold process_page. rewrite Eo. simpl.
    apply Z.ltb_lt in Hs. rewrite Hs. simpl. rewrite Ed. reflexivity. }
  split; [exact Hp|]. split; [|split].
  - intros st i Hw En. unfold run_task.
    destruct (live_workers st); [contradiction|].
    rewrite En. simpl. rewrite Hp. simpl. auto.
  - intros st H. apply (join_blocked (mkTask u true) e st); auto.
  - intros fuel seed st o Hm Hin.
    destruct (main_sound fuel seed) as (base & root & Hinv & Hr & Ho).
    rewrite Hm in Hinv, Hr, Ho. simpl in Hinv, Hr, Ho.
    assert (Hn : forall code, o <> Done code).
    { intros code ->.
      destruct (main_at_rest _ _ _ _ Hm) as (Hq & _ & Hd & _).
      destruct (Hr (mkTask u true) e Hin Hp) as [H|H].
      - rewrite Hq in H. destruct H.
      - rewrite Hd in H. destruct H. }
    split; [exact Hn|]. split.
    + pose proof (main_output _ _ _ _ Hm) as H.
      destruct o as [code| | |]; [|exact H..].
      exfalso. apply (Hn code). reflexivity.
    + intros data Hg. apply dict_get_in in Hg.
      destruct (Ho u data Hg) as (t & r & Ht & Eu & Hpt & _).
      assert (Et : t = mkTask u true).
      { apply (NoDup_map_inj url (created st)); auto.
        apply (inv_nodup _ _ _ Hinv). }
      subst t. simpl in Hpt. congruence.
Qed.

(** ** Fragments *)

Lemma split_first_tail_other (c d : ascii) (s h t : string) :
  Str.contains d s = false ->
  Str.split_first c s = Some (h, t) -> Str.contains d t = false.
Proof.
  revert h t. induction s as [|x s IH]; simpl; intros h t Hd; [discriminate|].
  destruct (Ascii.eqb x d) eqn:Exd; [discriminate|].
  destruct (Ascii.eqb x c).
  - intros E; inversion E; subst. exact Hd.
  - destruct (Str.split_first c s) as [[h' t']|]; [|discriminate].
    intros E; inversion E; subst. eapply IH; eauto.
Qed.

Lemma scheme_char_lower_hash (a : ascii) :
  urllib.scheme_char a = true -> Ascii.eqb (Str.lower_ascii a) "#" = false.
Proof.
  destruct a as [b0 b1 b2 b3 b4 b5 b6 b7].
  destruct b0, b1, b2, b3, b4, b5, b6, b7; vm_compute; congruence.
Qed.

Lemma scheme_lower_no_hash (s : string) :
  Str.forallb urllib.scheme_char s = true ->
  Str.contains "#" (Str.lower s) = false.
Proof.
  induction s as [|a s IH]; simpl; [reflexivity|].
  intros H. apply andb_true_iff in H. destruct H as [Ha Hs].
  rewrite (scheme_char_lower_hash a Ha). auto.
Qed.

(** Of the components of a split url, only the fragment can hold a [#]. *)
Lemma urlsplit_no_hash (u : string) (sr : urllib.SplitResult) :
  urllib.urlsplit bracketed_host_ok u EmptyString = Return sr ->
  Str.contains "#" (urllib.s_scheme sr) = false /\
  Str.contains "#" (urllib.s_netloc sr) = false /\
  Str.contains "#" (urllib.s_path sr) = false /\
  Str.contains "#" (urllib.s_query sr) = false.
Proof.
  unfold urllib.urlsplit.
  set (url1 := urllib.remove_unsafe (Str.lstrip urllib.c0_control_or_space u)).
  change (urllib.remove_unsafe (Str.strip urllib.c0_control_or_space ""))
    with EmptyString.
  set (su := match Str.split_first ":" url1 with
             | Some (String a pre, rest) =>
                 if Str.is_ascii_alpha a &&
                    Str.forallb urllib.scheme_char (String a pre)
                 then (Str.lower (String a pre), rest)
                 else (EmptyString, url1)
             | _ => (EmptyString, url1)
             end).
  assert (Hsch : Str.contains "#" (fst su) = false).
  { unfold su. destruct (Str.split_first ":" url1) as [[[|a pre] rest]|];
      try reflexivity.
    destruct (Str.is_ascii_alpha a) eqn:Ea; simpl; [|reflexivity].
    destruct (urllib.scheme_char a && Str.forallb urllib.scheme_char pre)
      eqn:Ef; simpl; [|reflexivity].
    apply andb_true_iff in Ef. destruct Ef as [Ha Hp].
    rewrite (scheme_char_lower_hash a Ha). apply scheme_lower_no_hash; auto. }
  destruct su as [sch url3]. simpl in Hsch.
  set (nu := if Str.startswith "//" url3 then _ else _).
  assert (Hnl : forall nl rest, nu = Return (nl, rest) ->
                                Str.contains "#" nl = false).
  { unfold nu. intros nl rest.
    destruct (Str.startswith "//" url3).
    - unfold urllib._splitnetloc.
      destruct (Str.break _ (Str.drop 2 url3)) as [nl0 rest0] eqn:Eb.
      assert (Hq : Str.contains "#" nl0 = false).
      { eapply break_head; [|exact Eb]. reflexivity. }
      destruct ((Str.contains "[" nl0 && negb (Str.contains "]" nl0)) ||
                (Str.contains "]" nl0 && negb (Str.contains "[" nl0)));
        [discriminate|].
      destruct (Str.contains "[" nl0 && Str.contains "]" nl0).
      + destruct (urllib._check_bracketed_netloc bracketed_host_ok nl0);
          simpl; [|discriminate].
        intros E; inversion E; subst; exact Hq.
      + intros E; inversion E; subst; exact Hq.
    - intros E; inversion E; reflexivity. }
  destruct nu as [[nl rest]|e]; simpl; [|discriminate].
  specialize (Hnl nl rest eq_refl).
  assert (Hsub : forall v, Str.contains "#" v = false ->
            forall p q,
              match Str.split_first "?" v with
              | Some (u2, q2) => (u2, q2)
              | None => (v, EmptyString)
              end = (p, q) ->
              Str.contains "#" p = false /\ Str.contains "#" q = false).
  { intros v Hv p q. destruct (Str.split_first "?" v) as [[u2 q2]|] eqn:Eq;
      intros E; inversion E; subst.
    - split; [eapply split_first_head_other | eapply split_first_tail_other];
        eauto.
    - auto. }
  destruct (Str.split_first "#" rest) as [[u1 f]|] eqn:Ef.
  - pose proof (split_first_head _ _ _ _ Ef) as Hu1.
    destruct (match Str.split_first "?" u1 with
              | Some (u2, q2) => (u2, q2)
              | None => (u1, EmptyString)
              end) as [p q] eqn:Ep.
    destruct (Hsub u1 Hu1 p q Ep) as [H1 H2].
    intros E; inversion E; subst; simpl. auto.
  - pose proof (split_first_none _ _ Ef) as Hrest.
    destruct (match Str.split_first "?" rest with
              | Some (u2, q2) => (u2, q2)
              | None => (rest, EmptyString)
              end) as [p q] eqn:Ep.
    destruct (Hsub rest Hrest p q Ep) as [H1 H2].
    intros E; inversion E; subst; simpl. auto.
Qed.

Lemma split_params_after_slash_parts (d : ascii) (url h t : string) :
  Str.contains d url = false ->
  urllib.split_params_after_slash url = Some (h, t) ->
  Str.contains d h = false /\ Str.contains d t = false.
Proof.
  revert h t. induction url as [|a r IH]; intros h t Hd; simpl;
    [discriminate|].
  simpl in Hd. destruct (Ascii.eqb a d) eqn:Ead; [discriminate|].
  destruct (Str.contains "/" r || Ascii.eqb a "/").
  - destruct (urllib.split_params_after_slash r) as [[h' t']|];
      [|discriminate].
    destruct (IH h' t' Hd eq_refl) as [H1 H2].
    intros E; inversion E; subst. simpl. rewrite Ead. auto.
  - intros E.
    assert (Hall : Str.contains d (String a r) = false)
      by (simpl; rewrite Ead; exact Hd).
    split; [eapply split_first_head_other | eapply split_first_tail_other];
      eauto.
Qed.

Lemma splitparams_parts (d : ascii) (url h t : string) :
  Str.contains d url = false ->
  urllib._splitparams url = (h, t) ->
  Str.contains d h = false /\ Str.contains d t = false.
Proof.
  intros Hd. unfold urllib._splitparams.
  destruct (Str.contains "/" url).
  - destruct (urllib.split_params_after_slash url) as [[h' t']|] eqn:E.
    + intros E'; inversion E'; subst.
      eapply split_params_after_slash_parts; eauto.
    + intros E'; inversion E'; subst. auto.
  - destruct (Str.split_first ";" url) as [[h' t']|] eqn:E.
    + intros E'; inversion E'; subst.
      split; [eapply split_first_head_other | eapply split_first_tail_other];
        eauto.
    + intros E'; inversion E'; subst. auto.
Qed.

Lemma urlunparse_no_hash (sch nl path prm qry : string) :
  Str.contains "#" sch = false -> Str.contains "#" nl = false ->
  Str.contains "#" path = false -> Str.contains "#" prm = false ->
  Str.contains "#" qry = false ->
  Str.contains "#" (urllib.urlunparse sch nl path prm qry EmptyString) = false.
Proof.
  intros Hs Hn Hp Hm Hq. unfold urllib.urlunparse, urllib.urlunsplit.
  change (Str.truthy "") with false. cbv iota.
  repeat match goal with
         | |- context [if ?b then _ else _] => destruct b
         end;
    repeat first [rewrite contains_app | progress simpl];
    rewrite ?Hs, ?Hn, ?Hp, ?Hm, ?Hq; reflexivity.
Qed.

(** X13.  The link that [clean_fragments] returns holds no [#]: the
    fragment is gone, and so is a stray [#] in it.  Cleaning it again
    changes nothing. *)
Theorem clean_fragments_removes_fragment (link : option string) (l : string) :
  clean_fragments link = Return l ->
  Str.contains "#" l = false /\ clean_fragments (Some l) = Return l.
Proof.
  intros H.
  assert (Hno : Str.contains "#" l = false).
  { destruct link as [u|]; simpl in H; [|inversion H; reflexivity].
    unfold urllib.urldefrag_url in H.
    destruct (Str.contains "#" u) eqn:Eu; [|inversion H; subst; exact Eu].
    unfold urllib.urlparse in H.
    destruct (urllib.urlsplit bracketed_host_ok u EmptyString) as [sr|e] eqn:Es;
      cbn [rbind] in H; [|discriminate].
    destruct (urlsplit_no_hash u sr Es) as (H1 & H2 & H3 & H4).
    destruct (if Str.mem (urllib.s_scheme sr) urllib.uses_params &&
                 Str.contains ";" (urllib.s_path sr)
              then urllib._splitparams (urllib.s_path sr)
              else (urllib.s_path sr, EmptyString)) as [p prm] eqn:Ep.
    assert (Hpp : Str.contains "#" p = false /\ Str.contains "#" prm = false).
    { destruct (Str.mem (urllib.s_scheme sr) urllib.uses_params &&
                Str.contains ";" (urllib.s_path sr)).
      - apply (splitparams_parts "#" (urllib.s_path sr) p prm H3 Ep).
      - inversion Ep; subst. auto. }
    destruct Hpp as [Hp Hprm].
    cbn [rbind urllib.scheme urllib.netloc urllib.path urllib.params
         urllib.query] in H.
    inversion H; subst.
    apply urlunparse_no_hash; assumption. }
  split; [exact Hno|].
  simpl. unfold urllib.urldefrag_url. rewrite Hno. reflexivity.
Qed.

(** ** The root url *)

Lemma split_not_nil (c : ascii) (s : string) : Str.split c s <> [].
Proof.
  destruct s as [|a r]; simpl; [discriminate|].
  destruct (Ascii.eqb a c); [discriminate|].
  destruct (Str.split c r); discriminate.
Qed.

Lemma join_cons (sep x : string) (l : list string) :
  l <> [] -> Str.join sep (x :: l) = (x ++ sep ++ Str.join sep l)%string.
Proof. destruct l; [contradiction | reflexivity]. Qed.

Lemma join_split (c : ascii) (s : string) :
  Str.join (String c EmptyString) (Str.split c s) = s.
Proof.
  induction s as [|a r IH]; [reflexivity|]. simpl Str.split.
  destruct (Ascii.eqb_spec a c) as [->|Hne].
  - rewrite join_cons by apply split_not_nil. rewrite IH. reflexivity.
  - pose proof (split_not_nil c r) as Hn.
    destruct (Str.split c r) as [|h t]; [contradiction|].
    destruct t as [|h2 t].
    + simpl in *. rewrite IH. reflexivity.
    + rewrite join_cons by discriminate.
      rewrite join_cons in IH by discriminate.
      simpl. rewrite <- IH. reflexivity.
Qed.

Lemma split_parts_no_sep (c : ascii) (s x : string) :
  In x (Str.split c s) -> Str.contains c x = false.
Proof.
  revert x. induction s as [|a r IH]; simpl; intros x.
  - intros [<-|[]]. reflexivity.
  - destruct (Ascii.eqb a c) eqn:Eac.
    + intros [<-|Hin]; [reflexivity | auto].
    + pose proof (split_not_nil c r) as Hn.
      destruct (Str.split c r) as [|h t]; [contradiction|].
      intros [<-|Hin].
      * simpl. rewrite Eac. apply IH. left; reflexivity.
      * apply IH. right; exact Hin.
Qed.

Lemma split_no_sep (c : ascii) (x : string) :
  Str.contains c x = false -> Str.split c x = [x].
Proof.
  induction x as [|a r IH]; simpl; [reflexivity|].
  destruct (Ascii.eqb a c); [discriminate|].
  intros H. rewrite (IH H). reflexivity.
Qed.

Lemma split_app_sep (c : ascii) (x s : string) :
  Str.contains c x = false ->
  Str.split c (x ++ String c s) = x :: Str.split c s.
Proof.
  induction x as [|a r IH]; simpl.
  - intros _. rewrite Ascii.eqb_refl. reflexivity.
  - destruct (Ascii.eqb a c); [discriminate|].
    intros H. rewrite (IH H). reflexivity.
Qed.

Lemma split_join (c : ascii) (l : list string) :
  l <> [] -> (forall x, In x l -> Str.contains c x = false) ->
  Str.split c (Str.join (String c EmptyString) l) = l.
Proof.
  induction l as [|x l IH]; [contradiction|]. intros _ H.
  destruct l as [|y l].
  - simpl. apply split_no_sep. apply H. left; reflexivity.
  - rewrite join_cons by discriminate.
    change (x ++ String c "" ++ Str.join (String c "") (y :: l))%string
      with (x ++ String c (Str.join (String c "") (y :: l)))%string.
    rewrite split_app_sep by (apply H; left; reflexivity).
    rewrite IH; [reflexivity | discriminate|].
    intros z Hz. apply H. right; exact Hz.
Qed.

Lemma append_assoc (a b c : string) :
  ((a ++ b) ++ c = a ++ (b ++ c))%string.
Proof. induction a as [|x a IH]; simpl; [reflexivity | rewrite IH; reflexivity]. Qed.

Lemma join_app (sep : string) (l1 l2 : list string) :
  l1 <> [] -> l2 <> [] ->
  Str.join sep (l1 ++ l2)
  = (Str.join sep l1 ++ sep ++ Str.join sep l2)%string.
Proof.
  induction l1 as [|x l1 IH]; [contradiction|]. intros _ H2.
  destruct l1 as [|y l1].
  - simpl app. rewrite join_cons by exact H2. reflexivity.
  - change ((x :: y :: l1) ++ l2) with (x :: ((y :: l1) ++ l2)).
    rewrite join_cons by (simpl; discriminate).
    rewrite (IH ltac:(discriminate) H2).
    rewrite (join_cons sep x (y :: l1)) by discriminate.
    rewrite !append_assoc. reflexivity.
Qed.

Lemma last_two_spec {A : Type} (l : list A) :
  length (last_two l) <= 2 /\
  (l <> [] -> last_two l <> []) /\
  exists front, l = front ++ last_two l.
Proof.
  unfold last_two. split; [|split].
  - rewrite length_skipn. lia.
  - intros Hl E. apply (f_equal (@length _)) in E.
    rewrite length_skipn in E.
    destruct l as [|a l]; [contradiction|].
    change (length (a :: l)) with (S (length l)) in E.
    change (length (@nil A)) with 0 in E. lia.
  - exists (firstn (length l - 2) l). symmetry. apply firstn_skipn.
Qed.

(** X14.  The root url that [get_root_url] builds keeps the scheme of the
    url and, for the host, its last two labels: a suffix of the host that
    has at most two labels and is preceded, when something precedes it, by
    a dot.  Path, query and fragment are dropped. *)
Theorem get_root_url_keeps_last_two_labels (base_url_string root : string) :
  get_root_url base_url_string = Return root ->
  exists p front domain,
    urllib.urlparse bracketed_host_ok base_url_string EmptyString = Return p /\
    root = urllib.urlunsplit (urllib.scheme p) domain EmptyString EmptyString
                             EmptyString /\
    urllib.netloc p = (front ++ domain)%string /\
    (front = EmptyString \/ exists q, front = (q ++ ".")%string) /\
    Str.split "." domain = last_two (Str.split "." (urllib.netloc p)) /\
    length (Str.split "." domain) <= 2.
Proof.
  unfold get_root_url.
  destruct (urllib.urlparse bracketed_host_ok base_url_string EmptyString)
    as [p|e]; cbn [rbind]; [|discriminate].
  intros H; inversion H; subst; clear H.
  set (labels := Str.split "." (urllib.netloc p)).
  destruct (last_two_spec labels) as (Hlen & Hne & front & Hfront).
  assert (Hl2 : last_two labels <> [])
    by (apply Hne; apply split_not_nil).
  assert (Hsplit : Str.split "." (Str.join "." (last_two labels))
                   = last_two labels).
  { apply split_join; [exact Hl2|].
    intros x Hx. apply (split_parts_no_sep "." (urllib.netloc p)).
    fold labels. rewrite Hfront. apply in_app_iff. right; exact Hx. }
  exists p.
  destruct front as [|f0 front'].
  - exists EmptyString, (Str.join "." (last_two labels)).
    split; [reflexivity|]. split; [reflexivity|]. split.
    + simpl. simpl in Hfront. rewrite <- Hfront. unfold labels.
      symmetry. apply join_split.
    + split; [left; reflexivity|]. split; [exact Hsplit|].
      rewrite Hsplit. exact Hlen.
  - exists (Str.join "." (f0 :: front') ++ ".")%string,
           (Str.join "." (last_two labels)).
    split; [reflexivity|]. split; [reflexivity|]. split.
    + rewrite append_assoc.
      rewrite <- (join_app "." (f0 :: front') (last_two labels)
                 ltac:(discriminate) Hl2).
      rewrite <- Hfront. unfold labels. symmetry. apply join_split.
    + split; [right; eexists; reflexivity|]. split; [exact Hsplit|].
      rewrite Hsplit. exact Hlen.
Qed.
End Crawler.

(** ** The program on concrete sites *)

Import World.

Local Abbreviation run_on net := (main any_host net decode_ascii starttags fifo).
Local Abbreviation fetch_on net := (process_page net decode_ascii starttags).
Local Abbreviation reachable_on net :=
  (reachable any_host net decode_ascii starttags).

(** The example of the documentation of [get_base_url]: the query
    [p1=1&p2=2] is lost.  The scheme is added and the fragment removed as
    documented, and [example.com] gives the same base url as
    [http://example.com]. *)
Lemma get_base_url_has_no_query_witness :
  get_base_url any_host "aa.com/1/2/3.html?p1=1&p2=2#tag"
    = Return "http://aa.com/1/2/3.html" /\
  Str.contains "?" "http://aa.com/1/2/3.html" = false /\
  get_base_url any_host "example.com"
    = get_base_url any_host "http://example.com".
Proof.
  assert (H : get_base_url any_host "aa.com/1/2/3.html?p1=1&p2=2#tag"
              = Return "http://aa.com/1/2/3.html") by reflexivity.
  split; [exact H | split; [|reflexivity]].
  exact (get_base_url_has_no_query any_host _ _ H).
Defined.

(** The page requested at [http://a.com/old/] is served, after a redirect,
    from [http://a.com/new/] and links to [p.html]: the link is resolved
    against the requested url, and [main] fetches
    [http://a.com/old/p.html], while the link joined to the final url is
    [http://a.com/new/p.html]. *)
Lemma relative_link_joined_to_requested_url_witness :
  clean_fragments any_host (Some "p.html") = Return "p.html" /\
  skipped "p.html" = false /\
  is_relative any_host "p.html" = Return true /\
  Str.truthy "http://a.com/new/" = true /\
  fetch_on moved_site "http://a.com/old/" true
    = Return (mkResult "http://a.com/old/" (Some 200%Z) "" [Some "p.html"]
                       "http://a.com/new/") /\
  resolve_link any_host
    (mkResult "http://a.com/old/" (Some 200%Z) "" [Some "p.html"]
              "http://a.com/new/")
    (Some "p.html")
    = Return (Some "http://a.com/old/p.html") /\
  restore_relative_url any_host "p.html" "http://a.com/new/"
    = Return "http://a.com/new/p.html" /\
  List.map url (created (fst (run_on moved_site 10 "a.com/old/" initial_state)))
    = ["http://a.com/old/"; "http://a.com/old/p.html"].
Proof.
  assert (H1 : clean_fragments any_host (Some "p.html") = Return "p.html")
    by reflexivity.
  assert (H2 : skipped "p.html" = false) by reflexivity.
  assert (H3 : is_relative any_host "p.html" = Return true) by reflexivity.
  assert (H4 : Str.truthy "http://a.com/new/" = true) by reflexivity.
  split; [exact H1 | split; [exact H2 | split; [exact H3 | split; [exact H4|]]]].
  split; [reflexivity|]. split; [|split; vm_compute; reflexivity].
  rewrite (relative_link_joined_to_requested_url any_host
             (mkResult "http://a.com/old/" (Some 200%Z) "" [Some "p.html"]
                       "http://a.com/new/")
             (Some "p.html") "p.html" H1 H2 H3 H4).
  reflexivity.
Defined.

(** What [print_results] does with outcomes that no fetch gives: an entry
    with status 400 and no error prints no line (an entry with status 401
    does), and an entry with no status and no error makes the comparison
    raise [TypeError]. *)
Lemma print_results_on_other_outcomes :
  stdout (fst (print_results
                 [("http://a.com/", Some (mkData (Some 400%Z) ""))]
                 initial_state))
    = ["Bad or broken links:"] /\
  stdout (fst (print_results
                 [("http://a.com/", Some (mkData (Some 401%Z) ""))]
                 initial_state))
    = ["Bad or broken links:";
       report_line "http://a.com/" (mkData (Some 401%Z) "")] /\
  snd (print_results [("http://a.com/", Some (mkData None ""))] initial_state)
    = Crashed (TypeError
        "'>' not supported between instances of 'NoneType' and 'int'").
Proof. repeat split. Qed.

Lemma moved_site_2xx : urlopen_2xx moved_site.
Proof.
  intros u s rd cs g. unfold moved_site, page.
  repeat match goal with
         | |- context [String.eqb u ?x] => destruct (String.eqb u x)
         end;
    intros H; inversion H; lia.
Qed.

(** On the site where [http://a.com/old/] is served from
    [http://a.com/new/] and links to [p.html]: the dictionary of the
    complete run holds the outcome of the seed, [None] for the final url
    and the failure of [http://a.com/old/p.html]; the reporter prints the
    header and the line of the failure, and so ends the output of the
    run. *)
Lemma print_results_reports_failures_witness :
  urlopen_2xx moved_site /\
  processed_urls (fst (run_on moved_site 10 "a.com/old/" initial_state))
    = [("http://a.com/old/", Some (mkData (Some 200%Z) ""));
       ("http://a.com/new/", None);
       ("http://a.com/old/p.html",
        Some (mkData None "Server error: Not Found"))] /\
  print_results
    (processed_urls (fst (run_on moved_site 10 "a.com/old/" initial_state)))
    initial_state
    = (print_all
         ["Bad or broken links:";
          report_line "http://a.com/old/p.html"
                      (mkData None "Server error: Not Found")]
         initial_state,
       Done tt) /\
  run_on moved_site 10 "a.com/old/" initial_state
    = (fst (run_on moved_site 10 "a.com/old/" initial_state), Done 0%Z) /\
  stdout (fst (run_on moved_site 10 "a.com/old/" initial_state))
    = ["Bad or broken links:";
       report_line "http://a.com/old/p.html"
                   (mkData None "Server error: Not Found")].
Proof.
  assert (Hd : processed_urls
                 (fst (run_on moved_site 10 "a.com/old/" initial_state))
               = [("http://a.com/old/", Some (mkData (Some 200%Z) ""));
                  ("http://a.com/new/", None);
                  ("http://a.com/old/p.html",
                   Some (mkData None "Server error: Not Found"))])
    by (vm_compute; reflexivity).
  assert (Hs : snd (run_on moved_site 10 "a.com/old/" initial_state)
               = Done 0%Z) by (vm_compute; reflexivity).
  destruct (print_results_reports_failures any_host moved_site decode_ascii
              starttags fifo 10 "a.com/old/" moved_site_2xx) as [Hp Ho].
  split; [exact moved_site_2xx|]. split; [exact Hd|].
  split; [|split].
  - rewrite (Hp initial_state), Hd. reflexivity.
  - rewrite (surjective_pairing (run_on moved_site 10 "a.com/old/"
                                        initial_state)) at 1.
    rewrite Hs. reflexivity.
  - rewrite (Ho _ Hs), Hd. reflexivity.
Defined.

(** On the site where [http://a.com] links to [/b], [/b] links to [/c] and
    [/c] redirects to [/b]: after the result of [/b] is processed the
    dictionary holds its outcome (the run cut after 3 turns), and
    processing the result of [/c] replaces it by [None]; so it is at the
    end of the complete run, although [/b] was fetched. *)
Lemma redirect_target_marked_pending_witness :
  Str.truthy "http://a.com/b" = true /\
  "http://a.com/b" <> "http://a.com/c" /\
  fetch_on redirect_site "http://a.com/c" true
    = Return (mkResult "http://a.com/c" (Some 200%Z) "" [Some "c"]
                       "http://a.com/b") /\
  Dict.get "http://a.com/b"
           (processed_urls (fst (run_on redirect_site 3 "a.com" initial_state)))
    = Some (Some (mkData (Some 200%Z) "")) /\
  Dict.get "http://a.com/b"
    (processed_urls
       (fst (process_result any_host "http://a.com"
               (mkResult "http://a.com/c" (Some 200%Z) "" [Some "c"]
                         "http://a.com/b")
               (fst (run_on redirect_site 3 "a.com" initial_state)))))
    = Some None /\
  Dict.get "http://a.com/b"
           (processed_urls (fst (run_on redirect_site 10 "a.com" initial_state)))
    = Some None /\
  snd (run_on redirect_site 10 "a.com" initial_state) = Done 0%Z.
Proof.
  assert (H1 : Str.truthy "http://a.com/b" = true) by reflexivity.
  assert (H2 : "http://a.com/b" <> "http://a.com/c") by discriminate.
  split; [exact H1 | split; [exact H2|]].
  split; [reflexivity|]. split; [vm_compute; reflexivity|].
  split; [|split; vm_compute; reflexivity].
  exact (redirect_target_marked_pending any_host "http://a.com"
           (mkResult "http://a.com/c" (Some 200%Z) "" [Some "c"]
                     "http://a.com/b")
           (fst (run_on redirect_site 3 "a.com" initial_state)) H1 H2).
Defined.

(** *** The site with an undecodable page *)

Lemma undecodable_fetch (u : string) :
  fetch_on undecodable_site u true = Raise UnicodeDecodeError.
Proof. reflexivity. Qed.


Lemma undecodable_blocked (fuel : nat) :
  run_on undecodable_site fuel "a.com" initial_state
  = (set_queues [] [] [mkTask "http://a.com" true]
       (set_clock 1 (enqueue (mkTask "http://a.com" true) initial_state)),
     Blocked).
Proof. rewrite main_eq. reflexivity. Qed.

(** The only page of the site declares the charset [ascii] and holds the
    byte 0xE9: its fetch returns no result at all (so none with an empty
    list of links), and the crawl does not go on: [main] blocks in its
    first [join]. *)
Lemma decode_error_is_not_caught :
  ~ (exists r, fetch_on undecodable_site "http://a.com" true = Return r /\
               r_links r = []) /\
  snd (run_on undecodable_site 10 "a.com" initial_state) = Blocked.
Proof.
  split.
  - intros (r & Hr & _). rewrite undecodable_fetch in Hr. discriminate.
  - rewrite undecodable_blocked. reflexivity.
Qed.


(** *** The site with an undecodable page behind the seed *)

(** On the site whose seed page links to the undecodable page [/b]: the
    fetch of [/b] raises, a [join] with its task waiting blocks, and so
    does the run from the seed, in the [join] that follows the first turn
    of the loop; the dictionary then holds the outcome of the seed and
    [None] for [/b]. *)
Lemma decode_error_blocks_crawl_witness :
  broken_page_site "http://a.com/b"
    = Response (Some 200%Z) (Return [Byte.xe9]) (Some "ascii")
               "http://a.com/b" /\
  (200 < 400)%Z /\
  decode_ascii [Byte.xe9] "ascii" = Raise UnicodeDecodeError /\
  fetch_on broken_page_site "http://a.com/b" true = Raise UnicodeDecodeError /\
  snd (join broken_page_site decode_ascii starttags fifo
            (enqueue (mkTask "http://a.com/b" true) initial_state)) = Blocked /\
  In (mkTask "http://a.com/b" true)
     (created (fst (run_on broken_page_site 10 "a.com" initial_state))) /\
  snd (run_on broken_page_site 10 "a.com" initial_state) = Blocked /\
  processed_urls (fst (run_on broken_page_site 10 "a.com" initial_state))
    = [("http://a.com", Some (mkData (Some 200%Z) ""));
       ("http://a.com/b", None)] /\
  stdout (fst (run_on broken_page_site 10 "a.com" initial_state)) = [] /\
  (forall code,
      snd (run_on broken_page_site 10 "a.com" initial_state) <> Done code) /\
  (forall data,
      Dict.get "http://a.com/b"
        (processed_urls (fst (run_on broken_page_site 10 "a.com" initial_state)))
      <> Some (Some data)).
Proof.
  assert (H1 : broken_page_site "http://a.com/b"
               = Response (Some 200%Z) (Return [Byte.xe9]) (Some "ascii")
                          "http://a.com/b") by reflexivity.
  assert (H2 : (200 < 400)%Z) by reflexivity.
  assert (H3 : decode_ascii [Byte.xe9] "ascii" = Raise UnicodeDecodeError)
    by reflexivity.
  assert (H4 : In (mkTask "http://a.com/b" true)
                  (created (fst (run_on broken_page_site 10 "a.com"
                                        initial_state))))
    by (vm_compute; auto).
  destruct (decode_error_blocks_crawl any_host broken_page_site decode_ascii
              starttags fifo "http://a.com/b" 200%Z [Byte.xe9] (Some "ascii")
              "http://a.com/b" UnicodeDecodeError H1 H2 H3)
    as (Hp & _ & Hj & Hrun).
  destruct (Hrun 10 "a.com" _ _ (surjective_pairing _) H4) as (Hn & Hs & Hg).
  split; [exact H1 | split; [exact H2 | split; [exact H3 | split; [exact Hp|]]]].
  split; [apply Hj; left; left; reflexivity|].
  split; [exact H4|].
  split; [vm_compute; reflexivity|].
  split; [vm_compute; reflexivity|].
  split; [exact Hs|].
  split; [exact Hn | exact Hg].
Defined.

(** With 51 undecodable pages waiting, the 50 workers die on the first 50
    and the last task is never taken. *)
Lemma join_leaves_task_when_all_died :
  task_queue
    (fst (join undecodable_site decode_ascii starttags fifo
            (set_queues (numbered_tasks 51) [] [] initial_state)))
    = [mkTask "http://a.com/50" true] /\
  dead
    (fst (join undecodable_site decode_ascii starttags fifo
            (set_queues (numbered_tasks 51) [] [] initial_state)))
    = numbered_tasks 50 /\
  snd (join undecodable_site decode_ascii starttags fifo
         (set_queues (numbered_tasks 51) [] [] initial_state))
    = Blocked.
Proof.
  repeat split; vm_compute; reflexivity.
Qed.

(** *** The site with a redirect *)






Lemma redirect_site_2xx : urlopen_2xx redirect_site.
Proof.
  intros u s rd cs g. unfold redirect_site, page.
  repeat match goal with
         | |- context [String.eqb u ?x] => destruct (String.eqb u x)
         end;
    intros H; inversion H; lia.
Qed.

Lemma outcome_has_status_or_error_witness :
  urlopen_2xx redirect_site /\
  (fetched_ok (Some 200%Z) "" \/ fetched_failed (Some 200%Z) "") /\
  (forall msg, is_bad (mkData (Some 200%Z) "") <> Raise (TypeError msg)).
Proof.
  split; [exact redirect_site_2xx|].
  destruct (outcome_has_status_or_error any_host redirect_site decode_ascii
              starttags fifo redirect_site_2xx) as [_ H].
  destruct (H 10 "a.com" "http://a.com" (mkData (Some 200%Z) ""))
    as (H1 & _ & H3).
  - vm_compute. left. reflexivity.
  - split; [exact H1 | exact H3].
Defined.

(** *** Links with other schemes, links to the host of the seed *)

(** C7, counterexample.  The link [ftp://h/f] starts with a scheme that is
    neither [http] nor [https], so the specification's predicate skips it,
    but the program does not: the url enters the dictionary and a task is
    put for it. *)
Lemma ftp_link_is_fetched :
  spec_skipped "ftp://h/f" = true /\
  clean_fragments any_host (Some "ftp://h/f") = Return "ftp://h/f" /\
  skipped "ftp://h/f" = false /\
  In (mkTask "ftp://h/f" false)
     (created (fst (run_on ftp_site 10 "a.com" initial_state))) /\
  Dict.mem "ftp://h/f"
     (processed_urls (fst (run_on ftp_site 10 "a.com" initial_state))) = true.
Proof. repeat split; vm_compute; auto. Qed.

Lemma skipped_link_is_discarded_witness :
  clean_fragments any_host (Some "mailto:foo@bar.com#top")
    = Return "mailto:foo@bar.com" /\
  skipped "mailto:foo@bar.com" = true /\
  process_link any_host "http://a.com"
    (mkResult "http://a.com" (Some 200%Z) "" [Some "mailto:foo@bar.com#top"]
              "http://a.com")
    (Some "mailto:foo@bar.com#top") initial_state
    = (initial_state, Done tt).
Proof.
  assert (H1 : clean_fragments any_host (Some "mailto:foo@bar.com#top")
               = Return "mailto:foo@bar.com") by reflexivity.
  assert (H2 : skipped "mailto:foo@bar.com" = true) by reflexivity.
  split; [exact H1 | split; [exact H2|]].
  exact (skipped_link_is_discarded any_host "http://a.com" _ _ _
           initial_state H1 H2).
Defined.

(** C8, counterexample.  For the seed [www.example.com] the link
    [http://www.example.com/a] has exactly the host of the seed, but the
    task put for it has [collect_links] false, because [root_url] is
    [http://example.com]. *)
Lemma own_host_link_is_not_collected :
  get_base_url any_host "www.example.com" = Return "http://www.example.com" /\
  host_of any_host "http://www.example.com" = Return "www.example.com" /\
  host_of any_host "http://www.example.com/a" = Return "www.example.com" /\
  get_root_url any_host "http://www.example.com" = Return "http://example.com" /\
  created (fst (run_on www_site 10 "www.example.com" initial_state))
    = [mkTask "http://www.example.com" true;
       mkTask "http://www.example.com/a" false].
Proof. repeat split; vm_compute; reflexivity. Qed.

Lemma new_link_collects_iff_root_host_witness :
  let result := mkResult "http://www.example.com" (Some 200%Z) ""
                         [Some "http://example.com/a"]
                         "http://www.example.com" in
  resolve_link any_host result (Some "http://example.com/a")
    = Return (Some "http://example.com/a") /\
  Dict.mem "http://example.com/a" (processed_urls initial_state) = false /\
  is_same_domain any_host "http://example.com/a" "http://example.com"
    = Return true /\
  process_link any_host "http://example.com" result
               (Some "http://example.com/a") initial_state
    = (enqueue (mkTask "http://example.com/a" true)
               (mark_new "http://example.com/a" initial_state), Done tt) /\
  exists hu hr,
    host_of any_host "http://example.com/a" = Return hu /\
    host_of any_host "http://example.com" = Return hr /\
    (true = true <-> hu <> EmptyString /\ hu = hr).
Proof.
  intros result.
  assert (H1 : resolve_link any_host result (Some "http://example.com/a")
               = Return (Some "http://example.com/a")) by reflexivity.
  assert (H2 : Dict.mem "http://example.com/a" (processed_urls initial_state)
               = false) by reflexivity.
  assert (H3 : is_same_domain any_host "http://example.com/a"
                 "http://example.com" = Return true) by reflexivity.
  split; [exact H1 | split; [exact H2 | split; [exact H3|]]].
  exact (new_link_collects_iff_root_host any_host "http://example.com" result
           _ _ _ initial_state H1 H2 H3).
Defined.

(** *** Further properties on the concrete sites *)

Lemma process_page_result_shape_witness :
  fetch_on moved_site "http://a.com/old/" true
    = Return (mkResult "http://a.com/old/" (Some 200%Z) "" [Some "p.html"]
                       "http://a.com/new/") /\
  fetch_on moved_site "http://a.com/gone" false
    = Return (mkResult "http://a.com/gone" None "Server error: Not Found" []
                       "") /\
  r_url (mkResult "http://a.com/gone" None "Server error: Not Found" [] "")
    = "http://a.com/gone".
Proof.
  assert (H1 : fetch_on moved_site "http://a.com/old/" true
               = Return (mkResult "http://a.com/old/" (Some 200%Z) ""
                                  [Some "p.html"] "http://a.com/new/"))
    by reflexivity.
  assert (H2 : fetch_on moved_site "http://a.com/gone" false
               = Return (mkResult "http://a.com/gone" None
                                  "Server error: Not Found" [] ""))
    by reflexivity.
  split; [exact H1 | split; [exact H2|]].
  exact (proj1 (process_page_result_shape moved_site decode_ascii starttags
                  _ _ _ H2)).
Defined.

Lemma process_page_links_only_when_collecting_witness :
  fetch_on moved_site "http://a.com/old/" true
    = Return (mkResult "http://a.com/old/" (Some 200%Z) "" [Some "p.html"]
                       "http://a.com/new/") /\
  [Some "p.html"] <> [] /\
  true = true /\
  exists n body cs g page,
    moved_site "http://a.com/old/" = Response (Some n) (Return body) cs g /\
    (n < 400)%Z /\
    decode_ascii body (match cs with
                       | Some cs => if Str.truthy cs then cs else "utf-8"
                       | None => "utf-8"
                       end) = Return page /\
    [Some "p.html"] = get_links starttags page.
Proof.
  assert (H1 : fetch_on moved_site "http://a.com/old/" true
               = Return (mkResult "http://a.com/old/" (Some 200%Z) ""
                                  [Some "p.html"] "http://a.com/new/"))
    by reflexivity.
  assert (H2 : r_links (mkResult "http://a.com/old/" (Some 200%Z) ""
                                 [Some "p.html"] "http://a.com/new/") <> [])
    by discriminate.
  split; [exact H1 | split; [exact H2|]].
  exact (process_page_links_only_when_collecting moved_site decode_ascii
           starttags _ _ _ H1 H2).
Defined.

Lemma is_same_domain_symmetric_witness :
  is_same_domain any_host "http://a.com/x" "http://a.com" = Return true /\
  is_same_domain any_host "http://a.com" "http://a.com/x" = Return true /\
  is_relative any_host "http://a.com/x" = Return false.
Proof.
  assert (H : is_same_domain any_host "http://a.com/x" "http://a.com"
              = Return true) by reflexivity.
  destruct (is_same_domain_symmetric any_host _ _ _ H) as [H1 H2].
  split; [exact H | split; [exact H1 | exact (proj1 (H2 eq_refl))]].
Defined.

Lemma get_base_url_starts_with_scheme_witness :
  get_base_url any_host "ftp://x/y" = Return "http://ftp://x/y" /\
  Str.startswith "http://" "http://ftp://x/y" = true /\
  Str.truthy "http://ftp://x/y" = true.
Proof.
  assert (H : get_base_url any_host "ftp://x/y" = Return "http://ftp://x/y")
    by reflexivity.
  destruct (get_base_url_starts_with_scheme any_host _ _ H) as (_ & H2 & H3).
  split; [exact H | split; [exact (H2 eq_refl) | exact H3]].
Defined.

Lemma main_never_returns_1_witness :
  run_on redirect_site 10 "a.com" initial_state
    = (fst (run_on redirect_site 10 "a.com" initial_state), Done 0%Z) /\
  (0 = 0)%Z.
Proof.
  assert (H : run_on redirect_site 10 "a.com" initial_state
              = (fst (run_on redirect_site 10 "a.com" initial_state), Done 0%Z))
    by (vm_compute; reflexivity).
  split; [exact H|].
  exact (main_never_returns_1 any_host redirect_site decode_ascii starttags fifo
           _ _ _ _ _ H).
Defined.

Lemma keys_are_never_removed_witness :
  In "http://a.com/seen"
     (Dict.keys (processed_urls
        (set_has_tasks true
           (set_processed_urls [("http://a.com/seen", None)] initial_state)))) /\
  In "http://a.com/seen"
     (Dict.keys (processed_urls
        (fst (main_loop any_host redirect_site decode_ascii starttags fifo 5
                "http://a.com"
                (set_has_tasks true
                   (set_processed_urls [("http://a.com/seen", None)]
                                       initial_state)))))).
Proof.
  assert (H : In "http://a.com/seen"
                (Dict.keys (processed_urls
                   (set_has_tasks true
                      (set_processed_urls [("http://a.com/seen", None)]
                                          initial_state)))))
    by (left; reflexivity).
  split; [exact H|].
  exact (keys_are_never_removed any_host redirect_site decode_ascii starttags
           fifo 5 "http://a.com" _ _ H).
Defined.

Lemma main_returns_at_rest_witness :
  run_on redirect_site 10 "a.com" initial_state
    = (fst (run_on redirect_site 10 "a.com" initial_state), Done 0%Z) /\
  at_rest THREADS_NUM (fst (run_on redirect_site 10 "a.com" initial_state)).
Proof.
  assert (H : run_on redirect_site 10 "a.com" initial_state
              = (fst (run_on redirect_site 10 "a.com" initial_state), Done 0%Z))
    by (vm_compute; reflexivity).
  split; [exact H|].
  exact (main_returns_at_rest any_host redirect_site decode_ascii starttags fifo
           _ _ _ _ H).
Defined.

Lemma every_task_is_recorded_witness :
  run_on redirect_site 10 "a.com" initial_state
    = (fst (run_on redirect_site 10 "a.com" initial_state), Done 0%Z) /\
  In (mkTask "http://a.com/c" true)
     (created (fst (run_on redirect_site 10 "a.com" initial_state))) /\
  In "http://a.com/c"
     (Dict.keys (processed_urls
                   (fst (run_on redirect_site 10 "a.com" initial_state)))).
Proof.
  assert (H : run_on redirect_site 10 "a.com" initial_state
              = (fst (run_on redirect_site 10 "a.com" initial_state), Done 0%Z))
    by (vm_compute; reflexivity).
  assert (Hin : In (mkTask "http://a.com/c" true)
                   (created (fst (run_on redirect_site 10 "a.com"
                                         initial_state))))
    by (vm_compute; auto).
  split; [exact H | split; [exact Hin|]].
  exact (every_task_is_recorded any_host redirect_site decode_ascii starttags
           fifo _ _ _ _ _ H Hin).
Defined.

Lemma outcome_belongs_to_its_url_witness :
  In ("http://a.com/c", Some (mkData (Some 200%Z) ""))
     (processed_urls (fst (run_on redirect_site 10 "a.com" initial_state))) /\
  exists c r, fetch_on redirect_site "http://a.com/c" c = Return r /\
              mkData (Some 200%Z) "" = mkData (r_status r) (r_error r).
Proof.
  assert (H : In ("http://a.com/c", Some (mkData (Some 200%Z) ""))
                 (processed_urls (fst (run_on redirect_site 10 "a.com"
                                              initial_state))))
    by (vm_compute; auto).
  split; [exact H|].
  exact (outcome_belongs_to_its_url any_host redirect_site decode_ascii
           starttags fifo _ _ _ _ H).
Defined.

Lemma clean_fragments_removes_fragment_witness :
  clean_fragments any_host (Some "a/b;p?x=1#top#more") = Return "a/b;p?x=1" /\
  Str.contains "#" "a/b;p?x=1" = false /\
  clean_fragments any_host (Some "a/b;p?x=1") = Return "a/b;p?x=1".
Proof.
  assert (H : clean_fragments any_host (Some "a/b;p?x=1#top#more")
              = Return "a/b;p?x=1") by reflexivity.
  split; [exact H|].
  exact (clean_fragments_removes_fragment any_host _ _ H).
Defined.

Lemma get_root_url_keeps_last_two_labels_witness :
  get_root_url any_host "https://a.b.example.com:8080/x/y?z=1#top"
    = Return "https://example.com:8080" /\
  exists p front domain,
    urllib.urlparse any_host "https://a.b.example.com:8080/x/y?z=1#top" ""
      = Return p /\
    "https://example.com:8080"
      = urllib.urlunsplit (urllib.scheme p) domain "" "" "" /\
    urllib.netloc p = (front ++ domain)%string /\
    (front = "" \/ exists q, front = (q ++ ".")%string) /\
    Str.split "." domain = last_two (Str.split "." (urllib.netloc p)) /\
    length (Str.split "." domain) <= 2.
Proof.
  assert (H : get_root_url any_host "https://a.b.example.com:8080/x/y?z=1#top"
              = Return "https://example.com:8080") by reflexivity.
  split; [exact H|].
  exact (get_root_url_keeps_last_two_labels any_host _ _ H).
Defined.
